(** * hassio-dropbox-upload: the upload, verification and retention engine

    A shallow embedding of [src/dropbox-upload/upload.py].  The Python
    functions talk to three collaborators: the Dropbox client [dbx], the
    Hass.io supervisor (through [requests]) and the local file system.
    Every call to a collaborator is recorded, in order, in the state, and
    the collaborator's answer (a value or a raised exception) may depend
    on everything that was called before.  Python exceptions are the
    [Raises] outcome of a small state-and-exception monad.  The driver
    ([list_snapshots] and [main]) runs the engine in a process that also
    records its own requests: the listing and the sleeper. *)

From Stdlib Require Import ZArith Strings.Byte Strings.Ascii Strings.String.
From stdpp Require Import base option list sorting gmap strings pretty.

Local Open Scope Z_scope.
Local Open Scope nat_scope.

(** ** Data *)

(** [bytes] objects. *)
Abbreviation bytes := (list byte).

#[global] Instance byte_eq_decision : EqDecision byte := Byte.byte_eq_dec.

(** One entry of the supervisor's snapshot listing.  [date] is the value
    of [arrow.get(snapshot["date"])], a point in time; a listing whose
    dates do not parse is not modelled. *)
Record snapshot := Snapshot {
  slug : string;
  name : string;
  date : Z }.

(** The options dictionary, with the two keys the engine reads:
    [config["dropbox_dir"]] and [config.get("keep")] ([None] when unset). *)
Record config := Config {
  dropbox_dir : string;
  keep : option Z }.

(** Instances of [Exception] that the collaborators and the operating
    system raise. *)
Inductive exn :=
| FileNotFoundError (path : string)
| PermissionError (path : string)
| ApiError (what : string)
| HTTPError (what : string).

(** What a Python call does: return a value, raise, or not come back (a
    loop that ran longer than the bound the model gives it). *)
Inductive outcome (A : Type) :=
| Returns (a : A)
| Raises (e : exn)
| Diverges.
Arguments Returns {A} a.
Arguments Raises {A} e.
Arguments Diverges {A}.

(** What a collaborator answers to a call: every network call completes or
    fails, so there is a value or an exception. *)
Inductive reply (A : Type) :=
| Value (a : A)
| Error (e : exn).
Arguments Value {A} a.
Arguments Error {A} e.

Definition outcome_of {A} (r : reply A) : outcome A :=
  match r with
  | Value a => Returns a
  | Error e => Raises e
  end.

(** Calls on the collaborators, with their arguments. *)
Inductive call :=
| FilesGetMetadata (path : string)
| FilesDelete (path : string)
| FilesUpload (content : bytes) (path : string)
| FilesUploadSessionStart (data : bytes)
| FilesUploadSessionAppend (data : bytes) (session_id : string) (offset : nat)
| FilesUploadSessionFinish (data : bytes) (session_id : string) (offset : nat)
    (path : string)
| HassioPost (url : string).

(** The Dropbox client, as the engine uses it.  Each method sees the calls
    made so far, so that a client may fail once and succeed later. *)
Record Dropbox := {
  files_get_metadata_reply : list call → string → reply string;
  files_delete_reply : list call → string → reply unit;
  files_upload_reply : list call → bytes → string → reply unit;
  files_upload_session_start_reply : list call → bytes → reply string;
  files_upload_session_append_reply :
    list call → bytes → string → nat → reply unit;
  files_upload_session_finish_reply :
    list call → bytes → string → nat → string → reply unit }.

(** [dropbox.files.UploadSessionCursor]. *)
Record UploadSessionCursor := Cursor {
  session_id : string;
  offset : nat }.

(** A file under a path: its content, or a file that [stat] sees (with
    its size) but [open] refuses.  No entry in the map: no such file. *)
Inductive file :=
| Readable (content : bytes)
| Unreadable (size : nat).

(** An open binary file: the content and the read position. *)
Record handle := Handle {
  data : bytes;
  pos : nat }.

Inductive level := DEBUG | INFO | WARNING | ERROR.

(** A Python list object is addressed by its location: two names for the
    same location see each other's in-place updates. *)
Abbreviation loc := nat (only parsing).

Record state := State {
  calls : list call;
  logs : list (level * string);
  heap : gmap loc (list snapshot) }.

(** ** The monad *)

Definition M (A : Type) : Type := state → outcome A * state.

Definition ret {A} (a : A) : M A := fun st => (Returns a, st).

Definition bind {A B} (m : M A) (k : A → M B) : M B := fun st =>
  match m st with
  | (Returns a, st') => k a st'
  | (Raises e, st') => (Raises e, st')
  | (Diverges, st') => (Diverges, st')
  end.

Definition raise {A} (e : exn) : M A := fun st => (Raises e, st).

Definition diverge {A} : M A := fun st => (Diverges, st).

(** [try: body except Exception: handler]. *)
Definition try_except {A} (body : M A) (handler : exn → M A) : M A := fun st =>
  match body st with
  | (Raises e, st') => handler e st'
  | r => r
  end.

Declare Scope py_scope.
Delimit Scope py_scope with py.
Notation "x <- m ;; k" := (bind m (fun x => k))
  (at level 100, m at next level, right associativity) : py_scope.
Notation "m ;; k" := (bind m (fun _ => k))
  (at level 100, right associativity) : py_scope.
Local Open Scope py_scope.

Definition add_call (c : call) (st : state) : state :=
  {| calls := calls st ++ [c]; logs := logs st; heap := heap st |}.

Definition add_log (lvl : level) (msg : string) (st : state) : state :=
  {| calls := calls st; logs := logs st ++ [(lvl, msg)]; heap := heap st |}.

(** Issue a call: record it, and answer as the collaborator does after the
    calls before it. *)
Definition perform {A} (c : call) (answer : list call → reply A) : M A :=
  fun st => (outcome_of (answer (calls st)), add_call c st).

Definition log (lvl : level) (msg : string) : M unit := fun st =>
  (Returns tt, add_log lvl msg st).

(** Reading a list object, and replacing its content in place. *)
Definition deref (l : loc) : M (list snapshot) := fun st =>
  (Returns (default [] (heap st !! l)), st).

Definition set_list (l : loc) (xs : list snapshot) (st : state) : state :=
  {| calls := calls st; logs := logs st; heap := <[l := xs]> (heap st) |}.

Definition update_list (l : loc) (f : list snapshot → list snapshot) : M unit :=
  fun st => (Returns tt, set_list l (f (default [] (heap st !! l))) st).

(** [for x in xs: body(x)]. *)
Fixpoint for_each {A} (xs : list A) (body : A → M unit) : M unit :=
  match xs with
  | [] => ret tt
  | x :: xs' => body x ;; for_each xs' body
  end.

(** ** The Dropbox client's methods *)

Definition files_get_metadata (dbx : Dropbox) (path : string) : M string :=
  perform (FilesGetMetadata path) (fun h => files_get_metadata_reply dbx h path).

Definition files_delete (dbx : Dropbox) (path : string) : M unit :=
  perform (FilesDelete path) (fun h => files_delete_reply dbx h path).

Definition files_upload (dbx : Dropbox) (content : bytes) (path : string) : M unit :=
  perform (FilesUpload content path) (fun h => files_upload_reply dbx h content path).

Definition files_upload_session_start (dbx : Dropbox) (chunk : bytes) : M string :=
  perform (FilesUploadSessionStart chunk)
    (fun h => files_upload_session_start_reply dbx h chunk).

Definition files_upload_session_append (dbx : Dropbox) (chunk : bytes)
    (sid : string) (off : nat) : M unit :=
  perform (FilesUploadSessionAppend chunk sid off)
    (fun h => files_upload_session_append_reply dbx h chunk sid off).

Definition files_upload_session_finish (dbx : Dropbox) (chunk : bytes)
    (cursor : UploadSessionCursor) (commit : string) : M unit :=
  perform (FilesUploadSessionFinish chunk (session_id cursor) (offset cursor) commit)
    (fun h => files_upload_session_finish_reply dbx h chunk
                (session_id cursor) (offset cursor) commit).

(** ** File objects *)

Definition tell (f : handle) : nat := pos f.

(** [f.read(n)]: at most [n] bytes from the read position, which moves
    past them. *)
Definition read (n : nat) (f : handle) : bytes * handle :=
  let chunk := take n (drop (pos f) (data f)) in
  (chunk, {| data := data f; pos := pos f + length chunk |}).

(** What a consumer of the whole file object reads: everything from the
    read position on. *)
Definition read_all (f : handle) : bytes := drop (pos f) (data f).

(** ** Lower-case hexadecimal *)

Definition hex_digit (n : nat) : Ascii.ascii :=
  default "0"%char (String.get n "0123456789abcdef").

Fixpoint hex (bs : bytes) : string :=
  match bs with
  | [] => ""
  | b :: bs' =>
      let n := Byte.to_nat b in
      String (hex_digit (n / 16)) (String (hex_digit (n mod 16)) (hex bs'))
  end.

(** [CHUNK_SIZE = 4 * 1024 * 1024]. *)
Definition CHUNK_SIZE : nat := 4 * 1024 * 1024.

(** ** Sorting and slicing *)

(** [list.sort(key=lambda x: arrow.get(x["date"]))] is a stable sort, and
    a stable sort has one possible result: the one insertion from the
    right computes. *)
Fixpoint insert_by_date (x : snapshot) (l : list snapshot) : list snapshot :=
  match l with
  | [] => [x]
  | y :: l' =>
      if (date x <=? date y)%Z then x :: y :: l' else y :: insert_by_date x l'
  end.

Definition sort_by_date (l : list snapshot) : list snapshot :=
  foldr insert_by_date [] l.

(** [l[k:]] and [l[:k]] for a Python integer [k]: a negative [k] counts
    from the end. *)
Definition slice_from {A} (k : Z) (l : list A) : list A :=
  if (k <? 0)%Z then drop (length l - Z.to_nat (- k)) l else drop (Z.to_nat k) l.

Definition slice_to {A} (k : Z) (l : list A) : list A :=
  if (k <? 0)%Z then take (length l - Z.to_nat (- k)) l else take (Z.to_nat k) l.

(** Creation dates in order: [x] was not created after [y]; a list with
    the newest snapshot first. *)
Definition not_newer (x y : snapshot) : Prop := (date x ≤ date y)%Z.

Definition newest_first (l : list snapshot) : Prop :=
  StronglySorted (flip not_newer) l.

(** [enumerate(l, start)]. *)
Definition enumerate {A} (start : nat) (l : list A) : list (nat * A) :=
  zip (seq start (length l)) l.

(** Truth value of [config.get("keep")]: [None] and [0] are false. *)
Definition truthy (k : option Z) : bool :=
  match k with
  | Some k => negb (k =? 0)%Z
  | None => false
  end.

(** [@retrace.retry(limit=n)].
    Modelled from the spec: the [retrace] package is not part of the
    sources.  Section 4.2 of the specification gives its behaviour: the
    wrapped call is attempted up to [limit] times in total, again after
    any raised error, and when the attempts are exhausted the error
    propagates to the caller. *)
Fixpoint retry_loop {A} (retries : nat) (wrapped : M A) : M A := fun st =>
  match wrapped st with
  | (Raises e, st') =>
      match retries with
      | 0 => (Raises e, st')
      | S retries' => retry_loop retries' wrapped st'
      end
  | r => r
  end.

Definition retry {A} (limit : nat) (wrapped : M A) : M A :=
  retry_loop (limit - 1) wrapped.

Section Engine.

(** [hashlib.sha256(b).digest()]. *)
Variable sha256 : bytes → bytes.

(** [str(pathlib.Path(dir) / name)]. *)
Variable path_join : string → string → string.

(** The chunk size the functions below read with; the program runs them
    with [CHUNK_SIZE]. *)
Variable chunk_size : nat.

(** The local file system, by path. *)
Variable fs : gmap string file.

(** The supervisor's answer to [requests.post], [raise_for_status] and
    the decoding of the body together. *)
Variable hassio : list call → string → reply unit.

Definition BACKUP_DIR : string := "/backup/".

(** [hassio_post]: the request, [raise_for_status] and the decoding
    are one call on the supervisor; the debug lines that print the
    headers and the response are left out of the log. *)
Definition hassio_post (path : string) : M unit :=
  let url := "http://hassio/" +:+ path in
  perform (HassioPost url) (fun h => hassio h url).

Definition local_path (s : snapshot) : string :=
  path_join BACKUP_DIR (slug s +:+ ".tar").

Definition dropbox_path (dir : string) (s : snapshot) : string :=
  path_join dir (slug s +:+ ".tar").

(** [os.path.getsize(path)]. *)
Definition getsize (path : string) : M nat :=
  match fs !! path with
  | Some (Readable content) => ret (length content)
  | Some (Unreadable size) => ret size
  | None => raise (FileNotFoundError path)
  end.

(** [open(path, "rb")]. *)
Definition open_rb (path : string) : M handle :=
  match fs !! path with
  | Some (Readable content) => ret {| data := content; pos := 0 |}
  | Some (Unreadable _) => raise (PermissionError path)
  | None => raise (FileNotFoundError path)
  end.

(** The [while f.tell() < file_size] loop of [upload_file].  The progress
    lines in between are left out: they round a float and call no
    collaborator.  [fuel] bounds the number of iterations; [upload_file]
    passes the size of the file, which is enough whenever the chunk size
    is positive, every iteration reading at least one byte. *)
Fixpoint upload_session_loop (fuel : nat) (dbx : Dropbox) (f : handle)
    (file_size : nat) (cursor : UploadSessionCursor) (commit : string) : M unit :=
  if tell f <? file_size then
    match fuel with
    | 0 => diverge
    | S fuel' =>
        if file_size - tell f <=? chunk_size then
          let '(chunk, f') := read chunk_size f in
          files_upload_session_finish dbx chunk cursor commit ;;
          upload_session_loop fuel' dbx f' file_size cursor commit
        else
          let '(chunk, f') := read chunk_size f in
          files_upload_session_append dbx chunk (session_id cursor) (offset cursor) ;;
          upload_session_loop fuel' dbx f' file_size
            {| session_id := session_id cursor; offset := tell f' |} commit
    end
  else log INFO "100 %".

(** The body of [upload_file]: one attempt. *)
Definition upload_file_attempt (dbx : Dropbox) (file_path dest_path : string)
    : M unit :=
  f <- open_rb file_path ;;
  file_size <- getsize file_path ;;
  if file_size <=? chunk_size then files_upload dbx (read_all f) dest_path
  else
    let '(chunk, f) := read chunk_size f in
    upload_session_start_result <- files_upload_session_start dbx chunk ;;
    let cursor :=
      {| session_id := upload_session_start_result; offset := tell f |} in
    upload_session_loop file_size dbx f file_size cursor dest_path.

(** [upload_file], as decorated with [@retrace.retry(limit=4)]. *)
Definition upload_file (dbx : Dropbox) (file_path dest_path : string) : M unit :=
  retry 4 (upload_file_attempt dbx file_path dest_path).

(** The [while True] loop of [compute_dropbox_hash]; the length of the
    file is fuel enough, every iteration but the last reading at least one
    byte. *)
Fixpoint read_block_hashes (fuel : nat) (f : handle) (block_hashes : bytes)
    : M bytes :=
  let '(chunk, f') := read chunk_size f in
  match chunk with
  | [] => ret block_hashes
  | _ :: _ =>
      match fuel with
      | 0 => diverge
      | S fuel' => read_block_hashes fuel' f' (block_hashes ++ sha256 chunk)
      end
  end.

Definition compute_dropbox_hash (filename : string) : M string :=
  f <- open_rb filename ;;
  block_hashes <- read_block_hashes (length (data f)) f [] ;;
  ret (hex (sha256 block_hashes)).

Definition file_exists (dbx : Dropbox) (file_path dest_path : string) : M bool :=
  metadata <- try_except
    (content_hash <- files_get_metadata dbx dest_path ;; ret (Some content_hash))
    (fun _ =>
       log INFO "No existing snapshot in dropox with this name" ;; ret None) ;;
  match metadata with
  | None => ret false
  | Some dropbox_hash =>
      local_hash <- compute_dropbox_hash file_path ;;
      log DEBUG ("Dropbox hash: " +:+ dropbox_hash) ;;
      log DEBUG ("Local hash: " +:+ local_hash) ;;
      if String.eqb local_hash dropbox_hash then ret true
      else
        log WARNING
          ("The snapshot conflicts with a file name in dropbox, the contents "
           +:+ "are different. The dropbox file will be deleted and replaced. "
           +:+ "Local hash: " +:+ local_hash
           +:+ ", Dropbox hash: " +:+ dropbox_hash) ;;
        files_delete dbx dest_path ;;
        ret false
  end.

(** [process_snapshot]: the statements under [try] first, then the
    function.  The lines [Created:] and [Size:] are left out of the log
    (they format a date and a float); the size is still asked for, before
    the [try]. *)
Definition process_snapshot_try (dbx : Dropbox) (path target : string) : M unit :=
  found <- file_exists dbx path target ;;
  if found : bool then log INFO "Already found in Dropbox with the same hash"
  else upload_file dbx path target.

Definition process_snapshot (dir : string) (dbx : Dropbox) (s : snapshot)
    : M unit :=
  let path := local_path s in
  size <- getsize path ;;
  let target := dropbox_path dir s in
  log INFO ("Slug: " +:+ slug s) ;;
  log INFO ("Uploading to: " +:+ target) ;;
  try_except (process_snapshot_try dbx path target)
    (fun _ => log ERROR "Upload failed").

(** [backup]: the snapshots it keeps for the loop first, then the
    function. *)
Definition backup_batch (cfg : config) (snaps : list snapshot) : list snapshot :=
  if truthy (keep cfg) && (default 0 (keep cfg) <? Z.of_nat (length snaps))%Z
  then slice_to (default 0%Z (keep cfg)) snaps
  else snaps.

Definition backup (dbx : Dropbox) (cfg : config) (snapshots : loc) : M unit :=
  snaps <- deref snapshots ;;
  log INFO ("Backing up " +:+ pretty (length snaps) +:+ " snapshots") ;;
  log INFO ("Backing up to Dropbox directory: " +:+ dropbox_dir cfg) ;;
  match snaps with
  | [] => log WARNING "No snapshots found to backup"
  | _ :: _ =>
      (if truthy (keep cfg) && (default 0 (keep cfg) <? Z.of_nat (length snaps))%Z
       then log INFO ("Only backing up the first "
                      +:+ pretty (default 0%Z (keep cfg)) +:+ " snapshots")
       else ret tt) ;;
      let snaps := backup_batch cfg snaps in
      for_each (enumerate 1 snaps) (fun '(i, s) =>
        log INFO ("Snapshot: " +:+ name s +:+ " (" +:+ pretty i +:+ "/"
                  +:+ pretty (length snaps) +:+ ")") ;;
        process_snapshot (dropbox_dir cfg) dbx s)
  end.

(** [limit_snapshots]: the body of its [for] loop first, then the
    function. *)
Definition delete_expired (dbx : Dropbox) (dir : string) (s : snapshot) : M unit :=
  log INFO ("Deleting " +:+ name s +:+ " (slug: " +:+ slug s) ;;
  hassio_post ("snapshots/" +:+ slug s +:+ "/remove") ;;
  files_delete dbx (dropbox_path dir s).

Definition limit_snapshots (dbx : Dropbox) (cfg : config) (snapshots : loc)
    : M unit :=
  if negb (truthy (keep cfg)) then
    log WARNING "keep not set. We wont remove old snapshots"
  else
    let keep := default 0%Z (keep cfg) in
    snaps <- deref snapshots ;;
    if (Z.of_nat (length snaps) <=? keep)%Z then
      log INFO "Not reached the maximum number of snapshots"
    else
      log INFO ("Limiting snapshots to the " +:+ pretty keep +:+ " most recent") ;;
      update_list snapshots sort_by_date ;;
      update_list snapshots reverse ;;
      sorted <- deref snapshots ;;
      let expired_snapshots := slice_from keep sorted in
      log INFO ("Deleting " +:+ pretty (length expired_snapshots) +:+ " snapshots") ;;
      for_each expired_snapshots (delete_expired dbx (dropbox_dir cfg)).

End Engine.

(** ** Reading a list of calls *)

(** The bytes an upload call carries. *)
Definition sent (c : call) : bytes :=
  match c with
  | FilesUpload d _ | FilesUploadSessionStart d
  | FilesUploadSessionAppend d _ _ | FilesUploadSessionFinish d _ _ _ => d
  | _ => []
  end.

Definition uploaded (cs : list call) : bytes := cs ≫= sent.

Definition is_upload (c : call) : Prop :=
  match c with
  | FilesUpload _ _ | FilesUploadSessionStart _
  | FilesUploadSessionAppend _ _ _ | FilesUploadSessionFinish _ _ _ _ => True
  | _ => False
  end.

(** The destination paths committed to: by a single-shot upload or by the
    finish of a session. *)
Definition commits (cs : list call) : list string :=
  omap (fun c =>
    match c with
    | FilesUpload _ p | FilesUploadSessionFinish _ _ _ p => Some p
    | _ => None
    end) cs.

Definition metadata_fetches (cs : list call) : list string :=
  omap (fun c => match c with FilesGetMetadata p => Some p | _ => None end) cs.

(** Appends of the blocks [chunks], the first at offset [start], each
    at the offset where the one before it ended. *)
Definition session_appends (sid : string) (chunk_size start : nat)
    (chunks : list bytes) : list call :=
  imap (λ i d, FilesUploadSessionAppend d sid (start + i * chunk_size)) chunks.

(** [up] is one upload of [content] to [dest]: upload calls only, that
    carry the content in order and commit once, to [dest]. *)
Definition one_upload (content : bytes) (dest : string) (up : list call) : Prop :=
  Forall is_upload up ∧ uploaded up = content ∧ commits up = [dest].

(** What [limit_snapshots] asks for one expired snapshot. *)
Definition deletion_calls (path_join : string → string → string) (dir : string)
    (s : snapshot) : list call :=
  [HassioPost ("http://hassio/" +:+ "snapshots/" +:+ slug s +:+ "/remove");
   FilesDelete (dropbox_path path_join dir s)].

(** The content hash, as section 4.1 of the specification words it: a
    digest per block of [chunk_size] bytes, the digests concatenated in
    order, a digest of that, in lower-case hexadecimal. *)
Fixpoint blocks (fuel chunk_size : nat) (content : bytes) : list bytes :=
  match fuel with
  | 0 => []
  | S fuel' =>
      match take chunk_size content with
      | [] => []
      | b => b :: blocks fuel' chunk_size (drop chunk_size content)
      end
  end.

Definition content_hash (sha256 : bytes → bytes) (chunk_size : nat)
    (content : bytes) : string :=
  hex (sha256 (blocks (length content) chunk_size content ≫= sha256)).

(** The error [open] raises for a path that holds no readable file. *)
Definition read_error (fs : gmap string file) (path : string) : exn :=
  match fs !! path with
  | None => FileNotFoundError path
  | Some _ => PermissionError path
  end.

(** The state in which [process_snapshot] enters its [try]. *)
Definition entering_try (target : string) (s : snapshot) (st : state) : state :=
  add_log INFO ("Uploading to: " +:+ target) (add_log INFO ("Slug: " +:+ slug s) st).

(** ** Collaborators that do not fail *)

Definition uploads_succeed (dbx : Dropbox) : Prop :=
  (∀ h c p, files_upload_reply dbx h c p = Value tt) ∧
  (∀ h d, ∃ sid, files_upload_session_start_reply dbx h d = Value sid) ∧
  (∀ h d sid o, files_upload_session_append_reply dbx h d sid o = Value tt) ∧
  (∀ h d sid o p, files_upload_session_finish_reply dbx h d sid o p = Value tt).

Definition deletes_succeed (dbx : Dropbox) : Prop :=
  ∀ h p, files_delete_reply dbx h p = Value tt.

Definition removals_succeed (hassio : list call → string → reply unit) : Prop :=
  ∀ h url, hassio h url = Value tt.

(** [m] comes back (it returns or raises), leaves the list objects alone
    and issues only calls that satisfy [P]. *)
Definition sends {A} (P : call → Prop) (m : M A) : Prop :=
  ∀ st, (m st).1 ≠ Diverges ∧ heap (m st).2 = heap st ∧
        ∃ cs, calls (m st).2 = calls st ++ cs ∧ Forall P cs.


(** ** A small world to run the functions in *)

Module Sample.

(** A stand-in for the digest: the first byte of the data. *)
Definition digest (b : bytes) : bytes := take 1 b.

(** Joining a directory and a file name with one slash. *)
Definition join (dir name : string) : string :=
  match String.get (String.length dir - 1) dir with
  | Some "/"%char => dir +:+ name
  | _ => dir +:+ "/" +:+ name
  end.

(** A client whose calls all succeed; the metadata of every path carries
    [remote_hash], or the path is not found when there is none. *)
Definition client (remote_hash : option string) : Dropbox := {|
  files_get_metadata_reply := fun _ _ =>
    match remote_hash with
    | Some h => Value h
    | None => Error (ApiError "path/not_found")
    end;
  files_delete_reply := fun _ _ => Value tt;
  files_upload_reply := fun _ _ _ => Value tt;
  files_upload_session_start_reply := fun _ _ => Value "session-1";
  files_upload_session_append_reply := fun _ _ _ _ => Value tt;
  files_upload_session_finish_reply := fun _ _ _ _ _ => Value tt |}.

(** A client that finds nothing and whose single-shot upload fails as long
    as fewer than [failures] calls were made before it. *)
Definition flaky (failures : nat) : Dropbox := {|
  files_get_metadata_reply := fun _ _ => Error (ApiError "path/not_found");
  files_delete_reply := fun _ _ => Value tt;
  files_upload_reply := fun h _ _ =>
    if length h <? failures then Error (ApiError "too_many_write_operations")
    else Value tt;
  files_upload_session_start_reply := fun _ _ => Value "session-1";
  files_upload_session_append_reply := fun _ _ _ _ => Value tt;
  files_upload_session_finish_reply := fun _ _ _ _ _ => Value tt |}.

(** A client that finds the remote object but cannot delete it. *)
Definition undeletable (remote_hash : string) : Dropbox := {|
  files_get_metadata_reply := fun _ _ => Value remote_hash;
  files_delete_reply := fun _ _ => Error (ApiError "path_lookup/locked");
  files_upload_reply := fun _ _ _ => Value tt;
  files_upload_session_start_reply := fun _ _ => Value "session-1";
  files_upload_session_append_reply := fun _ _ _ _ => Value tt;
  files_upload_session_finish_reply := fun _ _ _ _ _ => Value tt |}.

Definition supervisor : list call → string → reply unit := fun _ _ => Value tt.

Definition start : state := {| calls := []; logs := []; heap := ∅ |}.

Definition day1 : snapshot := {| slug := "aa11"; name := "monday"; date := 1 |}.
Definition day2 : snapshot := {| slug := "bb22"; name := "tuesday"; date := 2 |}.
Definition day3 : snapshot := {| slug := "cc33"; name := "wednesday"; date := 3 |}.

Definition ten_bytes : bytes := ["a"; "b"; "c"; "d"; "e"; "f"; "g"; "h"; "i"; "j"]%byte.

(** [day1] is a file of ten bytes, [day2] cannot be opened, [day3] is
    missing. *)
Definition disk : gmap string file :=
  {[ "/backup/aa11.tar" := Readable ten_bytes;
     "/backup/bb22.tar" := Unreadable 10 ]}.

(** The driver's list object lives at location [0]. *)
Definition listing (snaps : list snapshot) : state :=
  {| calls := []; logs := []; heap := {[ 0 := snaps ]} |}.

End Sample.

(** A list with the newest snapshot first and no two snapshots of the
    same date. *)
Definition strictly_newest_first (l : list snapshot) : Prop :=
  StronglySorted (λ x y, (date y < date x)%Z) l.

(** ** What a call may touch *)

(** [c] is a Dropbox call that names no other remote path than [p]; the
    start and the appends of a session name none. *)
Definition touches_only (p : string) (c : call) : Prop :=
  match c with
  | FilesGetMetadata q | FilesDelete q | FilesUpload _ q
  | FilesUploadSessionFinish _ _ _ q => q = p
  | FilesUploadSessionStart _ | FilesUploadSessionAppend _ _ _ => True
  | HassioPost _ => False
  end.

(** The calls of a session that uploads [content] in full: the start with
    the first chunk, the appends of [chunks], the finish with [last]. *)
Definition session_calls (sid : string) (chunk_size : nat) (content : bytes)
    (chunks : list bytes) (last : bytes) (dest : string) : list call :=
  FilesUploadSessionStart (take chunk_size content)
  :: session_appends sid chunk_size chunk_size chunks
  ++ [FilesUploadSessionFinish last sid
        (chunk_size + length chunks * chunk_size) dest].

(** The error with which the client answers the call [c] made after the
    calls [h], when it answers with one. *)
Definition failure (dbx : Dropbox) (h : list call) (c : call) : option exn :=
  match c with
  | FilesGetMetadata p =>
      match files_get_metadata_reply dbx h p with Error e => Some e | Value _ => None end
  | FilesDelete p =>
      match files_delete_reply dbx h p with Error e => Some e | Value _ => None end
  | FilesUpload d p =>
      match files_upload_reply dbx h d p with Error e => Some e | Value _ => None end
  | FilesUploadSessionStart d =>
      match files_upload_session_start_reply dbx h d with
      | Error e => Some e
      | Value _ => None
      end
  | FilesUploadSessionAppend d sid o =>
      match files_upload_session_append_reply dbx h d sid o with
      | Error e => Some e
      | Value _ => None
      end
  | FilesUploadSessionFinish d sid o p =>
      match files_upload_session_finish_reply dbx h d sid o p with
      | Error e => Some e
      | Value _ => None
      end
  | HassioPost _ => None
  end.

(** The calls [cs], made in order after the calls [h], were all answered
    without an error. *)
Fixpoint all_succeed (dbx : Dropbox) (h cs : list call) : Prop :=
  match cs with
  | [] => True
  | c :: cs' => failure dbx h c = None ∧ all_succeed dbx (h ++ [c]) cs'
  end.

(** How a run that was to issue the calls [full] after [h], and issued
    [cs], ended: it returned and every call of [full] was issued and
    answered without an error; or it raised [e], and [e] is the answer to
    the last call issued, the first that was answered with an error. *)
Definition stopped_by {A} (dbx : Dropbox) (h cs full : list call) (r : outcome A)
    : Prop :=
  match r with
  | Returns _ => cs = full ∧ all_succeed dbx h cs
  | Raises e =>
      ∃ cs' c, cs = cs' ++ [c] ∧ all_succeed dbx h cs'
               ∧ failure dbx (h ++ cs') c = Some e
  | Diverges => False
  end.

(** ** The driver *)

(** What [main] asks for besides the calls of the engine. *)
Inductive request :=
| HassioGet (url : string)
| Sleeper (seconds : Z).

(** What [dbx.users_get_current_account()] gives for the client built
    from the configured access token: the account,
    [exceptions.AuthError], or another exception. *)
Inductive account :=
| Account
| AuthError
| OtherError (e : exn).

(** The running program: the state of the engine and the requests of the
    driver so far. *)
Record process := Process {
  engine : state;
  requests : list request }.

Definition Main (A : Type) : Type := process → outcome A * process.

(** Running a function of the engine inside the driver. *)
Definition run {A} (m : M A) : Main A := fun p =>
  ((m (engine p)).1, {| engine := (m (engine p)).2; requests := requests p |}).

(** Issue a request: record it, and answer as the collaborator does
    after the requests before it. *)
Definition ask {A} (q : request) (answer : list request → reply A) : Main A :=
  fun p => (outcome_of (answer (requests p)),
            {| engine := engine p; requests := requests p ++ [q] |}).

Definition and_then {A B} (m : Main A) (k : A → Main B) : Main B := fun p =>
  match m p with
  | (Returns a, p') => k a p'
  | (Raises e, p') => (Raises e, p')
  | (Diverges, p') => (Diverges, p')
  end.

Definition result {A} (a : A) : Main A := fun p => (Returns a, p).

(** [try: body except Exception: handler], in the driver. *)
Definition attempt {A} (body : Main A) (handler : exn → Main A) : Main A :=
  fun p =>
    match body p with
    | (Raises e, p') => handler e p'
    | r => r
    end.

(** A new list object, at a location that holds none. *)
Definition new_list (xs : list snapshot) : M loc := fun st =>
  let l := fresh (dom (heap st)) in (Returns l, set_list l xs st).

Declare Scope main_scope.
Delimit Scope main_scope with main.
Notation "x <- m ;; k" := (and_then m (fun x => k))
  (at level 100, m at next level, right associativity) : main_scope.
Notation "m ;; k" := (and_then m (fun _ => k))
  (at level 100, right associativity) : main_scope.

Section Driver.

Variable sha256 : bytes → bytes.
Variable path_join : string → string → string.
Variable chunk_size : nat.
Variable fs : gmap string file.
Variable hassio : list call → string → reply unit.

(** The supervisor's answer to [requests.get], [raise_for_status], the
    decoding of the body and the lookup of [["data"]["snapshots"]]
    together. *)
Variable hassio_snapshots : list request → string → reply (list snapshot).

(** The [sleeper] handed to [main], and whether what it returns is true. *)
Variable sleeper : list request → Z → reply bool.

Local Open Scope main_scope.

(** [hassio_get(path)["snapshots"]]. *)
Definition hassio_get (path : string) : Main (list snapshot) :=
  let url := "http://hassio/" +:+ path in
  ask (HassioGet url) (fun h => hassio_snapshots h url).

Definition list_snapshots : Main loc :=
  answer <- hassio_get "snapshots" ;;
  snapshots <- run (new_list answer) ;;
  run (update_list snapshots sort_by_date) ;;
  run (update_list snapshots reverse) ;;
  result snapshots.

(** [main]: the [try] of its loop first, then the loop, then the
    function.  [load_config] and [setup_logging] come before and read
    files: the options are given here, [mins] being
    [config.get("mins_between_backups")], and every log line is kept
    whatever the configured level.  [dbx] is the client that
    [DropboxAPI(config["access_token"])] builds.  [fuel] bounds the number
    of turns of the [while True] loop.  The line that announces the sleep
    is not an f-string in the source, so it is logged as it is written. *)
Definition cycle (dbx : Dropbox) (cfg : config) : Main unit :=
  attempt
    (run (log INFO "Starting Snapshot backup") ;;
     snapshots <- list_snapshots ;;
     run (backup sha256 path_join chunk_size fs dbx cfg snapshots) ;;
     run (log INFO "Uploads complete") ;;
     run (limit_snapshots path_join hassio dbx cfg snapshots) ;;
     run (log INFO "Snapshot cleanup complete"))
    (fun _ => run (log ERROR "Unhandled error")).

Fixpoint main_loop (fuel : nat) (dbx : Dropbox) (cfg : config) (mins : option Z)
    : Main unit :=
  match fuel with
  | 0 => fun p => (Diverges, p)
  | S fuel' =>
      cycle dbx cfg ;;
      let sleep := default 10%Z mins in
      run (log INFO "Sleeping for {sleep} minutes") ;;
      stop <- ask (Sleeper (sleep * 60)) (fun h => sleeper h (sleep * 60)%Z) ;;
      if stop : bool then result tt else main_loop fuel' dbx cfg mins
  end.

Definition main (fuel : nat) (dbx : Dropbox) (users_get_current_account : account)
    (cfg : config) (mins : option Z) : Main unit :=
  match users_get_current_account with
  | Account => main_loop fuel dbx cfg mins
  | AuthError => run (log ERROR "Invalid access token")
  | OtherError e => fun p => (Raises e, p)
  end.

End Driver.

(** The turns of the loop of [main] as the driver's requests show them:
    the list of snapshots is asked for, then the sleeper is called. *)
Definition turns (n : nat) (seconds : Z) : list request :=
  mjoin (replicate n [HassioGet "http://hassio/snapshots"; Sleeper seconds]).

(** The number of times the sleeper was called. *)
Definition is_nap (q : request) : bool :=
  match q with
  | Sleeper _ => true
  | HassioGet _ => false
  end.

Definition naps (rs : list request) : nat := length (filter is_nap rs).

(** ** More of the small world *)

Module Demo.

(** A digest of the right length that collides on every input. *)
Definition zeros (b : bytes) : bytes := replicate 32 Byte.x00.

(** Two files that can be read, with different contents. *)
Definition two_files : gmap string file :=
  {[ "/backup/aa11.tar" := Readable Sample.ten_bytes;
     "/backup/dd44.tar" := Readable (take 4 Sample.ten_bytes) ]}.

(** A snapshot of the same date as [Sample.day1], whose local file
    exists. *)
Definition twin : snapshot := {| slug := "bb22"; name := "monday again"; date := 1 |}.

(** A supervisor that lists [snaps], and one that is down. *)
Definition lists (snaps : list snapshot)
    : list request → string → reply (list snapshot) :=
  fun _ _ => Value snaps.

Definition down : list request → string → reply (list snapshot) :=
  fun _ _ => Error (HTTPError "502 Bad Gateway").

(** [time.sleep], and a sleeper that says stop at its second call. *)
Definition plain_sleep : list request → Z → reply bool := fun _ _ => Value false.

Definition second_nap : list request → Z → reply bool :=
  fun h _ => Value (naps h =? 1).

Definition boot : process := {| engine := Sample.start; requests := [] |}.

(** Options that keep [n] snapshots. *)
Definition keeping (n : Z) : config := {| dropbox_dir := "/snapshots"; keep := Some n |}.

End Demo.

(** * Facts *)

(** ** Running the monad *)

Lemma bind_returns {A B} (m : M A) (k : A → M B) st a st' :
  m st = (Returns a, st') → bind m k st = k a st'.
Proof. intros H. unfold bind. by rewrite H. Qed.

Lemma try_except_returns {A} (m : M A) h st a st' :
  m st = (Returns a, st') → try_except m h st = (Returns a, st').
Proof. intros H. unfold try_except. by rewrite H. Qed.

Lemma try_except_raises {A} (m : M A) h st e st' :
  m st = (Raises e, st') → try_except m h st = h e st'.
Proof. intros H. unfold try_except. by rewrite H. Qed.

Lemma retry_loop_returns {A} n (m : M A) st a st' :
  m st = (Returns a, st') → retry_loop n m st = (Returns a, st').
Proof. intros H. destruct n; simpl; by rewrite H. Qed.

(** ** Reading a file *)

Lemma drop_read {A} (n p : nat) (l : list A) :
  drop (p + length (take n (drop p l))) l = drop (p + n) l.
Proof.
  rewrite length_take, length_drop.
  destruct (decide (n ≤ length l - p)) as [Hle | Hgt].
  - by rewrite Nat.min_l.
  - rewrite Nat.min_r by lia. rewrite !drop_ge; [done | lia | lia].
Qed.

Lemma length_concat_chunks {A} (n : nat) (chunks : list (list A)) :
  Forall (λ d, length d = n) chunks → length (concat chunks) = length chunks * n.
Proof.
  induction 1 as [| d ds Hd _ IH]; [done |].
  simpl. rewrite length_app, IH, Hd. done.
Qed.

Lemma uploaded_cons c cs : uploaded (c :: cs) = sent c ++ uploaded cs.
Proof. done. Qed.

Lemma uploaded_app cs1 cs2 : uploaded (cs1 ++ cs2) = uploaded cs1 ++ uploaded cs2.
Proof. unfold uploaded. apply bind_app. Qed.

(** ** Calls that come back *)

Lemma sends_bind_raise {A B} P e (k : A → M B) : sends P (bind (raise e) k).
Proof. intros st. split_and!; [done | done |]. exists []. by rewrite app_nil_r. Qed.

Lemma sends_log P lvl msg : sends P (log lvl msg).
Proof. intros st. split_and!; [done | done |]. exists []. by rewrite app_nil_r. Qed.

Lemma sends_perform {A} (P : call → Prop) c (answer : list call → reply A) :
  P c → sends P (perform c answer).
Proof.
  intros Hc st. unfold perform. simpl. split_and!; [| done |].
  - by destruct (answer (calls st)).
  - exists [c]. split; [done | by constructor].
Qed.

Lemma sends_bind {A B} P (m : M A) (k : A → M B) :
  sends P m → (∀ a, sends P (k a)) → sends P (bind m k).
Proof.
  intros Hm Hk st. destruct (Hm st) as (Hdiv & Hheap & cs & Hcs & HP).
  unfold bind. destruct (m st) as [[a | e |] st1]; simpl in *; [| | done].
  - destruct (Hk a st1) as (Hdiv' & Hheap' & cs' & Hcs' & HP').
    split_and!; [done | congruence |]. exists (cs ++ cs').
    rewrite Hcs', Hcs, <- app_assoc. split; [done | by apply Forall_app].
  - split_and!; [done | done |]. by exists cs.
Qed.

Lemma sends_retry_loop {A} P n (m : M A) : sends P m → sends P (retry_loop n m).
Proof.
  intros Hm. induction n as [| n IH]; intros st;
    destruct (Hm st) as (Hdiv & Hheap & cs & Hcs & HP); simpl;
    destruct (m st) as [[a | e |] st1] eqn:Hrun; simpl in *; try done;
    try (split_and!; [done | done |]; by exists cs).
  destruct (IH st1) as (Hdiv' & Hheap' & cs' & Hcs' & HP').
  split_and!; [done | congruence |]. exists (cs ++ cs').
  rewrite Hcs', Hcs, <- app_assoc. split; [done | by apply Forall_app].
Qed.

Section Facts.

Context (sha256 : bytes → bytes) (path_join : string → string → string).
Context (chunk_size : nat) (fs : gmap string file).
Context (hassio : list call → string → reply unit).

(** ** The content hash *)

Lemma read_block_hashes_spec content fuel p acc st :
  length content - p ≤ fuel →
  read_block_hashes sha256 chunk_size fuel {| data := content; pos := p |} acc st
  = (Returns (acc ++ (blocks fuel chunk_size (drop p content) ≫= sha256)), st).
Proof.
  revert p acc. induction fuel as [| fuel IH]; intros p acc Hfuel; simpl.
  - rewrite drop_ge by lia. rewrite take_nil. simpl. by rewrite app_nil_r.
  - destruct (take chunk_size (drop p content)) as [| b bs] eqn:Hchunk.
    + simpl. by rewrite app_nil_r.
    + assert (Hlen : 0 < length (drop p content)).
      { destruct (drop p content); [by rewrite take_nil in Hchunk | simpl; lia]. }
      rewrite length_drop in Hlen.
      rewrite IH.
      * rewrite <- Hchunk, drop_read, <- drop_drop, Hchunk. simpl.
        by rewrite <- app_assoc.
      * simpl.
        assert (0 < chunk_size) by (destruct chunk_size; [done | lia]).
        assert (length (b :: bs) = chunk_size `min` (length content - p)) as Hl
          by (by rewrite <- Hchunk, length_take, length_drop).
        simpl in Hl. lia.
Qed.

(** [compute_dropbox_hash] returns the block-wise digest of the file's
    content and touches nothing. *)
Lemma compute_dropbox_hash_spec path content st :
  fs !! path = Some (Readable content) →
  compute_dropbox_hash sha256 chunk_size fs path st
  = (Returns (content_hash sha256 chunk_size content), st).
Proof.
  intros Hfile. unfold compute_dropbox_hash, open_rb. rewrite Hfile.
  unfold bind at 1. simpl.
  unfold bind. rewrite read_block_hashes_spec by (simpl; lia).
  by rewrite drop_0.
Qed.

Lemma hex_digit_inj m n : m < 16 → n < 16 → hex_digit m = hex_digit n → m = n.
Proof.
  intros Hm Hn.
  do 16 (destruct m as [| m];
         [do 16 (destruct n as [| n]; [by (done || discriminate) |]); lia |]).
  lia.
Qed.

Lemma hex_cons b bs :
  hex (b :: bs)
  = String (hex_digit (Byte.to_nat b / 16))
      (String (hex_digit (Byte.to_nat b mod 16)) (hex bs)).
Proof. done. Qed.

Lemma hex_inj b1 b2 : hex b1 = hex b2 → b1 = b2.
Proof.
  revert b2. induction b1 as [| a b1 IH]; intros [| b b2] Heq; try done.
  rewrite !hex_cons in Heq.
  assert (hex_digit (Byte.to_nat a / 16) = hex_digit (Byte.to_nat b / 16))
    as Hhigh by congruence.
  assert (hex_digit (Byte.to_nat a mod 16) = hex_digit (Byte.to_nat b mod 16))
    as Hlow by congruence.
  assert (hex b1 = hex b2) as Hrest by congruence.
  pose proof (Byte.to_nat_bounded a). pose proof (Byte.to_nat_bounded b).
  apply hex_digit_inj in Hhigh;
    [| apply Nat.Div0.div_lt_upper_bound; lia ..].
  apply hex_digit_inj in Hlow; [| by apply Nat.mod_upper_bound ..].
  assert (Byte.to_nat a = Byte.to_nat b) as Hnat.
  { rewrite (Nat.div_mod_eq (Byte.to_nat a) 16), (Nat.div_mod_eq (Byte.to_nat b) 16).
    congruence. }
  f_equal; [| by apply IH].
  pose proof (Byte.of_to_nat a) as Ha. rewrite Hnat, Byte.of_to_nat in Ha.
  congruence.
Qed.

Lemma concat_blocks fuel content :
  0 < chunk_size → length content ≤ fuel →
  concat (blocks fuel chunk_size content) = content.
Proof.
  intros Hchunk. revert content.
  induction fuel as [| fuel IH]; intros content Hfuel; simpl.
  - by destruct content; [| simpl in Hfuel; lia].
  - destruct (take chunk_size content) as [| b bs] eqn:Hblock.
    + destruct content; [done |]. by destruct chunk_size; [lia |].
    + simpl. rewrite IH.
      * rewrite app_comm_cons, <- Hblock. apply take_drop.
      * rewrite length_drop.
        destruct content; [by rewrite take_nil in Hblock | simpl in *; lia].
Qed.

Lemma block_digests_collision (l1 l2 : list bytes) :
  (∀ x, length (sha256 x) = 32) →
  l1 ≫= sha256 = l2 ≫= sha256 → l1 ≠ l2 →
  ∃ x y, x ≠ y ∧ sha256 x = sha256 y.
Proof.
  intros Hlen. revert l2.
  induction l1 as [| x l1 IH]; intros [| y l2] Heq Hne; try done.
  - apply (f_equal length) in Heq. rewrite bind_cons, length_app, Hlen in Heq.
    simpl in Heq. lia.
  - apply (f_equal length) in Heq. rewrite bind_cons, length_app, Hlen in Heq.
    simpl in Heq. lia.
  - rewrite !bind_cons in Heq. apply app_inj_1 in Heq as [Hhead Htail];
      [| by rewrite !Hlen].
    destruct (decide (x = y)) as [-> | Hxy]; [| by exists x, y].
    apply (IH l2); [done | congruence].
Qed.

(** Two different contents with the same digest give two different byte
    strings with the same SHA-256 digest: the content hash collides only
    where SHA-256 does. *)
Lemma content_hash_collision content1 content2 :
  0 < chunk_size → (∀ x, length (sha256 x) = 32) →
  content1 ≠ content2 →
  content_hash sha256 chunk_size content1 = content_hash sha256 chunk_size content2 →
  ∃ x y, x ≠ y ∧ sha256 x = sha256 y.
Proof.
  intros Hchunk Hlen Hne Heq. unfold content_hash in Heq. apply hex_inj in Heq.
  destruct (decide (blocks (length content1) chunk_size content1 ≫= sha256
                    = blocks (length content2) chunk_size content2 ≫= sha256))
    as [Hsame | Hdiff]; [| by eexists _, _].
  apply (block_digests_collision _ _ Hlen Hsame).
  intros Hblocks. apply Hne.
  rewrite <- (concat_blocks (length content1) content1),
    <- (concat_blocks (length content2) content2) by done.
  by rewrite Hblocks.
Qed.

(** ** One upload attempt *)

Lemma perform_value {A} c (answer : list call → reply A) st a :
  answer (calls st) = Value a → perform c answer st = (Returns a, add_call c st).
Proof. intros H. unfold perform. by rewrite H. Qed.

Lemma upload_session_loop_done fuel dbx f file_size cursor commit st :
  file_size ≤ tell f →
  upload_session_loop chunk_size fuel dbx f file_size cursor commit st
  = (Returns tt, add_log INFO "100 %" st).
Proof.
  intros Hle. apply Nat.ltb_ge in Hle. destruct fuel; simpl; by rewrite Hle.
Qed.

(** With a client that does not fail, the loop sends what is left of the
    file: appends of one chunk each, at the offset of the bytes sent so
    far, then the finish. *)
Lemma upload_session_loop_ok dbx content sid dest fuel p st :
  0 < chunk_size → uploads_succeed dbx →
  p < length content → length content - p ≤ fuel →
  ∃ chunks last st',
    upload_session_loop chunk_size fuel dbx {| data := content; pos := p |}
      (length content) {| session_id := sid; offset := p |} dest st
    = (Returns tt, st') ∧
    calls st' = calls st ++ session_appends sid chunk_size p chunks
      ++ [FilesUploadSessionFinish last sid (p + length chunks * chunk_size) dest] ∧
    Forall (λ d, length d = chunk_size) chunks ∧
    0 < length last ≤ chunk_size ∧
    concat chunks ++ last = drop p content ∧
    heap st' = heap st.
Proof.
  intros Hchunk (_ & _ & Happend & Hfinish).
  revert p st. induction fuel as [| fuel IH]; intros p st Hp Hfuel; [lia |].
  simpl. assert ((p <? length content) = true) as -> by (by apply Nat.ltb_lt).
  destruct (length content - p <=? chunk_size) eqn:Hrest.
  - apply Nat.leb_le in Hrest.
    rewrite take_ge by (rewrite length_drop; lia).
    unfold files_upload_session_finish. simpl.
    erewrite bind_returns by (apply perform_value, Hfinish).
    rewrite upload_session_loop_done by (simpl; rewrite length_drop; lia).
    eexists [], (drop p content), _. split; [done |]. simpl.
    rewrite Nat.add_0_r, length_drop. split_and!; [done | done | lia | lia | done | done].
  - apply Nat.leb_gt in Hrest.
    unfold files_upload_session_append. simpl.
    erewrite bind_returns by (apply perform_value, Happend).
    assert (length (take chunk_size (drop p content)) = chunk_size) as Hlen.
    { rewrite length_take, length_drop. lia. }
    unfold tell. simpl. rewrite Hlen.
    destruct (IH (p + chunk_size)
                (add_call (FilesUploadSessionAppend
                             (take chunk_size (drop p content)) sid p) st))
      as (chunks & last & st' & Hrun & Hcalls & Hchunks & Hlast & Hbytes & Hheap);
      [lia | lia |].
    eexists (take chunk_size (drop p content) :: chunks), last, st'.
    split; [done |]. split_and!; [| by constructor | lia | lia | | done].
    + rewrite Hcalls. simpl. rewrite <- app_assoc. simpl.
      rewrite Nat.add_0_r. do 2 f_equal. f_equal; [| do 2 f_equal; lia].
      apply imap_ext. intros i d _. simpl. f_equal. lia.
    + simpl. rewrite <- app_assoc, Hbytes, <- drop_drop. apply take_drop.
Qed.

Lemma session_appends_cons sid c start d ds :
  session_appends sid c start (d :: ds)
  = FilesUploadSessionAppend d sid start :: session_appends sid c (start + c) ds.
Proof.
  unfold session_appends. simpl. rewrite Nat.add_0_r. f_equal.
  apply imap_ext. intros i x _. simpl. f_equal. lia.
Qed.

Lemma session_appends_upload sid c start ds :
  Forall is_upload (session_appends sid c start ds)
  ∧ uploaded (session_appends sid c start ds) = concat ds
  ∧ commits (session_appends sid c start ds) = [].
Proof.
  revert start. induction ds as [| d ds IH]; intros start; [done |].
  rewrite session_appends_cons. destruct (IH (start + c)) as (Hall & Hup & Hcommit).
  split_and!; [by constructor | | done].
  rewrite uploaded_cons, Hup. done.
Qed.

Lemma upload_file_attempt_small dbx path dest content st :
  fs !! path = Some (Readable content) → length content ≤ chunk_size →
  upload_file_attempt chunk_size fs dbx path dest st
  = files_upload dbx content dest st.
Proof.
  intros Hfile Hsize. unfold upload_file_attempt, open_rb, getsize.
  rewrite Hfile. unfold bind, ret. simpl.
  apply Nat.leb_le in Hsize. by rewrite Hsize.
Qed.

Lemma upload_file_attempt_large dbx path dest content st :
  fs !! path = Some (Readable content) → chunk_size < length content →
  upload_file_attempt chunk_size fs dbx path dest st
  = (sid <- files_upload_session_start dbx (take chunk_size content) ;;
     upload_session_loop chunk_size (length content) dbx
       {| data := content; pos := chunk_size |} (length content)
       {| session_id := sid; offset := chunk_size |} dest) st.
Proof.
  intros Hfile Hsize. unfold upload_file_attempt, open_rb, getsize.
  rewrite Hfile. unfold bind at 1 2, ret. simpl.
  apply Nat.leb_gt in Hsize. rewrite Hsize. unfold tell. simpl.
  rewrite drop_0, length_take, Nat.min_l by (apply Nat.leb_gt in Hsize; lia).
  done.
Qed.

(** A file larger than one chunk, a client that does not fail: a start
    with the first chunk, appends, a finish. *)
Lemma upload_file_attempt_chunked dbx path dest content st :
  0 < chunk_size → uploads_succeed dbx →
  fs !! path = Some (Readable content) → chunk_size < length content →
  ∃ sid chunks last st',
    upload_file_attempt chunk_size fs dbx path dest st = (Returns tt, st') ∧
    calls st' = calls st
      ++ FilesUploadSessionStart (take chunk_size content)
      :: session_appends sid chunk_size chunk_size chunks
      ++ [FilesUploadSessionFinish last sid
            (chunk_size + length chunks * chunk_size) dest] ∧
    Forall (λ d, length d = chunk_size) chunks ∧
    0 < length last ≤ chunk_size ∧
    take chunk_size content ++ concat chunks ++ last = content ∧
    heap st' = heap st.
Proof.
  intros Hchunk Hok Hfile Hsize.
  rewrite (upload_file_attempt_large _ _ _ content) by done.
  destruct Hok as (Hup & Hstart & Hrest).
  destruct (Hstart (calls st) (take chunk_size content)) as [sid Hsid].
  unfold files_upload_session_start.
  erewrite bind_returns by (apply perform_value, Hsid).
  destruct (upload_session_loop_ok dbx content sid dest (length content) chunk_size
              (add_call (FilesUploadSessionStart (take chunk_size content)) st))
    as (chunks & last & st' & Hrun & Hcalls & Hchunks & Hlast & Hbytes & Hheap);
    [done | done | done | lia |].
  exists sid, chunks, last, st'. split_and!; try done; try lia.
  - rewrite Hcalls. simpl. by rewrite <- app_assoc.
  - rewrite Hbytes. apply take_drop.
Qed.

(** A successful upload, whatever the size of the file. *)
Lemma upload_file_ok dbx path dest content st :
  0 < chunk_size → uploads_succeed dbx →
  fs !! path = Some (Readable content) →
  ∃ up st',
    upload_file chunk_size fs dbx path dest st = (Returns tt, st') ∧
    calls st' = calls st ++ up ∧ one_upload content dest up ∧ heap st' = heap st.
Proof.
  intros Hchunk Hok Hfile. unfold upload_file, retry.
  destruct (decide (length content ≤ chunk_size)) as [Hsmall | Hlarge].
  - exists [FilesUpload content dest], (add_call (FilesUpload content dest) st).
    split; [| split_and!; [done | | done]].
    2: { split_and!; [by constructor | apply app_nil_r | done]. }
    apply retry_loop_returns.
    rewrite (upload_file_attempt_small _ _ _ content) by done.
    apply perform_value, Hok.
  - destruct (upload_file_attempt_chunked dbx path dest content st)
      as (sid & chunks & last & st' & Hrun & Hcalls & _ & _ & Hbytes & Hheap);
      [done | done | done | lia |].
    eexists _, st'. split; [by apply retry_loop_returns |].
    split; [exact Hcalls |]. split; [| done].
    destruct (session_appends_upload sid chunk_size chunk_size chunks)
      as (Hall & Hup & Hcommit).
    unfold one_upload. split_and!.
    + constructor; [done |]. apply Forall_app. split; [done | by constructor].
    + rewrite uploaded_cons, uploaded_app, Hup. simpl.
      by rewrite app_nil_r.
    + unfold commits in *. simpl. rewrite omap_app, Hcommit. done.
Qed.

(** ** Whatever the client answers *)

Lemma sends_upload_session_loop dbx file_size commit fuel f cursor :
  0 < chunk_size → file_size ≤ length (data f) → file_size - pos f ≤ fuel →
  sends is_upload
    (upload_session_loop chunk_size fuel dbx f file_size cursor commit).
Proof.
  intros Hchunk Hsize. revert f cursor Hsize.
  induction fuel as [| fuel IH]; intros f cursor Hsize Hfuel; simpl.
  - assert ((tell f <? file_size) = false) as -> by (apply Nat.ltb_ge; unfold tell; lia).
    apply sends_log.
  - destruct (tell f <? file_size) eqn:Hlt; [| apply sends_log].
    apply Nat.ltb_lt in Hlt. unfold tell in Hlt.
    assert (0 < length (take chunk_size (drop (pos f) (data f)))) as Hread.
    { rewrite length_take, length_drop. lia. }
    destruct (file_size - tell f <=? chunk_size); unfold read;
      (apply sends_bind; [by apply sends_perform |]); intros _;
      apply IH; simpl; (done || lia).
Qed.

Lemma sends_upload_file_attempt dbx path dest :
  0 < chunk_size → sends is_upload (upload_file_attempt chunk_size fs dbx path dest).
Proof.
  intros Hchunk.
  destruct (fs !! path) as [[content | size] |] eqn:Hfile.
  - destruct (decide (length content ≤ chunk_size)) as [Hsmall | Hlarge]; intros st.
    + rewrite (upload_file_attempt_small _ _ _ content) by done.
      by apply sends_perform.
    + rewrite (upload_file_attempt_large _ _ _ content) by (done || lia).
      revert st. apply sends_bind; [by apply sends_perform |]. intros sid.
      apply sends_upload_session_loop; simpl; [done | done | lia].
  - unfold upload_file_attempt, open_rb. rewrite Hfile. apply sends_bind_raise.
  - unfold upload_file_attempt, open_rb. rewrite Hfile. apply sends_bind_raise.
Qed.

Lemma sends_upload_file dbx path dest :
  0 < chunk_size → sends is_upload (upload_file chunk_size fs dbx path dest).
Proof. intros Hchunk. by apply sends_retry_loop, sends_upload_file_attempt. Qed.

Lemma compute_dropbox_hash_unreadable path st :
  (fs !! path = None ∧
   compute_dropbox_hash sha256 chunk_size fs path st
   = (Raises (FileNotFoundError path), st))
  ∨ (∃ size, fs !! path = Some (Unreadable size) ∧
     compute_dropbox_hash sha256 chunk_size fs path st
     = (Raises (PermissionError path), st))
  ∨ (∃ content, fs !! path = Some (Readable content)).
Proof.
  unfold compute_dropbox_hash, open_rb.
  destruct (fs !! path) as [[content | size] |]; eauto.
Qed.


(** ** The existence check *)

Lemma file_exists_absent dbx path dest e st :
  files_get_metadata_reply dbx (calls st) dest = Error e →
  file_exists sha256 chunk_size fs dbx path dest st
  = (Returns false,
     add_log INFO "No existing snapshot in dropox with this name"
       (add_call (FilesGetMetadata dest) st)).
Proof.
  intros Hreply. unfold file_exists, files_get_metadata, perform, try_except, bind.
  rewrite Hreply. done.
Qed.

Lemma file_exists_unverifiable dbx path dest h st :
  files_get_metadata_reply dbx (calls st) dest = Value h →
  (∀ content, fs !! path ≠ Some (Readable content)) →
  file_exists sha256 chunk_size fs dbx path dest st
  = (Raises (read_error fs path), add_call (FilesGetMetadata dest) st).
Proof.
  intros Hreply Hfile.
  unfold file_exists, files_get_metadata, perform, try_except, bind at 1 2.
  rewrite Hreply. simpl. unfold bind, read_error.
  destruct (compute_dropbox_hash_unreadable path (add_call (FilesGetMetadata dest) st))
    as [[-> ->] | [(size & -> & ->) | [content Hc]]]; [done | done |].
  by destruct (Hfile content).
Qed.

Lemma file_exists_same dbx path dest content st :
  files_get_metadata_reply dbx (calls st) dest
  = Value (content_hash sha256 chunk_size content) →
  fs !! path = Some (Readable content) →
  ∃ st1, file_exists sha256 chunk_size fs dbx path dest st = (Returns true, st1)
         ∧ calls st1 = calls st ++ [FilesGetMetadata dest] ∧ heap st1 = heap st.
Proof.
  intros Hreply Hfile.
  unfold file_exists, files_get_metadata, perform, try_except, bind at 1 2.
  rewrite Hreply. simpl.
  erewrite bind_returns by (by apply compute_dropbox_hash_spec).
  unfold bind, log. simpl. rewrite String.eqb_refl. eauto.
Qed.

Lemma file_exists_differs dbx path dest content h st :
  files_get_metadata_reply dbx (calls st) dest = Value h →
  fs !! path = Some (Readable content) →
  h ≠ content_hash sha256 chunk_size content →
  ∃ st1,
    file_exists sha256 chunk_size fs dbx path dest st
    = (match files_delete_reply dbx (calls st ++ [FilesGetMetadata dest]) dest with
       | Value _ => Returns false
       | Error e => Raises e
       end, st1)
    ∧ calls st1 = calls st ++ [FilesGetMetadata dest; FilesDelete dest]
    ∧ heap st1 = heap st.
Proof.
  intros Hreply Hfile Hne.
  unfold file_exists, files_get_metadata, perform, try_except, bind at 1 2.
  rewrite Hreply. simpl.
  erewrite bind_returns by (by apply compute_dropbox_hash_spec).
  unfold bind, log, files_delete, perform. simpl.
  assert ((content_hash sha256 chunk_size content =? h)%string = false) as ->
    by (by apply String.eqb_neq).
  simpl. eexists. split.
  - by destruct (files_delete_reply dbx _ dest) as [[] | e].
  - simpl. by rewrite <- app_assoc.
Qed.

(** ** One snapshot *)

Lemma process_snapshot_enters dir dbx s f st :
  fs !! local_path path_join s = Some f →
  process_snapshot sha256 path_join chunk_size fs dir dbx s st
  = try_except
      (process_snapshot_try sha256 chunk_size fs dbx (local_path path_join s)
         (dropbox_path path_join dir s))
      (fun _ => log ERROR "Upload failed")
      (entering_try (dropbox_path path_join dir s) s st).
Proof.
  intros Hfile. unfold process_snapshot, getsize. rewrite Hfile.
  by destruct f.
Qed.

Lemma process_snapshot_missing dir dbx s st :
  fs !! local_path path_join s = None →
  process_snapshot sha256 path_join chunk_size fs dir dbx s st
  = (Raises (FileNotFoundError (local_path path_join s)), st).
Proof.
  intros Hfile. unfold process_snapshot, getsize. by rewrite Hfile.
Qed.

Lemma process_snapshot_after_check dir dbx s f st found st1 :
  fs !! local_path path_join s = Some f →
  file_exists sha256 chunk_size fs dbx (local_path path_join s)
    (dropbox_path path_join dir s) (entering_try (dropbox_path path_join dir s) s st)
  = (Returns found, st1) →
  process_snapshot sha256 path_join chunk_size fs dir dbx s st
  = if found then (Returns tt, add_log INFO "Already found in Dropbox with the same hash" st1)
    else try_except
           (upload_file chunk_size fs dbx (local_path path_join s)
              (dropbox_path path_join dir s))
           (fun _ => log ERROR "Upload failed") st1.
Proof.
  intros Hfile Hcheck. rewrite (process_snapshot_enters _ _ _ f) by done.
  unfold process_snapshot_try, try_except at 1, bind. rewrite Hcheck.
  by destruct found.
Qed.

Lemma process_snapshot_check_raises dir dbx s f st e st1 :
  fs !! local_path path_join s = Some f →
  file_exists sha256 chunk_size fs dbx (local_path path_join s)
    (dropbox_path path_join dir s) (entering_try (dropbox_path path_join dir s) s st)
  = (Raises e, st1) →
  process_snapshot sha256 path_join chunk_size fs dir dbx s st
  = (Returns tt, add_log ERROR "Upload failed" st1).
Proof.
  intros Hfile Hcheck. rewrite (process_snapshot_enters _ _ _ f) by done.
  unfold process_snapshot_try, try_except at 1, bind. by rewrite Hcheck.
Qed.

(** ** The retry *)



(** ** The claims on the uploader *)

(** C5. For every file whose size is at most one chunk, in a run where
    the single-shot call does not fail, [upload_file] issues exactly one
    call, [files_upload], carrying the whole content of the file to the
    destination, and no session call: the calls after the run are the
    calls before it and that one. *)
Theorem upload_file_single_shot dbx path dest content st :
  fs !! path = Some (Readable content) →
  length content ≤ chunk_size →
  files_upload_reply dbx (calls st) content dest = Value tt →
  ∃ st',
    upload_file chunk_size fs dbx path dest st = (Returns tt, st') ∧
    calls st' = calls st ++ [FilesUpload content dest] ∧
    logs st' = logs st ∧ heap st' = heap st.
Proof.
  intros Hfile Hsize Hreply.
  exists (add_call (FilesUpload content dest) st). split; [| done].
  apply retry_loop_returns.
  rewrite (upload_file_attempt_small _ _ _ content) by done.
  by apply perform_value.
Qed.

(** C2. For every file whose size is strictly greater than one chunk, in
    a run where the session calls do not fail, [upload_file] issues one
    session start with the first chunk, then zero or more appends of
    exactly one chunk each (each at the offset of the bytes sent before
    it), then exactly one finish, which is the final call and carries a
    non-empty rest of at most one chunk; the bytes of the start, the
    appends and the finish, in order, are the content of the file, and
    their number is the size of the file. *)
Theorem upload_file_chunked dbx path dest content st :
  0 < chunk_size → uploads_succeed dbx →
  fs !! path = Some (Readable content) →
  chunk_size < length content →
  ∃ sid chunks last st',
    upload_file chunk_size fs dbx path dest st = (Returns tt, st') ∧
    calls st' = calls st
      ++ FilesUploadSessionStart (take chunk_size content)
      :: session_appends sid chunk_size chunk_size chunks
      ++ [FilesUploadSessionFinish last sid
            (chunk_size + length chunks * chunk_size) dest] ∧
    Forall (λ d, length d = chunk_size) chunks ∧
    0 < length last ≤ chunk_size ∧
    take chunk_size content ++ concat chunks ++ last = content ∧
    chunk_size + length chunks * chunk_size + length last = length content.
Proof.
  intros Hchunk Hok Hfile Hsize.
  destruct (upload_file_attempt_chunked dbx path dest content st)
    as (sid & chunks & last & st' & Hrun & Hcalls & Hchunks & Hlast & Hbytes & _);
    [done .. |].
  exists sid, chunks, last, st'.
  split_and!; [by apply retry_loop_returns | done | done | lia | lia | done |].
  apply (f_equal length) in Hbytes.
  rewrite !length_app, length_take, (length_concat_chunks chunk_size) in Hbytes
    by done.
  lia.
Qed.


(** ** The claims on one snapshot *)

Lemma metadata_fetches_upload cs : Forall is_upload cs → metadata_fetches cs = [].
Proof.
  induction 1 as [| c cs Hc _ IH]; [done |].
  unfold metadata_fetches in *. by destruct c.
Qed.

Lemma metadata_fetches_cons p cs :
  metadata_fetches (FilesGetMetadata p :: cs) = p :: metadata_fetches cs.
Proof. done. Qed.

Lemma metadata_fetches_app cs1 cs2 :
  metadata_fetches (cs1 ++ cs2) = metadata_fetches cs1 ++ metadata_fetches cs2.
Proof. apply omap_app. Qed.

Lemma try_except_log_returns P (m : M unit) lvl msg st :
  sends P m →
  ∃ cs st',
    try_except m (fun _ => log lvl msg) st = (Returns tt, st') ∧
    calls st' = calls st ++ cs ∧ Forall P cs ∧ heap st' = heap st.
Proof.
  intros Hm. destruct (Hm st) as (Hdiv & Hheap & cs & Hcs & HP).
  unfold try_except. destruct (m st) as [[[] | e |] st1]; simpl in *; [| | done].
  - by exists cs, st1.
  - by exists cs, (add_log lvl msg st1).
Qed.

(** A snapshot whose local file is there is processed without an error
    reaching the caller, whatever the client answers: the metadata of the
    destination is fetched once, first, and what follows are deletes and
    upload calls. *)
Lemma process_snapshot_returns dir dbx s f st :
  0 < chunk_size →
  fs !! local_path path_join s = Some f →
  ∃ rest st',
    process_snapshot sha256 path_join chunk_size fs dir dbx s st = (Returns tt, st') ∧
    calls st' = calls st ++ FilesGetMetadata (dropbox_path path_join dir s) :: rest ∧
    metadata_fetches rest = [] ∧
    heap st' = heap st.
Proof.
  intros Hchunk Hfile.
  set (path := local_path path_join s). set (target := dropbox_path path_join dir s).
  set (st2 := entering_try target s st).
  assert (∀ st1 pre,
    calls st1 = calls st ++ FilesGetMetadata target :: pre →
    metadata_fetches pre = [] → heap st1 = heap st →
    ∃ rest st',
      try_except (upload_file chunk_size fs dbx path target)
        (fun _ => log ERROR "Upload failed") st1 = (Returns tt, st') ∧
      calls st' = calls st ++ FilesGetMetadata target :: rest ∧
      metadata_fetches rest = [] ∧ heap st' = heap st) as Hupload.
  { intros st1 pre Hcalls Hpre Hheap.
    destruct (try_except_log_returns is_upload
                (upload_file chunk_size fs dbx path target) ERROR "Upload failed" st1)
      as (cs & st' & Hrun & Hcs & Hup & Hheap'); [by apply sends_upload_file |].
    exists (pre ++ cs), st'. split_and!; [done | | | congruence].
    - rewrite Hcs, Hcalls, <- app_assoc. done.
    - unfold metadata_fetches in *. rewrite omap_app, Hpre.
      by apply metadata_fetches_upload. }
  destruct (files_get_metadata_reply dbx (calls st2) target) as [h | e] eqn:Hreply.
  - destruct f as [content | size].
    + destruct (decide (h = content_hash sha256 chunk_size content)) as [-> | Hne].
      * destruct (file_exists_same dbx path target content st2)
          as (st1 & Hcheck & Hcalls & Hheap); [done | done |].
        rewrite (process_snapshot_after_check _ _ _ _ _ true st1 Hfile Hcheck).
        eexists [], _. split_and!; done.
      * destruct (file_exists_differs dbx path target content h st2)
          as (st1 & Hcheck & Hcalls & Hheap); [done | done | done |].
        destruct (files_delete_reply dbx _ target) as [[] | e].
        -- rewrite (process_snapshot_after_check _ _ _ _ _ false st1 Hfile Hcheck).
           by apply (Hupload st1 [FilesDelete target]).
        -- rewrite (process_snapshot_check_raises _ _ _ _ _ e st1 Hfile Hcheck).
           eexists [FilesDelete target], _. split_and!; done.
    + rewrite (process_snapshot_check_raises _ _ _ _ _ (read_error fs path)
                 (add_call (FilesGetMetadata target) st2) Hfile).
      * eexists [], _. split_and!; done.
      * apply (file_exists_unverifiable _ _ _ h); [done |].
        intros content Hc. unfold path in Hc. congruence.
  - rewrite (process_snapshot_after_check _ _ _ _ _ false _ Hfile
               (file_exists_absent dbx path target e st2 Hreply)).
    by apply (Hupload _ []).
Qed.

Lemma process_snapshot_uploads dir dbx s content st st1 pre :
  0 < chunk_size → uploads_succeed dbx →
  fs !! local_path path_join s = Some (Readable content) →
  file_exists sha256 chunk_size fs dbx (local_path path_join s)
    (dropbox_path path_join dir s) (entering_try (dropbox_path path_join dir s) s st)
  = (Returns false, st1) →
  calls st1 = calls st ++ pre →
  ∃ up st',
    process_snapshot sha256 path_join chunk_size fs dir dbx s st = (Returns tt, st') ∧
    calls st' = calls st ++ pre ++ up ∧
    one_upload content (dropbox_path path_join dir s) up.
Proof.
  intros Hchunk Hok Hfile Hcheck Hpre.
  rewrite (process_snapshot_after_check _ _ _ _ _ false st1 Hfile Hcheck).
  destruct (upload_file_ok dbx (local_path path_join s) (dropbox_path path_join dir s)
              content st1 Hchunk Hok Hfile) as (up & st' & Hrun & Hcalls & Hup & _).
  exists up, st'. split_and!; [by apply try_except_returns | | done].
  by rewrite Hcalls, Hpre, <- app_assoc.
Qed.

(** C1. For every snapshot whose local file can be read, in a run where
    the delete and the upload calls do not fail, [process_snapshot]
    returns and follows the decision table.  The remote object exists and
    its stored hash is the hash of the local file: the metadata fetch is
    the only call, there is no delete and no upload.  It exists with
    another hash: after the fetch, exactly one delete, of the destination
    path, and then one upload of the local file to that path.  It does not
    exist (the fetch raised): after the fetch, one upload, no delete. *)
Theorem process_snapshot_decision_table dir dbx s content st :
  0 < chunk_size → uploads_succeed dbx → deletes_succeed dbx →
  fs !! local_path path_join s = Some (Readable content) →
  ∃ st',
    process_snapshot sha256 path_join chunk_size fs dir dbx s st = (Returns tt, st') ∧
    match files_get_metadata_reply dbx (calls st) (dropbox_path path_join dir s) with
    | Value remote_hash =>
        if decide (remote_hash = content_hash sha256 chunk_size content) then
          calls st' = calls st ++ [FilesGetMetadata (dropbox_path path_join dir s)]
        else
          ∃ up,
            calls st' = calls st
              ++ FilesGetMetadata (dropbox_path path_join dir s)
              :: FilesDelete (dropbox_path path_join dir s) :: up ∧
            one_upload content (dropbox_path path_join dir s) up
    | Error _ =>
        ∃ up,
          calls st' = calls st
            ++ FilesGetMetadata (dropbox_path path_join dir s) :: up ∧
          one_upload content (dropbox_path path_join dir s) up
    end.
Proof.
  intros Hchunk Hok Hdel Hfile.
  set (path := local_path path_join s). set (target := dropbox_path path_join dir s).
  set (st2 := entering_try target s st).
  change (calls st) with (calls st2) at 1.
  destruct (files_get_metadata_reply dbx (calls st2) target) as [h | e] eqn:Hreply.
  - destruct (decide (h = content_hash sha256 chunk_size content)) as [-> | Hne].
    + destruct (file_exists_same dbx path target content st2)
        as (st1 & Hcheck & Hcalls & Hheap); [done | done |].
      rewrite (process_snapshot_after_check _ _ _ _ _ true st1 Hfile Hcheck).
      by eexists.
    + destruct (file_exists_differs dbx path target content h st2)
        as (st1 & Hcheck & Hcalls & Hheap); [done | done | done |].
      rewrite Hdel in Hcheck.
      destruct (process_snapshot_uploads dir dbx s content st st1
                  [FilesGetMetadata target; FilesDelete target])
        as (up & st' & Hrun & Hcalls' & Hup); [done .. |].
      exists st'. split; [done |]. by exists up.
  - destruct (process_snapshot_uploads dir dbx s content st
                (add_log INFO "No existing snapshot in dropox with this name"
                   (add_call (FilesGetMetadata target) st2))
                [FilesGetMetadata target])
      as (up & st' & Hrun & Hcalls' & Hup);
      [done | done | done | by apply (file_exists_absent _ _ _ e) | done |].
    exists st'. split; [done |]. by exists up.
Qed.

(** C9. For every exception the metadata fetch raises, whatever its
    kind, [file_exists] returns [False] after that one call: nothing is
    hashed and nothing is deleted.  [process_snapshot] then runs
    [upload_file] on the local file, and where the file can be read and
    the upload calls do not fail, the whole file is uploaded. *)
Theorem metadata_error_means_absent dir dbx s f e st :
  fs !! local_path path_join s = Some f →
  files_get_metadata_reply dbx (calls st) (dropbox_path path_join dir s) = Error e →
  file_exists sha256 chunk_size fs dbx (local_path path_join s)
    (dropbox_path path_join dir s) st
  = (Returns false,
     add_log INFO "No existing snapshot in dropox with this name"
       (add_call (FilesGetMetadata (dropbox_path path_join dir s)) st)) ∧
  process_snapshot sha256 path_join chunk_size fs dir dbx s st
  = try_except
      (upload_file chunk_size fs dbx (local_path path_join s)
         (dropbox_path path_join dir s))
      (fun _ => log ERROR "Upload failed")
      (add_log INFO "No existing snapshot in dropox with this name"
         (add_call (FilesGetMetadata (dropbox_path path_join dir s))
            (entering_try (dropbox_path path_join dir s) s st))) ∧
  (∀ content,
      f = Readable content → 0 < chunk_size → uploads_succeed dbx →
      ∃ up st',
        process_snapshot sha256 path_join chunk_size fs dir dbx s st
        = (Returns tt, st') ∧
        calls st' = calls st
          ++ FilesGetMetadata (dropbox_path path_join dir s) :: up ∧
        one_upload content (dropbox_path path_join dir s) up).
Proof.
  intros Hfile Hreply. split_and!.
  - by apply (file_exists_absent _ _ _ e).
  - by apply (process_snapshot_after_check _ _ _ f _ false),
      (file_exists_absent _ _ _ e).
  - intros content -> Hchunk Hok.
    apply (process_snapshot_uploads dir dbx s content st
             (add_log INFO "No existing snapshot in dropox with this name"
                (add_call (FilesGetMetadata (dropbox_path path_join dir s))
                   (entering_try (dropbox_path path_join dir s) s st)))
             [FilesGetMetadata (dropbox_path path_join dir s)]);
      [done | done | done | by apply (file_exists_absent _ _ _ e) | done].
Qed.

(** C8, as amended.  For every snapshot whose remote object exists but
    whose local file is missing or cannot be opened, the read error leaves
    [compute_dropbox_hash] and leaves [file_exists], which has fetched the
    metadata and deletes nothing.  The snapshot is not uploaded: when the
    file cannot be opened, [process_snapshot] logs [Upload failed] and returns,
    the metadata fetch being its only call; when the file is missing,
    [process_snapshot] issues no call at all. *)
Theorem unreadable_file_not_uploaded dir dbx s remote_hash st :
  files_get_metadata_reply dbx (calls st) (dropbox_path path_join dir s)
  = Value remote_hash →
  (∀ content, fs !! local_path path_join s ≠ Some (Readable content)) →
  compute_dropbox_hash sha256 chunk_size fs (local_path path_join s) st
  = (Raises (read_error fs (local_path path_join s)), st) ∧
  file_exists sha256 chunk_size fs dbx (local_path path_join s)
    (dropbox_path path_join dir s) st
  = (Raises (read_error fs (local_path path_join s)),
     add_call (FilesGetMetadata (dropbox_path path_join dir s)) st) ∧
  match fs !! local_path path_join s with
  | Some _ =>
      process_snapshot sha256 path_join chunk_size fs dir dbx s st
      = (Returns tt,
         add_log ERROR "Upload failed"
           (add_call (FilesGetMetadata (dropbox_path path_join dir s))
              (entering_try (dropbox_path path_join dir s) s st)))
  | None =>
      calls (process_snapshot sha256 path_join chunk_size fs dir dbx s st).2
      = calls st
  end.
Proof.
  intros Hreply Hfile. split_and!.
  - unfold read_error.
    destruct (compute_dropbox_hash_unreadable (local_path path_join s) st)
      as [[-> ->] | [(size & -> & ->) | [content Hc]]]; [done | done |].
    by destruct (Hfile content).
  - by apply (file_exists_unverifiable _ _ _ remote_hash).
  - destruct (fs !! local_path path_join s) as [f |] eqn:Hf.
    + apply (process_snapshot_check_raises _ _ _ f _
               (read_error fs (local_path path_join s))
               (add_call (FilesGetMetadata (dropbox_path path_join dir s))
                  (entering_try (dropbox_path path_join dir s) s st)) Hf).
      apply (file_exists_unverifiable _ _ _ remote_hash); [done |].
      intros content Hc. apply (Hfile content). congruence.
    + by rewrite process_snapshot_missing.
Qed.

(** ** Sorting by date *)

Lemma insert_by_date_perm x l : insert_by_date x l ≡ₚ x :: l.
Proof.
  induction l as [| y l IH]; simpl; [done |].
  destruct (date x <=? date y)%Z; [done |].
  rewrite IH. apply Permutation_swap.
Qed.

Lemma sort_by_date_perm l : sort_by_date l ≡ₚ l.
Proof.
  induction l as [| x l IH]; simpl; [done |].
  by rewrite insert_by_date_perm, IH.
Qed.

Lemma insert_by_date_sorted x l :
  StronglySorted not_newer l → StronglySorted not_newer (insert_by_date x l).
Proof.
  induction 1 as [| y l Hl IH Hy]; simpl; [repeat constructor |].
  destruct (date x <=? date y)%Z eqn:Hxy.
  - apply Z.leb_le in Hxy. constructor; [by constructor |].
    constructor; [done |]. eapply Forall_impl; [exact Hy |].
    unfold not_newer. intros z Hz. lia.
  - apply Z.leb_gt in Hxy. constructor; [done |].
    rewrite insert_by_date_perm. constructor; [unfold not_newer; lia | done].
Qed.

Lemma sort_by_date_sorted l : StronglySorted not_newer (sort_by_date l).
Proof.
  induction l as [| x l IH]; simpl; [constructor |].
  by apply insert_by_date_sorted.
Qed.

Lemma StronglySorted_reverse {A} (R : relation A) (l : list A) :
  StronglySorted R l → StronglySorted (flip R) (reverse l).
Proof.
  induction 1 as [| x l Hl IH Hx]; [constructor |].
  rewrite reverse_cons. apply StronglySorted_app_2; [| done | repeat constructor].
  intros y z Hy Hz. apply list_elem_of_singleton in Hz as ->.
  rewrite elem_of_reverse in Hy. unfold flip.
  rewrite Forall_forall in Hx. by apply Hx.
Qed.

Lemma newest_first_sorted l : newest_first (reverse (sort_by_date l)).
Proof. apply StronglySorted_reverse, sort_by_date_sorted. Qed.

Lemma sorted_perm l : reverse (sort_by_date l) ≡ₚ l.
Proof. by rewrite reverse_Permutation, sort_by_date_perm. Qed.

(** ** Retention *)

Lemma deref_lookup l xs st :
  heap st !! l = Some xs → deref l st = (Returns xs, st).
Proof. intros H. unfold deref. by rewrite H. Qed.

Lemma update_list_lookup l f xs st :
  heap st !! l = Some xs → update_list l f st = (Returns tt, set_list l (f xs) st).
Proof. intros H. unfold update_list. by rewrite H. Qed.

Lemma delete_expired_ok dbx dir s st :
  removals_succeed hassio → deletes_succeed dbx →
  ∃ st',
    delete_expired path_join hassio dbx dir s st = (Returns tt, st') ∧
    calls st' = calls st ++ deletion_calls path_join dir s ∧
    heap st' = heap st.
Proof.
  intros Hremove Hdelete.
  unfold delete_expired, hassio_post, files_delete, bind, log, perform.
  rewrite Hremove. simpl. rewrite Hdelete. simpl.
  eexists. split; [done |]. simpl. by rewrite <- app_assoc.
Qed.

Lemma for_each_delete_ok dbx dir xs st :
  removals_succeed hassio → deletes_succeed dbx →
  ∃ st',
    for_each xs (delete_expired path_join hassio dbx dir) st = (Returns tt, st') ∧
    calls st' = calls st ++ (xs ≫= deletion_calls path_join dir) ∧
    heap st' = heap st.
Proof.
  intros Hremove Hdelete. revert st.
  induction xs as [| x xs IH]; intros st; cbn [for_each].
  - exists st. by rewrite app_nil_r.
  - rewrite bind_cons.
    destruct (delete_expired_ok dbx dir x st Hremove Hdelete)
      as (st1 & Hrun & Hcalls & Hheap).
    destruct (IH st1) as (st' & Hrun' & Hcalls' & Hheap').
    exists st'. erewrite bind_returns by exact Hrun.
    split_and!; [done | | congruence].
    by rewrite Hcalls', Hcalls, <- app_assoc.
Qed.

Lemma delete_expired_any dbx dir s st :
  ∃ cs,
    calls (delete_expired path_join hassio dbx dir s st).2 = calls st ++ cs ∧
    heap (delete_expired path_join hassio dbx dir s st).2 = heap st ∧
    (((delete_expired path_join hassio dbx dir s st).1 = Returns tt
      ∧ cs = deletion_calls path_join dir s)
     ∨ ((∃ e, (delete_expired path_join hassio dbx dir s st).1 = Raises e)
        ∧ cs `prefix_of` deletion_calls path_join dir s)).
Proof.
  unfold delete_expired, hassio_post, files_delete, bind, log, perform.
  destruct (hassio _ _) as [[] | e]; simpl.
  - destruct (files_delete_reply dbx _ _) as [[] | e]; simpl;
      eexists [_; _]; rewrite <- app_assoc; (split_and!; [done | done |]).
    + by left.
    + right. split; [by eexists | done].
  - eexists [_]. split_and!; [done | done |]. right. split; [by eexists |].
    apply prefix_cons, prefix_nil.
Qed.

(** Whatever the collaborators answer, the loop asks for the deletions of
    the expired snapshots in order, up to the first call that fails, and
    leaves the list objects alone. *)
Lemma for_each_delete_any dbx dir xs st :
  ∃ cs,
    calls (for_each xs (delete_expired path_join hassio dbx dir) st).2
    = calls st ++ cs ∧
    cs `prefix_of` (xs ≫= deletion_calls path_join dir) ∧
    heap (for_each xs (delete_expired path_join hassio dbx dir) st).2 = heap st.
Proof.
  revert st. induction xs as [| x xs IH]; intros st; cbn [for_each].
  - exists []. by rewrite app_nil_r.
  - unfold bind. rewrite bind_cons.
    destruct (delete_expired_any dbx dir x st)
      as (cs & Hcalls & Hheap & [[Hret ->] | [[e Hraise] Hprefix]]);
      destruct (delete_expired path_join hassio dbx dir x st) as [[[] | e' |] st1];
      cbn [fst snd] in *; try done.
    + destruct (IH st1) as (cs' & Hcalls' & Hprefix' & Hheap').
      exists (deletion_calls path_join dir x ++ cs').
      split_and!; [by rewrite Hcalls', Hcalls, <- app_assoc | by apply prefix_app |].
      congruence.
    + exists cs. split_and!; [done | | done].
      by apply prefix_app_r.
Qed.

Lemma limit_snapshots_sorts dbx cfg l snaps n st :
  heap st !! l = Some snaps → keep cfg = Some n → n ≠ 0%Z →
  (n < Z.of_nat (length snaps))%Z →
  ∃ st1,
    calls st1 = calls st ∧
    heap st1 = <[l := reverse (sort_by_date snaps)]> (heap st) ∧
    limit_snapshots path_join hassio dbx cfg l st
    = for_each (slice_from n (reverse (sort_by_date snaps)))
        (delete_expired path_join hassio dbx (dropbox_dir cfg)) st1.
Proof.
  intros Hheap Hkeep Hn Hlen. unfold limit_snapshots. rewrite Hkeep.
  cbn [truthy from_option id]. apply Z.eqb_neq in Hn. rewrite Hn. cbn [negb].
  apply Z.leb_gt in Hlen.
  erewrite bind_returns by (by apply deref_lookup).
  rewrite Hlen.
  erewrite bind_returns by done.
  erewrite bind_returns by (by apply update_list_lookup).
  erewrite bind_returns
    by (apply update_list_lookup; cbn [set_list heap]; apply lookup_insert_eq).
  erewrite bind_returns
    by (apply deref_lookup; cbn [set_list heap]; apply lookup_insert_eq).
  erewrite bind_returns by done.
  eexists. split_and!; [| | done]; [done |].
  cbn [set_list add_log heap]. apply insert_insert_eq.
Qed.

(** C3. For every list of [M] snapshots and every configured [keep = N]
    with [0 < N < M], in a run where the supervisor and the Dropbox delete
    do not fail, [limit_snapshots] returns after asking, for each of the
    snapshots past the first [N] of the list sorted newest first, and for
    no other, the supervisor to remove it by slug and then Dropbox to
    delete its derived path.  Those expired snapshots are [M - N] in
    number, they and the [N] kept ones together are the snapshots of the
    list, and none of them is newer than any kept one; when slugs are
    unique, no kept snapshot shares a slug with an expired one. *)
Theorem limit_snapshots_deletes_oldest dbx cfg l snaps n st :
  heap st !! l = Some snaps →
  keep cfg = Some n →
  (0 < n < Z.of_nat (length snaps))%Z →
  removals_succeed hassio → deletes_succeed dbx →
  ∃ kept expired st',
    kept = take (Z.to_nat n) (reverse (sort_by_date snaps)) ∧
    expired = drop (Z.to_nat n) (reverse (sort_by_date snaps)) ∧
    limit_snapshots path_join hassio dbx cfg l st = (Returns tt, st') ∧
    calls st' = calls st ++ (expired ≫= deletion_calls path_join (dropbox_dir cfg)) ∧
    length expired = length snaps - Z.to_nat n ∧
    length kept = Z.to_nat n ∧
    kept ++ expired ≡ₚ snaps ∧
    (∀ k e, k ∈ kept → e ∈ expired → (date e ≤ date k)%Z) ∧
    (NoDup (slug <$> snaps) → ∀ k, k ∈ kept → slug k ∉ slug <$> expired).
Proof.
  intros Hheap Hkeep [Hpos Hlen] Hremove Hdelete.
  destruct (limit_snapshots_sorts dbx cfg l snaps n st)
    as (st1 & Hcalls1 & Hheap1 & Hrun); [done | done | lia | done |].
  assert (slice_from n (reverse (sort_by_date snaps))
          = drop (Z.to_nat n) (reverse (sort_by_date snaps))) as Hslice.
  { unfold slice_from. by assert ((n <? 0)%Z = false) as -> by lia. }
  rewrite Hslice in Hrun.
  destruct (for_each_delete_ok dbx (dropbox_dir cfg)
              (drop (Z.to_nat n) (reverse (sort_by_date snaps))) st1 Hremove Hdelete)
    as (st' & Hrun' & Hcalls' & _).
  assert (length (reverse (sort_by_date snaps)) = length snaps) as Hsorted_len
    by (by rewrite (sorted_perm snaps)).
  exists (take (Z.to_nat n) (reverse (sort_by_date snaps))),
    (drop (Z.to_nat n) (reverse (sort_by_date snaps))), st'.
  split; [done |]. split; [done |]. split; [congruence |]. split; [congruence |].
  split; [rewrite length_drop; lia |]. split; [rewrite length_take; lia |].
  split; [rewrite take_drop; apply sorted_perm |]. split.
  - intros k e Hk He.
    pose proof (newest_first_sorted snaps) as Hsorted.
    rewrite <- (take_drop (Z.to_nat n) (reverse (sort_by_date snaps))) in Hsorted.
    apply (StronglySorted_app_1_elem_of _ _ _ k e Hsorted Hk He).
  - intros Hnodup k Hk.
    assert (NoDup (slug <$> take (Z.to_nat n) (reverse (sort_by_date snaps))
                   ++ drop (Z.to_nat n) (reverse (sort_by_date snaps)))) as Hsplit.
    { by rewrite take_drop, (sorted_perm snaps). }
    rewrite fmap_app in Hsplit. apply NoDup_app in Hsplit as (_ & Hdisjoint & _).
    apply Hdisjoint. by apply list_elem_of_fmap_2.
Qed.

(** C10. For every list longer than a configured non-zero [keep],
    [limit_snapshots] sorts the list object it was handed in place (by
    date ascending, then reversed), before it selects the expired
    entries: whatever the collaborators answer, after the call that same
    list object holds the same snapshots newest first, the calls issued
    are deletions taken in order from the part of the sorted list past
    [keep], and no other list object has changed. *)
Theorem limit_snapshots_sorts_in_place dbx cfg l snaps n st :
  heap st !! l = Some snaps →
  keep cfg = Some n → n ≠ 0%Z →
  (n < Z.of_nat (length snaps))%Z →
  heap (limit_snapshots path_join hassio dbx cfg l st).2 !! l
  = Some (reverse (sort_by_date snaps)) ∧
  reverse (sort_by_date snaps) ≡ₚ snaps ∧
  newest_first (reverse (sort_by_date snaps)) ∧
  (∀ l', l' ≠ l →
         heap (limit_snapshots path_join hassio dbx cfg l st).2 !! l'
         = heap st !! l') ∧
  ∃ cs,
    calls (limit_snapshots path_join hassio dbx cfg l st).2 = calls st ++ cs ∧
    cs `prefix_of`
      (slice_from n (reverse (sort_by_date snaps))
       ≫= deletion_calls path_join (dropbox_dir cfg)).
Proof.
  intros Hheap Hkeep Hn Hlen.
  destruct (limit_snapshots_sorts dbx cfg l snaps n st)
    as (st1 & Hcalls1 & Hheap1 & ->); [done .. |].
  destruct (for_each_delete_any dbx (dropbox_dir cfg)
              (slice_from n (reverse (sort_by_date snaps))) st1)
    as (cs & Hcalls & Hprefix & Hheap').
  rewrite Hheap', Hheap1, Hcalls, Hcalls1.
  split_and!.
  - apply lookup_insert_eq.
  - apply sorted_perm.
  - apply newest_first_sorted.
  - intros l' Hl'. by apply lookup_insert_ne.
  - by exists cs.
Qed.

(** ** The batch *)

Lemma backup_batch_subseteq cfg snaps : backup_batch cfg snaps ⊆ snaps.
Proof.
  unfold backup_batch, slice_to.
  destruct (truthy (keep cfg) && _); [| done].
  destruct (_ <? 0)%Z; apply subseteq_take.
Qed.

Lemma for_each_process dir dbx (msg : nat → snapshot → string) xs st :
  0 < chunk_size →
  (∀ s, s ∈ xs.*2 → is_Some (fs !! local_path path_join s)) →
  ∃ cs st',
    for_each xs (fun '(i, s) =>
      log INFO (msg i s) ;;
      process_snapshot sha256 path_join chunk_size fs dir dbx s) st
    = (Returns tt, st') ∧
    calls st' = calls st ++ cs ∧
    metadata_fetches cs = dropbox_path path_join dir <$> xs.*2 ∧
    heap st' = heap st.
Proof.
  intros Hchunk. revert st.
  induction xs as [| [i x] xs IH]; intros st Hfiles; cbn [for_each].
  - exists [], st. by rewrite app_nil_r.
  - destruct (Hfiles x) as [f Hf]; [by left |].
    destruct (process_snapshot_returns dir dbx x f
                (add_log INFO (msg i x) st) Hchunk Hf)
      as (rest & st1 & Hrun & Hcalls & Hrest & Hheap).
    destruct (IH st1) as (cs & st' & Hrun' & Hcalls' & Hcs & Hheap');
      [intros s Hs; apply Hfiles; by right |].
    exists (FilesGetMetadata (dropbox_path path_join dir x) :: rest ++ cs), st'.
    split_and!.
    + erewrite bind_returns; [exact Hrun' |].
      erewrite bind_returns by done. exact Hrun.
    + rewrite Hcalls', Hcalls. cbn [add_log calls].
      by rewrite <- app_assoc.
    + by rewrite metadata_fetches_cons, metadata_fetches_app, Hrest, Hcs.
    + by rewrite Hheap', Hheap.
Qed.

Lemma backup_returns dbx cfg l snaps st :
  0 < chunk_size →
  heap st !! l = Some snaps →
  (∀ s, s ∈ snaps → is_Some (fs !! local_path path_join s)) →
  ∃ cs st',
    backup sha256 path_join chunk_size fs dbx cfg l st = (Returns tt, st') ∧
    calls st' = calls st ++ cs ∧
    metadata_fetches cs
    = dropbox_path path_join (dropbox_dir cfg) <$> backup_batch cfg snaps.
Proof.
  intros Hchunk Hheap Hfiles. unfold backup.
  erewrite bind_returns by (by apply deref_lookup).
  erewrite bind_returns by done. erewrite bind_returns by done.
  destruct snaps as [| s0 snaps'] eqn:Hsnaps.
  - exists [], (add_log WARNING "No snapshots found to backup"
                 (add_log INFO ("Backing up to Dropbox directory: " +:+ dropbox_dir cfg)
                    (add_log INFO ("Backing up " +:+ pretty (length (@nil snapshot))
                                   +:+ " snapshots") st))).
    split_and!; [done | by rewrite app_nil_r |].
    unfold backup_batch, slice_to. destruct (truthy _ && _); [| done].
    by destruct (_ <? 0)%Z; rewrite take_nil.
  - rewrite <- Hsnaps in *.
    assert (∀ st0, ∃ st1,
      (if truthy (keep cfg) && (default 0 (keep cfg) <? Z.of_nat (length snaps))%Z
       then log INFO ("Only backing up the first "
                      +:+ pretty (default 0%Z (keep cfg)) +:+ " snapshots")
       else ret tt) st0 = (Returns tt, st1) ∧ calls st1 = calls st0) as Hnote.
    { intros st0. destruct (truthy _ && _); by eexists. }
    match goal with |- context [bind _ _ ?st0] =>
      destruct (Hnote st0) as (st1 & Hlog & Hcalls1) end.
    erewrite bind_returns by exact Hlog.
    destruct (for_each_process (dropbox_dir cfg) dbx
                (λ i s, "Snapshot: " +:+ name s +:+ " (" +:+ pretty i +:+ "/"
                        +:+ pretty (length (backup_batch cfg snaps)) +:+ ")")
                (enumerate 1 (backup_batch cfg snaps)) st1)
      as (cs & st' & Hrun & Hcalls & Hcs & _); [done | |].
    + intros s Hs. unfold enumerate in Hs.
      rewrite snd_zip in Hs by (by rewrite length_seq).
      by apply Hfiles, (backup_batch_subseteq cfg snaps).
    + exists cs, st'. split_and!; [by rewrite Hsnaps in * | |].
      * by rewrite Hcalls, Hcalls1.
      * rewrite Hcs. unfold enumerate.
        by rewrite snd_zip by (by rewrite length_seq).
Qed.

(** X20. What the [try] of [process_snapshot] does isolate: for every
    snapshot whose local file exists, [process_snapshot] does not raise,
    whatever the client answers: an error arising under its [try] (in the
    existence check, the hash, the delete or the upload) is logged as
    [Upload failed] and goes no further.  So in a batch whose local files
    all exist, no failure stops the loop of [backup]: it returns after
    fetching the metadata of every snapshot of the batch, in order. *)
Theorem process_snapshot_swallows_errors dbx cfg l snaps st :
  0 < chunk_size →
  heap st !! l = Some snaps →
  (∀ s, s ∈ snaps → is_Some (fs !! local_path path_join s)) →
  (∀ s st0,
      s ∈ snaps →
      ∃ st',
        process_snapshot sha256 path_join chunk_size fs (dropbox_dir cfg) dbx s st0
        = (Returns tt, st') ∧
        ∀ e st1,
          process_snapshot_try sha256 chunk_size fs dbx (local_path path_join s)
            (dropbox_path path_join (dropbox_dir cfg) s)
            (entering_try (dropbox_path path_join (dropbox_dir cfg) s) s st0)
          = (Raises e, st1) →
          st' = add_log ERROR "Upload failed" st1) ∧
  ∃ cs st',
    backup sha256 path_join chunk_size fs dbx cfg l st = (Returns tt, st') ∧
    calls st' = calls st ++ cs ∧
    metadata_fetches cs
    = dropbox_path path_join (dropbox_dir cfg) <$> backup_batch cfg snaps.
Proof.
  intros Hchunk Hheap Hfiles. split; [| by apply backup_returns].
  intros s st0 Hs. destruct (Hfiles s Hs) as [f Hf].
  destruct (process_snapshot_returns (dropbox_dir cfg) dbx s f st0 Hchunk Hf)
    as (rest & st' & Hrun & _).
  exists st'. split; [done |]. intros e st1 Htry.
  rewrite (process_snapshot_enters _ _ _ f) in Hrun by done.
  erewrite try_except_raises in Hrun by exact Htry.
  unfold log in Hrun. congruence.
Qed.

End Facts.

(** The digest is a function of the content and the chunk size: the
    path, the rest of the file system and the calls made before play no
    part, and computing it changes nothing. *)
Lemma compute_dropbox_hash_deterministic sha256 chunk_size
    (fs fs' : gmap string file) path path' content st st' :
  fs !! path = Some (Readable content) →
  fs' !! path' = Some (Readable content) →
  (compute_dropbox_hash sha256 chunk_size fs path st).1
  = (compute_dropbox_hash sha256 chunk_size fs' path' st').1
  ∧ (compute_dropbox_hash sha256 chunk_size fs path st).2 = st.
Proof.
  intros Hfile Hfile'.
  by rewrite !(compute_dropbox_hash_spec _ _ _ _ content).
Qed.

(** * The deployed chunk size, and runs in the small world *)

Lemma CHUNK_SIZE_pos : 0 < CHUNK_SIZE.
Proof. unfold CHUNK_SIZE. lia. Qed.

Lemma client_uploads_succeed remote_hash : uploads_succeed (Sample.client remote_hash).
Proof. unfold uploads_succeed. split_and!; intros; simpl; eauto. Qed.

Lemma client_deletes_succeed remote_hash : deletes_succeed (Sample.client remote_hash).
Proof. by intros h p. Qed.

Lemma supervisor_removals_succeed : removals_succeed Sample.supervisor.
Proof. by intros h url. Qed.

(** The scenario of section 8, scaled down: ten bytes in chunks of four
    are sent as a start of four, an append of four and a finish of two. *)
Example upload_ten_bytes_by_four :
  upload_file 4 Sample.disk (Sample.client None) "/backup/aa11.tar"
    "/snapshots/aa11.tar" Sample.start
  = (Returns tt,
     {| calls :=
          [FilesUploadSessionStart ["a"; "b"; "c"; "d"]%byte;
           FilesUploadSessionAppend ["e"; "f"; "g"; "h"]%byte "session-1" 4;
           FilesUploadSessionFinish ["i"; "j"]%byte "session-1" 8
             "/snapshots/aa11.tar"];
        logs := [(INFO, "100 %")];
        heap := ∅ |}).
Proof. reflexivity. Qed.

(** More than two chunks and at most three: a start, one append and a
    finish. *)
Lemma upload_file_three_calls chunk_size fs dbx path dest content st :
  0 < chunk_size → uploads_succeed dbx →
  fs !! path = Some (Readable content) →
  2 * chunk_size < length content ≤ 3 * chunk_size →
  ∃ sid first second last st',
    upload_file chunk_size fs dbx path dest st = (Returns tt, st') ∧
    calls st' = calls st
      ++ [FilesUploadSessionStart first;
          FilesUploadSessionAppend second sid chunk_size;
          FilesUploadSessionFinish last sid (2 * chunk_size) dest] ∧
    first ++ second ++ last = content ∧
    length first = chunk_size ∧ length second = chunk_size ∧
    length last = length content - 2 * chunk_size.
Proof.
  intros Hchunk Hok Hfile Hsize.
  destruct (upload_file_attempt_chunked chunk_size fs dbx path dest content st
              Hchunk Hok Hfile)
    as (sid & chunks & last & st' & Hrun & Hcalls & Hchunks & Hlast & Hbytes & _);
    [lia |].
  pose proof (f_equal length Hbytes) as Hlen.
  rewrite !length_app, length_take, (length_concat_chunks chunk_size) in Hlen
    by done.
  assert (length chunks = 1) as Hone by nia.
  destruct chunks as [| second [| ? ?]]; try done.
  rewrite Forall_singleton in Hchunks.
  exists sid, (take chunk_size content), second, last, st'.
  split_and!.
  - by apply retry_loop_returns.
  - rewrite Hcalls. unfold session_appends. simpl.
    by rewrite !Nat.add_0_r.
  - simpl in Hbytes. by rewrite app_nil_r in Hbytes.
  - rewrite length_take. lia.
  - exact Hchunks.
  - simpl in Hlen. lia.
Qed.

(** The same scenario at its real size: with [CHUNK_SIZE], any file of
    10 MiB goes out as a start of 4 MiB, one append of 4 MiB at offset
    4 MiB and a finish of 2 MiB at offset 8 MiB. *)
Lemma upload_ten_mebibytes fs dbx path dest content st :
  uploads_succeed dbx →
  fs !! path = Some (Readable content) →
  length content = 10 * 1024 * 1024 →
  ∃ sid first second last st',
    upload_file CHUNK_SIZE fs dbx path dest st = (Returns tt, st') ∧
    calls st' = calls st
      ++ [FilesUploadSessionStart first;
          FilesUploadSessionAppend second sid CHUNK_SIZE;
          FilesUploadSessionFinish last sid (2 * CHUNK_SIZE) dest] ∧
    first ++ second ++ last = content ∧
    length first = CHUNK_SIZE ∧ length second = CHUNK_SIZE ∧
    length last = 2 * 1024 * 1024.
Proof.
  intros Hok Hfile Hsize.
  assert (2 * CHUNK_SIZE < length content ≤ 3 * CHUNK_SIZE) as Hrange
    by (rewrite Hsize; unfold CHUNK_SIZE; lia).
  assert (length content - 2 * CHUNK_SIZE = 2 * 1024 * 1024) as Hrest
    by (rewrite Hsize; unfold CHUNK_SIZE; lia).
  rewrite <- Hrest.
  exact (upload_file_three_calls CHUNK_SIZE fs dbx path dest content st
           CHUNK_SIZE_pos Hok Hfile Hrange).
Qed.

(** A client whose single-shot upload fails three times: four attempts,
    each with the whole file, and the fourth succeeds.  When it keeps
    failing, the fourth error reaches the caller. *)
Example upload_file_fourth_attempt :
  (upload_file CHUNK_SIZE Sample.disk (Sample.flaky 3) "/backup/aa11.tar"
     "/snapshots/aa11.tar" Sample.start).1 = Returns tt
  ∧ calls (upload_file CHUNK_SIZE Sample.disk (Sample.flaky 3) "/backup/aa11.tar"
             "/snapshots/aa11.tar" Sample.start).2
    = replicate 4 (FilesUpload Sample.ten_bytes "/snapshots/aa11.tar")
  ∧ (upload_file CHUNK_SIZE Sample.disk (Sample.flaky 9) "/backup/aa11.tar"
       "/snapshots/aa11.tar" Sample.start).1
    = Raises (ApiError "too_many_write_operations")
  ∧ calls (upload_file CHUNK_SIZE Sample.disk (Sample.flaky 9) "/backup/aa11.tar"
             "/snapshots/aa11.tar" Sample.start).2
    = replicate 4 (FilesUpload Sample.ten_bytes "/snapshots/aa11.tar").
Proof. vm_compute. done. Qed.

(** A remote copy with another hash that cannot be deleted: the error of
    the delete is logged and the snapshot is not uploaded in this run. *)
Example failed_delete_skips_upload :
  (process_snapshot Sample.digest Sample.join CHUNK_SIZE Sample.disk "/snapshots"
     (Sample.undeletable "0a") Sample.day1 Sample.start).1 = Returns tt
  ∧ calls (process_snapshot Sample.digest Sample.join CHUNK_SIZE Sample.disk
             "/snapshots" (Sample.undeletable "0a") Sample.day1 Sample.start).2
    = [FilesGetMetadata "/snapshots/aa11.tar"; FilesDelete "/snapshots/aa11.tar"].
Proof. vm_compute. done. Qed.

(** The retention scenario of section 8: three snapshots of three days,
    [keep = 2].  The oldest one is removed on both sides, and the list
    object of the driver is left sorted newest first. *)
Example limit_three_snapshots_keep_two :
  (limit_snapshots Sample.join Sample.supervisor (Sample.client None)
     {| dropbox_dir := "/snapshots"; keep := Some 2%Z |} 0
     (Sample.listing [Sample.day2; Sample.day1; Sample.day3])).1 = Returns tt
  ∧ calls (limit_snapshots Sample.join Sample.supervisor (Sample.client None)
             {| dropbox_dir := "/snapshots"; keep := Some 2%Z |} 0
             (Sample.listing [Sample.day2; Sample.day1; Sample.day3])).2
    = [HassioPost "http://hassio/snapshots/aa11/remove";
       FilesDelete "/snapshots/aa11.tar"]
  ∧ heap (limit_snapshots Sample.join Sample.supervisor (Sample.client None)
            {| dropbox_dir := "/snapshots"; keep := Some 2%Z |} 0
            (Sample.listing [Sample.day2; Sample.day1; Sample.day3])).2 !! 0
    = Some [Sample.day3; Sample.day2; Sample.day1].
Proof. vm_compute. done. Qed.

(** [keep] unset or zero: nothing is deleted, nothing is reordered. *)
Lemma limit_snapshots_disabled path_join hassio dbx cfg l st :
  keep cfg = None ∨ keep cfg = Some 0%Z →
  (limit_snapshots path_join hassio dbx cfg l st).1 = Returns tt
  ∧ calls (limit_snapshots path_join hassio dbx cfg l st).2 = calls st
  ∧ heap (limit_snapshots path_join hassio dbx cfg l st).2 = heap st.
Proof. unfold limit_snapshots. by intros [-> | ->]. Qed.

(** * The claims at concrete inputs *)

(** The single-shot upload at the deployed chunk size: the ten bytes of
    [day1]. *)
Lemma upload_file_single_shot_witness :
  ∃ st',
    upload_file CHUNK_SIZE Sample.disk (Sample.client None) "/backup/aa11.tar"
      "/snapshots/aa11.tar" Sample.start = (Returns tt, st') ∧
    calls st' = calls Sample.start
      ++ [FilesUpload Sample.ten_bytes "/snapshots/aa11.tar"] ∧
    logs st' = logs Sample.start ∧ heap st' = heap Sample.start.
Proof.
  apply (upload_file_single_shot CHUNK_SIZE Sample.disk (Sample.client None)
           "/backup/aa11.tar" "/snapshots/aa11.tar" Sample.ten_bytes Sample.start).
  - vm_compute. reflexivity.
  - simpl. unfold CHUNK_SIZE. lia.
  - reflexivity.
Defined.

(** The chunked upload with chunks of four bytes: the ten bytes of
    [day1]. *)
Lemma upload_file_chunked_witness :
  ∃ sid chunks last st',
    upload_file 4 Sample.disk (Sample.client None) "/backup/aa11.tar"
      "/snapshots/aa11.tar" Sample.start = (Returns tt, st') ∧
    calls st' = calls Sample.start
      ++ FilesUploadSessionStart (take 4 Sample.ten_bytes)
      :: session_appends sid 4 4 chunks
      ++ [FilesUploadSessionFinish last sid (4 + length chunks * 4)
            "/snapshots/aa11.tar"] ∧
    Forall (λ d, length d = 4) chunks ∧
    0 < length last ≤ 4 ∧
    take 4 Sample.ten_bytes ++ concat chunks ++ last = Sample.ten_bytes ∧
    4 + length chunks * 4 + length last = length Sample.ten_bytes.
Proof.
  apply (upload_file_chunked 4 Sample.disk (Sample.client None)
           "/backup/aa11.tar" "/snapshots/aa11.tar" Sample.ten_bytes Sample.start).
  - lia.
  - apply client_uploads_succeed.
  - vm_compute. reflexivity.
  - simpl. lia.
Defined.


(** The decision table at the deployed chunk size: [day1], whose remote
    copy has another hash. *)
Lemma process_snapshot_decision_table_witness :
  ∃ st',
    process_snapshot Sample.digest Sample.join CHUNK_SIZE Sample.disk "/snapshots"
      (Sample.client (Some "0a")) Sample.day1 Sample.start = (Returns tt, st') ∧
    match files_get_metadata_reply (Sample.client (Some "0a")) (calls Sample.start)
            (dropbox_path Sample.join "/snapshots" Sample.day1) with
    | Value remote_hash =>
        if decide (remote_hash
                   = content_hash Sample.digest CHUNK_SIZE Sample.ten_bytes) then
          calls st' = calls Sample.start
            ++ [FilesGetMetadata (dropbox_path Sample.join "/snapshots" Sample.day1)]
        else
          ∃ up,
            calls st' = calls Sample.start
              ++ FilesGetMetadata (dropbox_path Sample.join "/snapshots" Sample.day1)
              :: FilesDelete (dropbox_path Sample.join "/snapshots" Sample.day1)
              :: up ∧
            one_upload Sample.ten_bytes
              (dropbox_path Sample.join "/snapshots" Sample.day1) up
    | Error _ =>
        ∃ up,
          calls st' = calls Sample.start
            ++ FilesGetMetadata (dropbox_path Sample.join "/snapshots" Sample.day1)
            :: up ∧
          one_upload Sample.ten_bytes
            (dropbox_path Sample.join "/snapshots" Sample.day1) up
    end.
Proof.
  apply (process_snapshot_decision_table Sample.digest Sample.join CHUNK_SIZE
           Sample.disk "/snapshots" (Sample.client (Some "0a")) Sample.day1
           Sample.ten_bytes Sample.start).
  - unfold CHUNK_SIZE. lia.
  - apply client_uploads_succeed.
  - apply client_deletes_succeed.
  - vm_compute. reflexivity.
Defined.

(** A failed metadata fetch at the deployed chunk size: [day1], with a
    client that finds nothing. *)
Lemma metadata_error_means_absent_witness :
  file_exists Sample.digest CHUNK_SIZE Sample.disk (Sample.client None)
    (local_path Sample.join Sample.day1)
    (dropbox_path Sample.join "/snapshots" Sample.day1) Sample.start
  = (Returns false,
     add_log INFO "No existing snapshot in dropox with this name"
       (add_call (FilesGetMetadata (dropbox_path Sample.join "/snapshots" Sample.day1))
          Sample.start)) ∧
  process_snapshot Sample.digest Sample.join CHUNK_SIZE Sample.disk "/snapshots"
    (Sample.client None) Sample.day1 Sample.start
  = try_except
      (upload_file CHUNK_SIZE Sample.disk (Sample.client None)
         (local_path Sample.join Sample.day1)
         (dropbox_path Sample.join "/snapshots" Sample.day1))
      (fun _ => log ERROR "Upload failed")
      (add_log INFO "No existing snapshot in dropox with this name"
         (add_call (FilesGetMetadata (dropbox_path Sample.join "/snapshots" Sample.day1))
            (entering_try (dropbox_path Sample.join "/snapshots" Sample.day1)
               Sample.day1 Sample.start))) ∧
  (∀ content,
      Readable Sample.ten_bytes = Readable content → 0 < CHUNK_SIZE →
      uploads_succeed (Sample.client None) →
      ∃ up st',
        process_snapshot Sample.digest Sample.join CHUNK_SIZE Sample.disk
          "/snapshots" (Sample.client None) Sample.day1 Sample.start
        = (Returns tt, st') ∧
        calls st' = calls Sample.start
          ++ FilesGetMetadata (dropbox_path Sample.join "/snapshots" Sample.day1)
          :: up ∧
        one_upload content (dropbox_path Sample.join "/snapshots" Sample.day1) up).
Proof.
  apply (metadata_error_means_absent Sample.digest Sample.join CHUNK_SIZE
           Sample.disk "/snapshots" (Sample.client None) Sample.day1
           (Readable Sample.ten_bytes) (ApiError "path/not_found") Sample.start).
  - vm_compute. reflexivity.
  - reflexivity.
Defined.

(** A snapshot that is not uploaded although it cannot be verified:
    [day2] has a remote copy and a local file that cannot be opened, and [process_snapshot] comes back
    having fetched the metadata and nothing else.  No upload call is
    issued: the file is not uploaded. *)
Lemma unreadable_snapshot_is_skipped :
  files_get_metadata_reply (Sample.client (Some "0a")) []
    "/snapshots/bb22.tar" = Value "0a"
  ∧ Sample.disk !! "/backup/bb22.tar" = Some (Unreadable 10)
  ∧ compute_dropbox_hash Sample.digest CHUNK_SIZE Sample.disk "/backup/bb22.tar"
      Sample.start
    = (Raises (PermissionError "/backup/bb22.tar"), Sample.start)
  ∧ (process_snapshot Sample.digest Sample.join CHUNK_SIZE Sample.disk "/snapshots"
       (Sample.client (Some "0a")) Sample.day2 Sample.start).1 = Returns tt
  ∧ calls (process_snapshot Sample.digest Sample.join CHUNK_SIZE Sample.disk
             "/snapshots" (Sample.client (Some "0a")) Sample.day2 Sample.start).2
    = [FilesGetMetadata "/snapshots/bb22.tar"]
  ∧ uploaded (calls (process_snapshot Sample.digest Sample.join CHUNK_SIZE
                       Sample.disk "/snapshots" (Sample.client (Some "0a"))
                       Sample.day2 Sample.start).2) = [].
Proof. vm_compute. done. Qed.

(** The unreadable file at the deployed chunk size: [day2]. *)
Lemma unreadable_file_not_uploaded_witness :
  compute_dropbox_hash Sample.digest CHUNK_SIZE Sample.disk
    (local_path Sample.join Sample.day2) Sample.start
  = (Raises (read_error Sample.disk (local_path Sample.join Sample.day2)),
     Sample.start) ∧
  file_exists Sample.digest CHUNK_SIZE Sample.disk (Sample.client (Some "0a"))
    (local_path Sample.join Sample.day2)
    (dropbox_path Sample.join "/snapshots" Sample.day2) Sample.start
  = (Raises (read_error Sample.disk (local_path Sample.join Sample.day2)),
     add_call (FilesGetMetadata (dropbox_path Sample.join "/snapshots" Sample.day2))
       Sample.start) ∧
  match Sample.disk !! local_path Sample.join Sample.day2 with
  | Some _ =>
      process_snapshot Sample.digest Sample.join CHUNK_SIZE Sample.disk
        "/snapshots" (Sample.client (Some "0a")) Sample.day2 Sample.start
      = (Returns tt,
         add_log ERROR "Upload failed"
           (add_call
              (FilesGetMetadata (dropbox_path Sample.join "/snapshots" Sample.day2))
              (entering_try (dropbox_path Sample.join "/snapshots" Sample.day2)
                 Sample.day2 Sample.start)))
  | None =>
      calls (process_snapshot Sample.digest Sample.join CHUNK_SIZE Sample.disk
               "/snapshots" (Sample.client (Some "0a")) Sample.day2 Sample.start).2
      = calls Sample.start
  end.
Proof.
  apply (unreadable_file_not_uploaded Sample.digest Sample.join CHUNK_SIZE
           Sample.disk "/snapshots" (Sample.client (Some "0a")) Sample.day2
           "0a" Sample.start).
  - reflexivity.
  - intros content Hcontent. vm_compute in Hcontent. discriminate Hcontent.
Defined.

(** C4, at the failing input.  The claim is that [process_snapshot]
    never raises, so that one snapshot's failure cannot stop the loop of
    [backup].  The local file of [day3] is missing: the size lookup, which
    stands before the [try] and only feeds a log line, raises, the error
    leaves [process_snapshot], and in the batch of [day3] and [day1] it
    leaves [backup] too, before [day1] is looked at and with no call
    issued. *)
Lemma process_snapshot_raises_on_missing_file :
  Sample.disk !! "/backup/cc33.tar" = None
  ∧ process_snapshot Sample.digest Sample.join CHUNK_SIZE Sample.disk "/snapshots"
      (Sample.client None) Sample.day3 Sample.start
    = (Raises (FileNotFoundError "/backup/cc33.tar"), Sample.start)
  ∧ (backup Sample.digest Sample.join CHUNK_SIZE Sample.disk (Sample.client None)
       {| dropbox_dir := "/snapshots"; keep := None |} 0
       (Sample.listing [Sample.day3; Sample.day1])).1
    = Raises (FileNotFoundError "/backup/cc33.tar")
  ∧ calls (backup Sample.digest Sample.join CHUNK_SIZE Sample.disk
             (Sample.client None)
             {| dropbox_dir := "/snapshots"; keep := None |} 0
             (Sample.listing [Sample.day3; Sample.day1])).2 = [].
Proof. vm_compute. done. Qed.

(** Swallowed errors at the deployed chunk size: a batch of [day1] and
    [day2], whose local files exist, with a client that cannot delete. *)
Lemma process_snapshot_swallows_errors_witness :
  (∀ s st0,
      s ∈ [Sample.day1; Sample.day2] →
      ∃ st',
        process_snapshot Sample.digest Sample.join CHUNK_SIZE Sample.disk
          "/snapshots" (Sample.undeletable "0a") s st0 = (Returns tt, st') ∧
        ∀ e st1,
          process_snapshot_try Sample.digest CHUNK_SIZE Sample.disk
            (Sample.undeletable "0a") (local_path Sample.join s)
            (dropbox_path Sample.join "/snapshots" s)
            (entering_try (dropbox_path Sample.join "/snapshots" s) s st0)
          = (Raises e, st1) →
          st' = add_log ERROR "Upload failed" st1) ∧
  ∃ cs st',
    backup Sample.digest Sample.join CHUNK_SIZE Sample.disk
      (Sample.undeletable "0a")
      {| dropbox_dir := "/snapshots"; keep := None |} 0
      (Sample.listing [Sample.day1; Sample.day2]) = (Returns tt, st') ∧
    calls st' = calls (Sample.listing [Sample.day1; Sample.day2]) ++ cs ∧
    metadata_fetches cs
    = dropbox_path Sample.join "/snapshots"
      <$> backup_batch {| dropbox_dir := "/snapshots"; keep := None |}
            [Sample.day1; Sample.day2].
Proof.
  apply (process_snapshot_swallows_errors Sample.digest Sample.join CHUNK_SIZE
           Sample.disk (Sample.undeletable "0a")
           {| dropbox_dir := "/snapshots"; keep := None |} 0
           [Sample.day1; Sample.day2]
           (Sample.listing [Sample.day1; Sample.day2])).
  - unfold CHUNK_SIZE. lia.
  - vm_compute. reflexivity.
  - intros s Hs. apply elem_of_cons in Hs as [Hs | Hs];
      [| apply list_elem_of_singleton in Hs]; rewrite Hs; vm_compute; eauto.
Defined.

(** Retention for the three days, two of which are kept. *)
Lemma limit_snapshots_deletes_oldest_witness :
  ∃ kept expired st',
    kept = take (Z.to_nat 2)
             (reverse (sort_by_date [Sample.day2; Sample.day1; Sample.day3])) ∧
    expired = drop (Z.to_nat 2)
                (reverse (sort_by_date [Sample.day2; Sample.day1; Sample.day3])) ∧
    limit_snapshots Sample.join Sample.supervisor (Sample.client None)
      {| dropbox_dir := "/snapshots"; keep := Some 2%Z |} 0
      (Sample.listing [Sample.day2; Sample.day1; Sample.day3])
    = (Returns tt, st') ∧
    calls st' = calls (Sample.listing [Sample.day2; Sample.day1; Sample.day3])
      ++ (expired ≫= deletion_calls Sample.join
                       (dropbox_dir {| dropbox_dir := "/snapshots";
                                       keep := Some 2%Z |})) ∧
    length expired = length [Sample.day2; Sample.day1; Sample.day3] - Z.to_nat 2 ∧
    length kept = Z.to_nat 2 ∧
    kept ++ expired ≡ₚ [Sample.day2; Sample.day1; Sample.day3] ∧
    (∀ k e, k ∈ kept → e ∈ expired → (date e ≤ date k)%Z) ∧
    (NoDup (slug <$> [Sample.day2; Sample.day1; Sample.day3]) →
     ∀ k, k ∈ kept → slug k ∉ slug <$> expired).
Proof.
  apply (limit_snapshots_deletes_oldest Sample.join Sample.supervisor
           (Sample.client None)
           {| dropbox_dir := "/snapshots"; keep := Some 2%Z |} 0
           [Sample.day2; Sample.day1; Sample.day3] 2%Z
           (Sample.listing [Sample.day2; Sample.day1; Sample.day3])).
  - vm_compute. reflexivity.
  - reflexivity.
  - simpl. lia.
  - apply supervisor_removals_succeed.
  - apply client_deletes_succeed.
Defined.

(** The in-place sort for the three days, with a client that cannot
    delete. *)
Lemma limit_snapshots_sorts_in_place_witness :
  heap (limit_snapshots Sample.join Sample.supervisor (Sample.undeletable "0a")
          {| dropbox_dir := "/snapshots"; keep := Some 2%Z |} 0
          (Sample.listing [Sample.day2; Sample.day1; Sample.day3])).2 !! 0
  = Some (reverse (sort_by_date [Sample.day2; Sample.day1; Sample.day3])) ∧
  reverse (sort_by_date [Sample.day2; Sample.day1; Sample.day3])
  ≡ₚ [Sample.day2; Sample.day1; Sample.day3] ∧
  newest_first (reverse (sort_by_date [Sample.day2; Sample.day1; Sample.day3])) ∧
  (∀ l', l' ≠ 0 →
         heap (limit_snapshots Sample.join Sample.supervisor
                 (Sample.undeletable "0a")
                 {| dropbox_dir := "/snapshots"; keep := Some 2%Z |} 0
                 (Sample.listing [Sample.day2; Sample.day1; Sample.day3])).2 !! l'
         = heap (Sample.listing [Sample.day2; Sample.day1; Sample.day3]) !! l') ∧
  ∃ cs,
    calls (limit_snapshots Sample.join Sample.supervisor (Sample.undeletable "0a")
             {| dropbox_dir := "/snapshots"; keep := Some 2%Z |} 0
             (Sample.listing [Sample.day2; Sample.day1; Sample.day3])).2
    = calls (Sample.listing [Sample.day2; Sample.day1; Sample.day3]) ++ cs ∧
    cs `prefix_of`
      (slice_from 2
         (reverse (sort_by_date [Sample.day2; Sample.day1; Sample.day3]))
       ≫= deletion_calls Sample.join
            (dropbox_dir {| dropbox_dir := "/snapshots"; keep := Some 2%Z |})).
Proof.
  apply (limit_snapshots_sorts_in_place Sample.join Sample.supervisor
           (Sample.undeletable "0a")
           {| dropbox_dir := "/snapshots"; keep := Some 2%Z |} 0
           [Sample.day2; Sample.day1; Sample.day3] 2%Z
           (Sample.listing [Sample.day2; Sample.day1; Sample.day3])).
  - vm_compute. reflexivity.
  - reflexivity.
  - lia.
  - simpl. lia.
Defined.

(** * More of the engine *)

Lemma sends_ret {A} P (a : A) : sends P (ret a).
Proof. intros st. split_and!; [done | done |]. exists []. by rewrite app_nil_r. Qed.

Lemma sends_raise {A} P e : sends P (raise e : M A).
Proof. intros st. split_and!; [done | done |]. exists []. by rewrite app_nil_r. Qed.

Lemma sends_try_except {A} P (m : M A) h :
  sends P m → (∀ e, sends P (h e)) → sends P (try_except m h).
Proof.
  intros Hm Hh st. destruct (Hm st) as (Hdiv & Hheap & cs & Hcs & HP).
  unfold try_except. destruct (m st) as [[a | e |] st1]; simpl in *; [| | done].
  - split_and!; [done | done |]. by exists cs.
  - destruct (Hh e st1) as (Hdiv' & Hheap' & cs' & Hcs' & HP').
    split_and!; [done | congruence |]. exists (cs ++ cs').
    rewrite Hcs', Hcs, <- app_assoc. split; [done | by apply Forall_app].
Qed.

Section Uploads.

Context (chunk_size : nat) (fs : gmap string file).

(** How the bytes past position [p] split into chunks and a rest. *)
Lemma rest_splits (content : bytes) (p : nat) :
  0 < chunk_size → p < length content →
  ∃ chunks last,
    Forall (λ d, length d = chunk_size) chunks ∧
    0 < length last ≤ chunk_size ∧
    concat chunks ++ last = drop p content.
Proof.
  intros Hchunk. remember (length content - p) as n eqn:Hn.
  revert p Hn. induction (lt_wf n) as [n _ IH]. intros p -> Hp.
  destruct (decide (length content - p ≤ chunk_size)) as [Hfits | Hmore].
  - exists [], (drop p content). rewrite length_drop. split_and!; [done | lia | lia | done].
  - destruct (IH (length content - (p + chunk_size)) ltac:(lia) (p + chunk_size))
      as (chunks & last & Hchunks & Hlast & Hbytes); [done | lia |].
    exists (take chunk_size (drop p content) :: chunks), last.
    split_and!; [| lia | lia |].
    + constructor; [| done]. rewrite length_take, length_drop. lia.
    + simpl. rewrite <- app_assoc, Hbytes, <- drop_drop. apply take_drop.
Qed.

(** Whatever the client answers, the loop issues the appends and the
    finish in order and stops at the first call that raises. *)
Lemma upload_session_loop_prefix dbx content sid dest fuel p st chunks last :
  0 < chunk_size →
  p < length content → length content - p ≤ fuel →
  Forall (λ d, length d = chunk_size) chunks →
  0 < length last ≤ chunk_size →
  concat chunks ++ last = drop p content →
  ∃ cs,
    calls (upload_session_loop chunk_size fuel dbx {| data := content; pos := p |}
             (length content) {| session_id := sid; offset := p |} dest st).2
    = calls st ++ cs ∧
    cs `prefix_of`
      (session_appends sid chunk_size p chunks
       ++ [FilesUploadSessionFinish last sid (p + length chunks * chunk_size) dest]) ∧
    stopped_by dbx (calls st) cs
      (session_appends sid chunk_size p chunks
       ++ [FilesUploadSessionFinish last sid (p + length chunks * chunk_size) dest])
      (upload_session_loop chunk_size fuel dbx {| data := content; pos := p |}
         (length content) {| session_id := sid; offset := p |} dest st).1.
Proof.
  intros Hchunk. revert p st chunks.
  induction fuel as [| fuel IH]; intros p st chunks Hp Hfuel Hchunks Hlast Hbytes;
    [lia |].
  pose proof (f_equal length Hbytes) as Hlen.
  rewrite length_app, (length_concat_chunks chunk_size), length_drop in Hlen by done.
  simpl. assert ((p <? length content) = true) as -> by (by apply Nat.ltb_lt).
  destruct (length content - p <=? chunk_size) eqn:Hrest.
  - apply Nat.leb_le in Hrest.
    assert (chunks = []) as -> by (destruct chunks; [done | simpl in Hlen; nia]).
    simpl in Hbytes. subst last.
    rewrite take_ge by (rewrite length_drop; lia).
    unfold files_upload_session_finish, perform, bind. simpl.
    rewrite Nat.add_0_r.
    destruct (files_upload_session_finish_reply dbx _ _ _ _ _) as [[] | e] eqn:Hreply;
      simpl.
    + rewrite upload_session_loop_done by (simpl; rewrite length_drop; lia).
      simpl. eexists. split_and!; [done | done | done |].
      split; [| done]. unfold failure. by rewrite Hreply.
    + eexists. split_and!; [done | done |].
      exists [], (FilesUploadSessionFinish (drop p content) sid p dest).
      split_and!; [done | done |]. rewrite app_nil_r. unfold failure.
      by rewrite Hreply.
  - apply Nat.leb_gt in Hrest.
    destruct chunks as [| d chunks]; [simpl in Hlen; lia |].
    rewrite !session_appends_cons.
    apply Forall_cons in Hchunks as [Hd Hchunks].
    assert (d = take chunk_size (drop p content)) as ->.
    { rewrite <- Hbytes. simpl. rewrite <- app_assoc.
      by rewrite take_app_length' by done. }
    assert (concat chunks ++ last = drop (p + chunk_size) content) as Hbytes'.
    { rewrite <- drop_drop, <- Hbytes. simpl. rewrite <- app_assoc.
      by rewrite drop_app_length' by done. }
    unfold files_upload_session_append, perform, bind, tell. simpl. rewrite Hd.
    destruct (files_upload_session_append_reply dbx _ _ _ _) as [[] | e] eqn:Hreply;
      simpl.
    + destruct (IH (p + chunk_size)
                  (add_call (FilesUploadSessionAppend
                               (take chunk_size (drop p content)) sid p) st) chunks)
        as (cs & Hcalls & Hprefix & Hresult); [lia | lia | done | done | done |].
      exists (FilesUploadSessionAppend (take chunk_size (drop p content)) sid p :: cs).
      rewrite Hcalls. simpl. rewrite <- app_assoc.
      rewrite !Nat.add_assoc.
      split_and!; [done | by apply prefix_cons |].
      cbn [add_call calls] in Hresult. unfold stopped_by in *.
      destruct (upload_session_loop _ _ _ _ _ _ _ _).1 as [[] | e |]; [| | done].
      * destruct Hresult as [-> Hsucceed]. split; [done |].
        split; [| done]. unfold failure. by rewrite Hreply.
      * destruct Hresult as (cs' & c & -> & Hsucceed & Hfailure).
        exists (FilesUploadSessionAppend (take chunk_size (drop p content)) sid p
                :: cs'), c.
        split_and!; [done | | by rewrite <- app_assoc in Hfailure].
        split; [| done]. unfold failure. by rewrite Hreply.
    + eexists [_]. split_and!; [done | |].
      * apply prefix_cons, prefix_nil.
      * exists [], (FilesUploadSessionAppend (take chunk_size (drop p content)) sid p).
        split_and!; [done | done |]. rewrite app_nil_r. unfold failure.
        by rewrite Hreply.
Qed.

Lemma commits_app cs1 cs2 : commits (cs1 ++ cs2) = commits cs1 ++ commits cs2.
Proof. apply omap_app. Qed.

Lemma session_calls_upload sid content chunks last dest :
  take chunk_size content ++ concat chunks ++ last = content →
  uploaded (session_calls sid chunk_size content chunks last dest) = content
  ∧ commits (session_calls sid chunk_size content chunks last dest) = [dest]
  ∧ commits (FilesUploadSessionStart (take chunk_size content)
             :: session_appends sid chunk_size chunk_size chunks) = [].
Proof.
  intros Hbytes. unfold session_calls.
  destruct (session_appends_upload sid chunk_size chunk_size chunks)
    as (_ & Hup & Hcommit).
  split_and!.
  - rewrite uploaded_cons, uploaded_app, Hup. simpl. by rewrite app_nil_r.
  - change (commits (FilesUploadSessionStart (take chunk_size content) :: ?l))
      with (commits l).
    by rewrite commits_app, Hcommit.
  - change (commits (FilesUploadSessionStart (take chunk_size content) :: ?l))
      with (commits l).
    done.
Qed.

Lemma prefix_snoc_cases {A} (cs l : list A) x :
  cs `prefix_of` l ++ [x] → cs `prefix_of` l ∨ cs = l ++ [x].
Proof.
  intros [k Hk]. destruct k as [| y k _] using rev_ind.
  - right. by rewrite app_nil_r in Hk.
  - left. rewrite app_assoc in Hk. apply app_inj_tail in Hk as [-> _].
    by exists k.
Qed.

Lemma uploaded_prefix cs full : cs `prefix_of` full → uploaded cs `prefix_of` uploaded full.
Proof. intros [k ->]. rewrite uploaded_app. by eexists. Qed.

Lemma commits_prefix_nil cs full : cs `prefix_of` full → commits full = [] → commits cs = [].
Proof.
  intros [k ->]. unfold commits. rewrite omap_app.
  by intros [? _]%app_eq_nil.
Qed.

Lemma stopped_by_cons {A} dbx h c cs full (r : outcome A) :
  failure dbx h c = None →
  stopped_by dbx (h ++ [c]) cs full r → stopped_by dbx h (c :: cs) (c :: full) r.
Proof.
  intros Hc. unfold stopped_by. destruct r as [a | e |]; [| | done].
  - intros [-> Hsucceed]. by split.
  - intros (cs' & c' & -> & Hsucceed & Hfailure).
    exists (c :: cs'), c'. split_and!; [done | by split |].
    by rewrite <- app_assoc in Hfailure.
Qed.

Lemma upload_attempt_prefix dbx path dest content st :
  0 < chunk_size →
  fs !! path = Some (Readable content) →
  chunk_size < length content →
  ∃ sid chunks last cs,
    calls (upload_file_attempt chunk_size fs dbx path dest st).2 = calls st ++ cs ∧
    cs `prefix_of` session_calls sid chunk_size content chunks last dest ∧
    cs ≠ [] ∧
    Forall (λ d, length d = chunk_size) chunks ∧
    0 < length last ≤ chunk_size ∧
    take chunk_size content ++ concat chunks ++ last = content ∧
    (1 < length cs →
     files_upload_session_start_reply dbx (calls st) (take chunk_size content)
     = Value sid) ∧
    stopped_by dbx (calls st) cs
      (session_calls sid chunk_size content chunks last dest)
      (upload_file_attempt chunk_size fs dbx path dest st).1.
Proof.
  intros Hchunk Hfile Hsize.
  destruct (rest_splits content chunk_size Hchunk Hsize)
    as (chunks & last & Hchunks & Hlast & Hbytes).
  assert (take chunk_size content ++ concat chunks ++ last = content) as Hall
    by (rewrite Hbytes; apply take_drop).
  rewrite (upload_file_attempt_large _ _ _ _ _ content) by done.
  unfold files_upload_session_start, perform, bind. simpl.
  destruct (files_upload_session_start_reply dbx _ _) as [sid | e] eqn:Hstart; simpl.
  - destruct (upload_session_loop_prefix dbx content sid dest (length content)
                chunk_size
                (add_call (FilesUploadSessionStart (take chunk_size content)) st)
                chunks last) as (cs & Hcalls & Hprefix & Hresult);
      [done | done | lia | done | done | done |].
    exists sid, chunks, last, (FilesUploadSessionStart (take chunk_size content) :: cs).
    rewrite Hcalls. simpl. rewrite <- app_assoc.
    split_and!; [done | by apply prefix_cons | done | done | lia | lia | done | done |].
    apply stopped_by_cons; [| exact Hresult].
    unfold failure. by rewrite Hstart.
  - exists "", chunks, last, [FilesUploadSessionStart (take chunk_size content)].
    split_and!; [done | | done | done | lia | lia | done | simpl; lia |].
    + apply prefix_cons, prefix_nil.
    + exists [], (FilesUploadSessionStart (take chunk_size content)).
      split_and!; [done | done |]. rewrite app_nil_r. unfold failure.
      by rewrite Hstart.
Qed.

(** X1. One run of the body of [upload_file] on a file larger than one
    chunk stops at the first call that the client answers with an error,
    and nowhere else.  The calls it issues are an initial segment of the
    calls of the complete session (the start with the first chunk, the
    appends of one chunk each at the offsets of the bytes already sent,
    under the session id the start was answered with, the finish with the
    rest), so no chunk is skipped or repeated.  When the run raises, the
    error is the client's answer to the last call issued, and every call
    before that one was answered without an error; when it returns, the
    whole session was issued and answered without an error.  The run
    always comes back. *)
Theorem upload_attempt_stops_at_first_failure dbx path dest content st :
  0 < chunk_size →
  fs !! path = Some (Readable content) →
  chunk_size < length content →
  ∃ sid chunks last cs,
    calls (upload_file_attempt chunk_size fs dbx path dest st).2 = calls st ++ cs ∧
    cs `prefix_of` session_calls sid chunk_size content chunks last dest ∧
    cs ≠ [] ∧
    Forall (λ d, length d = chunk_size) chunks ∧
    0 < length last ≤ chunk_size ∧
    take chunk_size content ++ concat chunks ++ last = content ∧
    (1 < length cs →
     files_upload_session_start_reply dbx (calls st) (take chunk_size content)
     = Value sid) ∧
    match (upload_file_attempt chunk_size fs dbx path dest st).1 with
    | Returns _ =>
        cs = session_calls sid chunk_size content chunks last dest ∧
        all_succeed dbx (calls st) cs
    | Raises e =>
        ∃ cs' c, cs = cs' ++ [c] ∧ all_succeed dbx (calls st) cs'
                 ∧ failure dbx (calls st ++ cs') c = Some e
    | Diverges => False
    end.
Proof.
  intros Hchunk Hfile Hsize.
  destruct (upload_attempt_prefix dbx path dest content st Hchunk Hfile Hsize)
    as (sid & chunks & last & cs & Hcalls & Hprefix & Hne & Hchunks & Hlast & Hbytes
        & Hsid & Hresult).
  exists sid, chunks, last, cs.
  split; [done |]. split; [done |]. split; [done |]. split; [done |].
  split; [exact Hlast |]. split; [done |]. split; [done |]. exact Hresult.
Qed.

(** X2. Whatever the client answers and whatever the size of the file,
    the bytes one run of the body of [upload_file] sends are, in order,
    an initial segment of the file's content, and a call that commits to
    the destination (the single-shot upload or the finish of the session)
    is issued at most once, as the call that completes the content, and
    to the destination; a run that returns has committed. *)
Theorem upload_attempt_commits_whole_file dbx path dest content st :
  0 < chunk_size →
  fs !! path = Some (Readable content) →
  ∃ cs,
    calls (upload_file_attempt chunk_size fs dbx path dest st).2 = calls st ++ cs ∧
    uploaded cs `prefix_of` content ∧
    (commits cs = [] ∨ (commits cs = [dest] ∧ uploaded cs = content)) ∧
    ((upload_file_attempt chunk_size fs dbx path dest st).1 = Returns tt →
     commits cs = [dest]).
Proof.
  intros Hchunk Hfile.
  destruct (decide (length content ≤ chunk_size)) as [Hsmall | Hlarge].
  - rewrite (upload_file_attempt_small _ _ _ _ _ content) by done.
    exists [FilesUpload content dest]. unfold uploaded. simpl. rewrite app_nil_r.
    split_and!; [done | done | by right | done].
  - destruct (upload_attempt_prefix dbx path dest content st)
      as (sid & chunks & last & cs & Hcalls & Hprefix & _ & _ & _ & Hbytes & _
          & Hresult);
      [done | done | lia |].
    destruct (session_calls_upload sid content chunks last dest Hbytes)
      as (Hup & Hcommit & Hnone).
    exists cs. split; [done |]. split.
    { pose proof (uploaded_prefix _ _ Hprefix) as Hsent. by rewrite Hup in Hsent. }
    split.
    + unfold session_calls in Hprefix. rewrite app_comm_cons in Hprefix.
      apply prefix_snoc_cases in Hprefix as [Hshort | ->]; [left | by right].
      by eapply commits_prefix_nil.
    + intros Hret. rewrite Hret in Hresult. destruct Hresult as [-> _]. done.
Qed.

(** X3. A file that is missing or cannot be opened: [upload_file]
    raises the error of [open] and has issued no call, for every client. *)
Theorem upload_file_unreadable dbx path dest st :
  (∀ content, fs !! path ≠ Some (Readable content)) →
  upload_file chunk_size fs dbx path dest st = (Raises (read_error fs path), st).
Proof.
  intros Hfile.
  assert (∀ st0, upload_file_attempt chunk_size fs dbx path dest st0
                 = (Raises (read_error fs path), st0)) as Hattempt.
  { intros st0. unfold upload_file_attempt, open_rb, read_error.
    destruct (fs !! path) as [[content | size] |]; [| done | done].
    by destruct (Hfile content). }
  unfold upload_file, retry. simpl. by rewrite !Hattempt.
Qed.

End Uploads.

Section Snapshots.

Context (sha256 : bytes → bytes) (path_join : string → string → string).
Context (chunk_size : nat) (fs : gmap string file).
Context (hassio : list call → string → reply unit).

Lemma sends_compute_dropbox_hash P path :
  sends P (compute_dropbox_hash sha256 chunk_size fs path).
Proof.
  intros st.
  destruct (compute_dropbox_hash_unreadable sha256 chunk_size fs path st)
    as [[_ ->] | [(size & _ & ->) | [content Hfile]]].
  - split_and!; [done | done |]. exists []. by rewrite app_nil_r.
  - split_and!; [done | done |]. exists []. by rewrite app_nil_r.
  - rewrite (compute_dropbox_hash_spec _ _ _ _ content) by done.
    split_and!; [done | done |]. exists []. by rewrite app_nil_r.
Qed.

Lemma sends_upload_session_loop_to dbx file_size dest fuel f cursor :
  0 < chunk_size → file_size ≤ length (data f) → file_size - pos f ≤ fuel →
  sends (touches_only dest)
    (upload_session_loop chunk_size fuel dbx f file_size cursor dest).
Proof.
  intros Hchunk Hsize. revert f cursor Hsize.
  induction fuel as [| fuel IH]; intros f cursor Hsize Hfuel; simpl.
  - assert ((tell f <? file_size) = false) as ->
      by (apply Nat.ltb_ge; unfold tell; lia).
    apply sends_log.
  - destruct (tell f <? file_size) eqn:Hlt; [| apply sends_log].
    apply Nat.ltb_lt in Hlt. unfold tell in Hlt.
    assert (0 < length (take chunk_size (drop (pos f) (data f)))) as Hread.
    { rewrite length_take, length_drop. lia. }
    destruct (file_size - tell f <=? chunk_size); unfold read;
      (apply sends_bind; [by apply sends_perform |]); intros _;
      apply IH; simpl; (done || lia).
Qed.

Lemma sends_upload_file_to dbx path dest :
  0 < chunk_size →
  sends (touches_only dest) (upload_file chunk_size fs dbx path dest).
Proof.
  intros Hchunk. apply sends_retry_loop.
  destruct (fs !! path) as [[content | size] |] eqn:Hfile.
  - destruct (decide (length content ≤ chunk_size)) as [Hsmall | Hlarge]; intros st.
    + rewrite (upload_file_attempt_small _ _ _ _ _ content) by done.
      by apply sends_perform.
    + rewrite (upload_file_attempt_large _ _ _ _ _ content) by (done || lia).
      revert st. apply sends_bind; [by apply sends_perform |]. intros sid.
      apply sends_upload_session_loop_to; simpl; [done | done | lia].
  - unfold upload_file_attempt, open_rb. rewrite Hfile. apply sends_bind_raise.
  - unfold upload_file_attempt, open_rb. rewrite Hfile. apply sends_bind_raise.
Qed.

Lemma sends_file_exists_to dbx path dest :
  sends (touches_only dest) (file_exists sha256 chunk_size fs dbx path dest).
Proof.
  unfold file_exists. apply sends_bind.
  - apply sends_try_except.
    + apply sends_bind; [by apply sends_perform | intros; apply sends_ret].
    + intros _. apply sends_bind; [apply sends_log | intros; apply sends_ret].
  - intros [h |]; [| apply sends_ret].
    apply sends_bind; [apply sends_compute_dropbox_hash |]. intros local_hash.
    apply sends_bind; [apply sends_log |]. intros _.
    apply sends_bind; [apply sends_log |]. intros _.
    destruct (String.eqb local_hash h); [apply sends_ret |].
    apply sends_bind; [apply sends_log |]. intros _.
    apply sends_bind; [by apply sends_perform | intros; apply sends_ret].
Qed.

Lemma sends_process_snapshot dir dbx s :
  0 < chunk_size →
  sends (touches_only (dropbox_path path_join dir s))
    (process_snapshot sha256 path_join chunk_size fs dir dbx s).
Proof.
  intros Hchunk. unfold process_snapshot. apply sends_bind.
  - unfold getsize. destruct (fs !! _) as [[content | size] |];
      [apply sends_ret | apply sends_ret | apply sends_raise].
  - intros _. apply sends_bind; [apply sends_log |]. intros _.
    apply sends_bind; [apply sends_log |]. intros _.
    apply sends_try_except; [| intros _; apply sends_log].
    unfold process_snapshot_try. apply sends_bind; [apply sends_file_exists_to |].
    intros [|]; [apply sends_log | by apply sends_upload_file_to].
Qed.

(** X4. Whatever the client answers and whatever is on the disk,
    [process_snapshot] comes back having named no other remote path than
    the snapshot's own destination: every metadata fetch, delete and
    commit is on that path, the supervisor is not called, and no list
    object changes. *)
Theorem process_snapshot_touches_only_its_path dir dbx s st :
  0 < chunk_size →
  (process_snapshot sha256 path_join chunk_size fs dir dbx s st).1 ≠ Diverges ∧
  heap (process_snapshot sha256 path_join chunk_size fs dir dbx s st).2 = heap st ∧
  ∃ cs,
    calls (process_snapshot sha256 path_join chunk_size fs dir dbx s st).2
    = calls st ++ cs ∧
    Forall (touches_only (dropbox_path path_join dir s)) cs.
Proof. intros Hchunk. by apply sends_process_snapshot. Qed.

(** X5. The remote copy has another hash and its delete raises:
    [process_snapshot] logs [Upload failed] and returns after the fetch
    and the delete.  Nothing is uploaded, so the remote copy that differs
    stays. *)
Theorem failed_delete_means_no_upload dir dbx s content remote_hash e st :
  fs !! local_path path_join s = Some (Readable content) →
  files_get_metadata_reply dbx (calls st) (dropbox_path path_join dir s)
  = Value remote_hash →
  remote_hash ≠ content_hash sha256 chunk_size content →
  files_delete_reply dbx
    (calls st ++ [FilesGetMetadata (dropbox_path path_join dir s)])
    (dropbox_path path_join dir s) = Error e →
  ∃ st',
    process_snapshot sha256 path_join chunk_size fs dir dbx s st = (Returns tt, st') ∧
    calls st' = calls st
      ++ [FilesGetMetadata (dropbox_path path_join dir s);
          FilesDelete (dropbox_path path_join dir s)] ∧
    last (logs st') = Some (ERROR, "Upload failed").
Proof.
  intros Hfile Hreply Hne Hdelete.
  destruct (file_exists_differs sha256 chunk_size fs dbx (local_path path_join s)
              (dropbox_path path_join dir s) content remote_hash
              (entering_try (dropbox_path path_join dir s) s st))
    as (st1 & Hcheck & Hcalls & _); [done | done | done |].
  change (calls (entering_try (dropbox_path path_join dir s) s st))
    with (calls st) in Hcheck, Hcalls.
  rewrite Hdelete in Hcheck.
  rewrite (process_snapshot_check_raises _ _ _ _ _ _ _ _ _ e st1 Hfile Hcheck).
  eexists. split; [done |]. simpl. split; [done |]. by rewrite last_snoc.
Qed.

(** ** More on the content hash *)

Lemma blocks_nil fuel content : blocks fuel chunk_size content ≠ [] → content ≠ [].
Proof. destruct fuel; [done |]. simpl. intros Hne ->. by rewrite take_nil in Hne. Qed.

Lemma blocks_shape fuel content :
  0 < chunk_size → length content ≤ fuel →
  Forall (λ b, 0 < length b ≤ chunk_size) (blocks fuel chunk_size content) ∧
  ∀ i b, blocks fuel chunk_size content !! i = Some b →
         S i < length (blocks fuel chunk_size content) → length b = chunk_size.
Proof.
  intros Hchunk. revert content.
  induction fuel as [| fuel IH]; intros content Hfuel; simpl; [by split |].
  destruct (take chunk_size content) as [| b0 bs] eqn:Hblock; [by split |].
  assert (length (b0 :: bs) = chunk_size `min` length content) as Hlen
    by (by rewrite <- Hblock, length_take).
  assert (0 < length content)
    by (destruct content; [by rewrite take_nil in Hblock | simpl; lia]).
  destruct (IH (drop chunk_size content)) as [Hall Hfull];
    [rewrite length_drop; lia |].
  split.
  - constructor; [| done]. simpl in *. lia.
  - intros [| i] b Hb Hi; simpl in *.
    + injection Hb as <-.
      assert (drop chunk_size content ≠ [])
        by (apply (blocks_nil fuel); intros Hnil; rewrite Hnil in Hi; simpl in Hi; lia).
      assert (chunk_size < length content).
      { destruct (decide (chunk_size < length content)); [done |].
        by rewrite drop_ge in * by lia. }
      simpl. lia.
    + apply (Hfull i); [done | lia].
Qed.

(** X6. For a file that can be read, [compute_dropbox_hash] issues no
    call and returns the lower-case hexadecimal SHA-256 digest of the
    concatenated SHA-256 digests of the blocks of the file, where the
    blocks, in order, make up the content, none is empty, and every block
    but the last has exactly the chunk size (so the empty file has no
    block at all). *)
Theorem compute_dropbox_hash_blocks path content st :
  0 < chunk_size →
  fs !! path = Some (Readable content) →
  ∃ bs,
    compute_dropbox_hash sha256 chunk_size fs path st
    = (Returns (hex (sha256 (bs ≫= sha256))), st) ∧
    concat bs = content ∧
    Forall (λ b, 0 < length b ≤ chunk_size) bs ∧
    (∀ i b, bs !! i = Some b → S i < length bs → length b = chunk_size).
Proof.
  intros Hchunk Hfile. exists (blocks (length content) chunk_size content).
  destruct (blocks_shape (length content) content Hchunk (Nat.le_refl _))
    as [Hall Hfull].
  split_and!; [| by apply concat_blocks | done | done].
  by rewrite (compute_dropbox_hash_spec _ _ _ _ content).
Qed.

(** X7. Two readable files with different contents get the same digest
    from [compute_dropbox_hash] only if SHA-256 itself collides: from
    such a pair of files one reads off two different byte strings with
    the same SHA-256 digest. *)
Theorem compute_dropbox_hash_collision path1 path2 content1 content2 st1 st2 :
  0 < chunk_size → (∀ x, length (sha256 x) = 32) →
  fs !! path1 = Some (Readable content1) →
  fs !! path2 = Some (Readable content2) →
  content1 ≠ content2 →
  (compute_dropbox_hash sha256 chunk_size fs path1 st1).1
  = (compute_dropbox_hash sha256 chunk_size fs path2 st2).1 →
  ∃ x y, x ≠ y ∧ sha256 x = sha256 y.
Proof.
  intros Hchunk Hlen Hfile1 Hfile2 Hne Heq.
  rewrite (compute_dropbox_hash_spec _ _ _ _ content1),
    (compute_dropbox_hash_spec _ _ _ _ content2) in Heq by done.
  simpl in Heq. injection Heq as Heq.
  by apply (content_hash_collision sha256 chunk_size content1 content2).
Qed.

End Snapshots.

Section Retention.

Context (sha256 : bytes → bytes) (path_join : string → string → string).
Context (chunk_size : nat) (fs : gmap string file).
Context (hassio : list call → string → reply unit).

Lemma insert_by_date_newest x l :
  Forall (λ y, (date y < date x)%Z) l → insert_by_date x l = l ++ [x].
Proof.
  induction 1 as [| y l Hy _ IH]; simpl; [done |].
  assert ((date x <=? date y)%Z = false) as -> by lia. by rewrite IH.
Qed.

Lemma sort_by_date_strict l : strictly_newest_first l → sort_by_date l = reverse l.
Proof.
  induction 1 as [| x l _ IH Hx]; [done |].
  change (sort_by_date (x :: l)) with (insert_by_date x (sort_by_date l)).
  rewrite IH, reverse_cons.
  apply insert_by_date_newest. by apply Forall_reverse.
Qed.

Lemma sorted_strict l : strictly_newest_first l → reverse (sort_by_date l) = l.
Proof. intros Hl. by rewrite sort_by_date_strict, reverse_involutive. Qed.

Lemma limit_snapshots_noop dbx cfg l snaps st :
  heap st !! l = Some snaps →
  match keep cfg with
  | None => True
  | Some n => n = 0%Z ∨ (Z.of_nat (length snaps) ≤ n)%Z
  end →
  ∃ lvl msg,
    limit_snapshots path_join hassio dbx cfg l st = (Returns tt, add_log lvl msg st).
Proof.
  intros Hheap Hkeep. unfold limit_snapshots.
  destruct (keep cfg) as [n |]; cbn [truthy from_option id]; [| by eexists _, _].
  destruct (n =? 0)%Z eqn:Hn; cbn [negb]; [by eexists _, _ |].
  destruct Hkeep as [-> | Hlen]; [done |].
  erewrite bind_returns by (by apply deref_lookup).
  assert ((Z.of_nat (length snaps) <=? n)%Z = true) as -> by lia.
  by eexists _, _.
Qed.

(** X8. With [keep] unset, zero, or not smaller than the number of
    snapshots, [limit_snapshots] writes one log line and returns: it
    issues no call and does not touch the list. *)
Theorem limit_snapshots_nothing_to_do dbx cfg l snaps st :
  heap st !! l = Some snaps →
  match keep cfg with
  | None => True
  | Some n => n = 0%Z ∨ (Z.of_nat (length snaps) ≤ n)%Z
  end →
  ∃ lvl msg,
    limit_snapshots path_join hassio dbx cfg l st = (Returns tt, add_log lvl msg st).
Proof. apply limit_snapshots_noop. Qed.

(** X9. A negative [keep = -k] does not switch pruning off: in a run
    where the supervisor and the Dropbox delete do not fail,
    [limit_snapshots] sorts the list and asks for the deletion, on both
    sides, of its last [k] snapshots (of all of them when there are fewer),
    none of which is newer than one it leaves. *)
Theorem limit_snapshots_negative_keep dbx cfg l snaps n st :
  heap st !! l = Some snaps →
  keep cfg = Some n → (n < 0)%Z →
  removals_succeed hassio → deletes_succeed dbx →
  ∃ kept expired st',
    kept = take (length snaps - Z.to_nat (- n)) (reverse (sort_by_date snaps)) ∧
    expired = drop (length snaps - Z.to_nat (- n)) (reverse (sort_by_date snaps)) ∧
    limit_snapshots path_join hassio dbx cfg l st = (Returns tt, st') ∧
    calls st' = calls st ++ (expired ≫= deletion_calls path_join (dropbox_dir cfg)) ∧
    length expired = Z.to_nat (- n) `min` length snaps ∧
    kept ++ expired ≡ₚ snaps ∧
    (∀ k e, k ∈ kept → e ∈ expired → (date e ≤ date k)%Z).
Proof.
  intros Hheap Hkeep Hn Hremove Hdelete.
  destruct (limit_snapshots_sorts path_join hassio dbx cfg l snaps n st)
    as (st1 & Hcalls1 & Hheap1 & Hrun); [done | done | lia | lia |].
  assert (length (reverse (sort_by_date snaps)) = length snaps) as Hsorted_len
    by (by rewrite (sorted_perm snaps)).
  assert (slice_from n (reverse (sort_by_date snaps))
          = drop (length snaps - Z.to_nat (- n)) (reverse (sort_by_date snaps)))
    as Hslice.
  { unfold slice_from. assert ((n <? 0)%Z = true) as -> by lia.
    by rewrite Hsorted_len. }
  rewrite Hslice in Hrun.
  destruct (for_each_delete_ok path_join hassio dbx (dropbox_dir cfg)
              (drop (length snaps - Z.to_nat (- n)) (reverse (sort_by_date snaps)))
              st1 Hremove Hdelete) as (st' & Hrun' & Hcalls' & _).
  exists (take (length snaps - Z.to_nat (- n)) (reverse (sort_by_date snaps))),
    (drop (length snaps - Z.to_nat (- n)) (reverse (sort_by_date snaps))), st'.
  split; [done |]. split; [done |]. split; [congruence |]. split; [congruence |].
  split; [rewrite length_drop; lia |].
  split; [rewrite take_drop; apply sorted_perm |].
  intros k e Hk He.
  pose proof (newest_first_sorted snaps) as Hsorted.
  rewrite <- (take_drop (length snaps - Z.to_nat (- n))
                (reverse (sort_by_date snaps))) in Hsorted.
  apply (StronglySorted_app_1_elem_of _ _ _ k e Hsorted Hk He).
Qed.

(** X10. A list that is already newest first, with no two snapshots of
    the same date, comes out of [limit_snapshots] as it went in, whatever
    [keep] is and whatever the collaborators answer: the in-place sort
    changes nothing, and no list object changes. *)
Theorem limit_snapshots_keeps_sorted_list dbx cfg l snaps st :
  heap st !! l = Some snaps →
  strictly_newest_first snaps →
  heap (limit_snapshots path_join hassio dbx cfg l st).2 = heap st.
Proof.
  intros Hheap Hsorted.
  destruct (keep cfg) as [n |] eqn:Hkeep.
  - destruct (decide (n = 0 ∨ Z.of_nat (length snaps) ≤ n)%Z) as [Hnone | Hsome].
    + destruct (limit_snapshots_noop dbx cfg l snaps st Hheap)
        as (lvl & msg & ->); [by rewrite Hkeep | done].
    + destruct (limit_snapshots_sorts path_join hassio dbx cfg l snaps n st)
        as (st1 & _ & Hheap1 & ->); [done | done | lia | lia |].
      destruct (for_each_delete_any path_join hassio dbx (dropbox_dir cfg)
                  (slice_from n (reverse (sort_by_date snaps))) st1)
        as (cs & _ & _ & ->).
      rewrite Hheap1, sorted_strict by done. by apply insert_id.
  - destruct (limit_snapshots_noop dbx cfg l snaps st Hheap)
      as (lvl & msg & ->); [by rewrite Hkeep | done].
Qed.

End Retention.

Section Batch.

Context (sha256 : bytes → bytes) (path_join : string → string → string).
Context (chunk_size : nat) (fs : gmap string file).
Context (hassio : list call → string → reply unit).

Lemma sends_weaken {A} (P Q : call → Prop) (m : M A) :
  (∀ c, P c → Q c) → sends P m → sends Q m.
Proof.
  intros HPQ Hm st. destruct (Hm st) as (Hdiv & Hheap & cs & Hcs & HP).
  split_and!; [done | done |]. exists cs. split; [done |].
  eapply Forall_impl; [exact HP | done].
Qed.

Lemma sends_for_each_process dir dbx (all : list snapshot)
    (msg : nat → snapshot → string) (xs : list (nat * snapshot)) :
  0 < chunk_size →
  (∀ s, s ∈ xs.*2 → s ∈ all) →
  sends (λ c, ∃ s, s ∈ all ∧ touches_only (dropbox_path path_join dir s) c)
    (for_each xs (fun '(i, s) =>
       log INFO (msg i s) ;;
       process_snapshot sha256 path_join chunk_size fs dir dbx s)).
Proof.
  intros Hchunk. induction xs as [| [i x] xs IH]; intros Hall; cbn [for_each].
  - intros st. split_and!; [done | done |]. exists []. by rewrite app_nil_r.
  - apply sends_bind.
    + apply sends_bind; [apply sends_log |]. intros _.
      apply (sends_weaken (touches_only (dropbox_path path_join dir x)));
        [| by apply sends_process_snapshot].
      intros c Hc. exists x. split; [apply Hall; by left | done].
    + intros _. apply IH. intros s Hs. apply Hall. by right.
Qed.

Lemma backup_comes_back dbx cfg l snaps st :
  0 < chunk_size →
  heap st !! l = Some snaps →
  (backup sha256 path_join chunk_size fs dbx cfg l st).1 ≠ Diverges ∧
  heap (backup sha256 path_join chunk_size fs dbx cfg l st).2 = heap st ∧
  ∃ cs,
    calls (backup sha256 path_join chunk_size fs dbx cfg l st).2 = calls st ++ cs ∧
    Forall (λ c, ∃ s, s ∈ backup_batch cfg snaps ∧
                      touches_only (dropbox_path path_join (dropbox_dir cfg) s) c)
      cs.
Proof.
  intros Hchunk Hheap. unfold backup.
  erewrite bind_returns by (by apply deref_lookup).
  revert st Hheap. intros st _. revert st.
  change (sends (λ c, ∃ s, s ∈ backup_batch cfg snaps ∧
                           touches_only (dropbox_path path_join (dropbox_dir cfg) s) c)
    (bind (log INFO ("Backing up " +:+ pretty (length snaps) +:+ " snapshots"))
       (λ _, bind (log INFO ("Backing up to Dropbox directory: " +:+ dropbox_dir cfg))
          (λ _, match snaps with
                | [] => log WARNING "No snapshots found to backup"
                | _ :: _ =>
                    bind
                      (if truthy (keep cfg)
                          && (default 0 (keep cfg) <? Z.of_nat (length snaps))%Z
                       then log INFO ("Only backing up the first "
                                      +:+ pretty (default 0%Z (keep cfg))
                                      +:+ " snapshots")
                       else ret tt)
                      (λ _, for_each (enumerate 1 (backup_batch cfg snaps))
                              (fun '(i, s) =>
                                 log INFO ("Snapshot: " +:+ name s +:+ " ("
                                           +:+ pretty i +:+ "/"
                                           +:+ pretty (length (backup_batch cfg snaps))
                                           +:+ ")") ;;
                                 process_snapshot sha256 path_join chunk_size fs
                                   (dropbox_dir cfg) dbx s))
                end)))).
  apply sends_bind; [apply sends_log |]. intros _.
  apply sends_bind; [apply sends_log |]. intros _.
  destruct snaps as [| s0 snaps'] eqn:Hsnaps; [apply sends_log |].
  rewrite <- Hsnaps. apply sends_bind.
  - destruct (truthy _ && _); [apply sends_log | apply sends_ret].
  - intros _.
    apply (sends_for_each_process (dropbox_dir cfg) dbx (backup_batch cfg snaps)
             (λ i s, "Snapshot: " +:+ name s +:+ " (" +:+ pretty i +:+ "/"
                     +:+ pretty (length (backup_batch cfg snaps)) +:+ ")"));
      [done |].
    intros s Hs. unfold enumerate in Hs.
    by rewrite snd_zip in Hs by (by rewrite length_seq).
Qed.

(** X11. Whatever the client answers and whatever is on the disk,
    [backup] comes back without changing the list it was handed or any
    other list object, never calls the supervisor, and names no other
    remote path than the destinations of the snapshots it selected (the
    first [keep] of the list when the list is longer than [keep], all of
    them otherwise); for an empty list it issues no call. *)
Theorem backup_touches_only_listed dbx cfg l snaps st :
  0 < chunk_size →
  heap st !! l = Some snaps →
  (backup sha256 path_join chunk_size fs dbx cfg l st).1 ≠ Diverges ∧
  heap (backup sha256 path_join chunk_size fs dbx cfg l st).2 = heap st ∧
  ∃ cs,
    calls (backup sha256 path_join chunk_size fs dbx cfg l st).2 = calls st ++ cs ∧
    Forall (λ c, ∃ s, s ∈ backup_batch cfg snaps ∧
                      touches_only (dropbox_path path_join (dropbox_dir cfg) s) c)
      cs.
Proof. apply backup_comes_back. Qed.

Lemma backup_batch_take cfg snaps n :
  keep cfg = Some n → (0 < n < Z.of_nat (length snaps))%Z →
  backup_batch cfg snaps = take (Z.to_nat n) snaps.
Proof.
  intros Hkeep Hn. unfold backup_batch, slice_to. rewrite Hkeep.
  cbn [truthy default from_option id].
  assert ((n =? 0)%Z = false) as -> by lia.
  assert ((n <? Z.of_nat (length snaps))%Z = true) as -> by lia.
  by assert ((n <? 0)%Z = false) as -> by lia.
Qed.

Lemma backup_then_limit dbx cfg l snaps n st :
  0 < chunk_size →
  heap st !! l = Some snaps →
  keep cfg = Some n → (0 < n < Z.of_nat (length snaps))%Z →
  (∀ s, s ∈ snaps → is_Some (fs !! local_path path_join s)) →
  removals_succeed hassio → deletes_succeed dbx →
  ∃ cs st1 st2,
    backup sha256 path_join chunk_size fs dbx cfg l st = (Returns tt, st1) ∧
    calls st1 = calls st ++ cs ∧
    metadata_fetches cs
    = dropbox_path path_join (dropbox_dir cfg) <$> take (Z.to_nat n) snaps ∧
    limit_snapshots path_join hassio dbx cfg l st1 = (Returns tt, st2) ∧
    calls st2
    = calls st1 ++ (drop (Z.to_nat n) (reverse (sort_by_date snaps))
                    ≫= deletion_calls path_join (dropbox_dir cfg)) ∧
    heap st2 = <[l := reverse (sort_by_date snaps)]> (heap st).
Proof.
  intros Hchunk Hheap Hkeep Hn Hfiles Hremove Hdelete.
  destruct (backup_returns sha256 path_join chunk_size fs dbx cfg l snaps st)
    as (cs & st1 & Hrun & Hcalls & Hcs); [done .. |].
  destruct (backup_comes_back dbx cfg l snaps st Hchunk Hheap) as (_ & Hheap1 & _).
  rewrite Hrun in Hheap1. cbn [snd] in Hheap1.
  destruct (limit_snapshots_sorts path_join hassio dbx cfg l snaps n st1)
    as (st1' & Hcalls1 & Hheap1' & Hlimit); [by rewrite Hheap1 | done | lia | lia |].
  assert (slice_from n (reverse (sort_by_date snaps))
          = drop (Z.to_nat n) (reverse (sort_by_date snaps))) as Hslice.
  { unfold slice_from. by assert ((n <? 0)%Z = false) as -> by lia. }
  rewrite Hslice in Hlimit.
  destruct (for_each_delete_ok path_join hassio dbx (dropbox_dir cfg)
              (drop (Z.to_nat n) (reverse (sort_by_date snaps))) st1' Hremove Hdelete)
    as (st2 & Hrun2 & Hcalls2 & Hheap2).
  exists cs, st1, st2. split_and!; [done | done | | congruence | congruence | congruence].
  by rewrite Hcs, (backup_batch_take cfg snaps n).
Qed.

(** X12. [backup] followed by [limit_snapshots] on the same list and on
    the state [backup] leaves, for a list that is newest first with no two
    snapshots of the same date and is longer than [keep = N > 0], when the
    local files exist and the deletions do not fail: the snapshots
    [backup] checks against Dropbox are the first [N] of the list, those
    [limit_snapshots] then deletes on both sides are the others, and the
    list is left as it was.  No snapshot is both backed up and deleted. *)
Theorem backup_then_limit_split dbx cfg l snaps n st :
  0 < chunk_size →
  heap st !! l = Some snaps →
  strictly_newest_first snaps →
  keep cfg = Some n → (0 < n < Z.of_nat (length snaps))%Z →
  (∀ s, s ∈ snaps → is_Some (fs !! local_path path_join s)) →
  removals_succeed hassio → deletes_succeed dbx →
  ∃ cs st1 st2,
    backup sha256 path_join chunk_size fs dbx cfg l st = (Returns tt, st1) ∧
    calls st1 = calls st ++ cs ∧
    metadata_fetches cs
    = dropbox_path path_join (dropbox_dir cfg) <$> take (Z.to_nat n) snaps ∧
    limit_snapshots path_join hassio dbx cfg l st1 = (Returns tt, st2) ∧
    calls st2
    = calls st1 ++ (drop (Z.to_nat n) snaps
                    ≫= deletion_calls path_join (dropbox_dir cfg)) ∧
    heap st2 = heap st.
Proof.
  intros Hchunk Hheap Hsorted Hkeep Hn Hfiles Hremove Hdelete.
  destruct (backup_then_limit dbx cfg l snaps n st)
    as (cs & st1 & st2 & Hrun & Hcalls & Hcs & Hrun2 & Hcalls2 & Hheap2); [done .. |].
  rewrite sorted_strict in Hcalls2, Hheap2 by done.
  exists cs, st1, st2. split_and!; [done .. |].
  rewrite Hheap2. by apply insert_id.
Qed.

(** X13. Two snapshots [a], [b] of the same date, listed as [[a; b]], with
    [keep = 1], the local files there and the deletions not failing:
    [backup] checks [a] and names no other remote path than that of
    [a], and [limit_snapshots], whose stable sort followed by a reversal
    swaps the two, then deletes [a] on both sides and keeps [b], which was
    never backed up. *)
Theorem equal_dates_delete_the_backed_up_one dbx cfg l a b st :
  0 < chunk_size →
  heap st !! l = Some [a; b] →
  date a = date b →
  keep cfg = Some 1%Z →
  is_Some (fs !! local_path path_join a) →
  is_Some (fs !! local_path path_join b) →
  removals_succeed hassio → deletes_succeed dbx →
  ∃ cs st1 st2,
    backup sha256 path_join chunk_size fs dbx cfg l st = (Returns tt, st1) ∧
    calls st1 = calls st ++ cs ∧
    metadata_fetches cs = [dropbox_path path_join (dropbox_dir cfg) a] ∧
    Forall (touches_only (dropbox_path path_join (dropbox_dir cfg) a)) cs ∧
    limit_snapshots path_join hassio dbx cfg l st1 = (Returns tt, st2) ∧
    calls st2 = calls st1 ++ deletion_calls path_join (dropbox_dir cfg) a ∧
    heap st2 !! l = Some [b; a].
Proof.
  intros Hchunk Hheap Hdate Hkeep Ha Hb Hremove Hdelete.
  destruct (backup_then_limit dbx cfg l [a; b] 1 st)
    as (cs & st1 & st2 & Hrun & Hcalls & Hcs & Hrun2 & Hcalls2 & Hheap2);
    [done | done | done | simpl; lia | | done | done |].
  { intros s Hs. apply elem_of_cons in Hs as [-> | Hs]; [done |].
    by apply list_elem_of_singleton in Hs as ->. }
  assert (reverse (sort_by_date [a; b]) = [b; a]) as Hsort.
  { cbn [sort_by_date foldr insert_by_date].
    by assert ((date a <=? date b)%Z = true) as -> by lia. }
  rewrite Hsort in Hcalls2, Hheap2.
  exists cs, st1, st2. split_and!; [done | done | done | | done | |].
  - destruct (backup_comes_back dbx cfg l [a; b] st Hchunk Hheap)
      as (_ & _ & cs' & Hcalls' & Hcs').
    rewrite Hrun in Hcalls'. cbn [snd] in Hcalls'.
    rewrite Hcalls in Hcalls'. apply app_inv_head in Hcalls' as <-.
    rewrite (backup_batch_take cfg [a; b] 1) in Hcs' by (done || simpl; lia).
    eapply Forall_impl; [exact Hcs' |].
    intros c (s & Hs & Hc). by apply list_elem_of_singleton in Hs as ->.
  - rewrite Hcalls2. change (drop (Z.to_nat 1) [b; a]) with [a].
    by rewrite bind_cons, app_nil_r.
  - rewrite Hheap2. apply lookup_insert_eq.
Qed.

End Batch.

(** ** The driver *)

Lemma and_then_returns {A B} (m : Main A) (k : A → Main B) p a p' :
  m p = (Returns a, p') → and_then m k p = k a p'.
Proof. intros H. unfold and_then. by rewrite H. Qed.

Lemma and_then_raises {A B} (m : Main A) (k : A → Main B) p e p' :
  m p = (Raises e, p') → and_then m k p = (Raises e, p').
Proof. intros H. unfold and_then. by rewrite H. Qed.

Lemma run_log lvl msg p :
  run (log lvl msg) p
  = (Returns tt, {| engine := add_log lvl msg (engine p); requests := requests p |}).
Proof. done. Qed.

Lemma naps_app rs rs' : naps (rs ++ rs') = naps rs + naps rs'.
Proof. unfold naps. by rewrite filter_app, length_app. Qed.

Lemma naps_snoc_get rs url : naps (rs ++ [HassioGet url]) = naps rs.
Proof.
  rewrite naps_app. change (naps [HassioGet url]) with 0. apply Nat.add_0_r.
Qed.

Lemma naps_snoc_sleeper rs seconds : naps (rs ++ [Sleeper seconds]) = S (naps rs).
Proof.
  rewrite naps_app. change (naps [Sleeper seconds]) with 1. apply Nat.add_1_r.
Qed.

Lemma strictly_sorted l :
  NoDup (date <$> l) → newest_first l → strictly_newest_first l.
Proof.
  intros Hnodup Hsorted. induction Hsorted as [| x l _ IH Hx]; [constructor |].
  rewrite fmap_cons in Hnodup. apply NoDup_cons in Hnodup as [Hnew Hnodup].
  constructor; [by apply IH |].
  apply Forall_forall. intros y Hy.
  rewrite Forall_forall in Hx. specialize (Hx y Hy). unfold flip, not_newer in Hx.
  assert (date y ≠ date x) as Hne.
  { intros Heq. apply Hnew. rewrite <- Heq. by apply list_elem_of_fmap_2. }
  lia.
Qed.

Section Loop.

Context (sha256 : bytes → bytes) (path_join : string → string → string).
Context (chunk_size : nat) (fs : gmap string file).
Context (hassio : list call → string → reply unit).
Context (hassio_snapshots : list request → string → reply (list snapshot)).
Context (sleeper : list request → Z → reply bool).

Lemma list_snapshots_value p snaps :
  hassio_snapshots (requests p) "http://hassio/snapshots" = Value snaps →
  ∃ p',
    list_snapshots hassio_snapshots p = (Returns (fresh (dom (heap (engine p)))), p') ∧
    requests p' = requests p ++ [HassioGet "http://hassio/snapshots"] ∧
    calls (engine p') = calls (engine p) ∧
    logs (engine p') = logs (engine p) ∧
    heap (engine p')
    = <[fresh (dom (heap (engine p))) := reverse (sort_by_date snaps)]>
        (heap (engine p)).
Proof.
  intros Hanswer. unfold list_snapshots, hassio_get, and_then, ask, run, new_list,
    update_list, result.
  change ("http://hassio/" +:+ "snapshots") with "http://hassio/snapshots".
  cbv zeta. rewrite Hanswer. cbn [outcome_of fst snd engine requests].
  eexists. split; [done |]. cbn [engine requests set_list calls logs heap].
  split_and!; [done | done | done |].
  rewrite !lookup_insert_eq. cbn [default from_option id].
  by rewrite !insert_insert_eq.
Qed.

Lemma list_snapshots_error p e :
  hassio_snapshots (requests p) "http://hassio/snapshots" = Error e →
  list_snapshots hassio_snapshots p
  = (Raises e, {| engine := engine p;
                  requests := requests p ++ [HassioGet "http://hassio/snapshots"] |}).
Proof.
  intros Hanswer. unfold list_snapshots, hassio_get, and_then, ask.
  change ("http://hassio/" +:+ "snapshots") with "http://hassio/snapshots".
  cbv zeta. by rewrite Hanswer.
Qed.

(** X14. When the supervisor answers, [list_snapshots] returns a new list
    object holding the snapshots of the answer, newest first; it issues
    that one request, no call of the engine, and leaves every list object
    that existed as it was. *)
Theorem list_snapshots_new_list_newest_first p snaps :
  hassio_snapshots (requests p) "http://hassio/snapshots" = Value snaps →
  ∃ l sorted p',
    list_snapshots hassio_snapshots p = (Returns l, p') ∧
    heap (engine p) !! l = None ∧
    heap (engine p') !! l = Some sorted ∧
    sorted ≡ₚ snaps ∧ newest_first sorted ∧
    (∀ l', l' ≠ l → heap (engine p') !! l' = heap (engine p) !! l') ∧
    requests p' = requests p ++ [HassioGet "http://hassio/snapshots"] ∧
    calls (engine p') = calls (engine p).
Proof.
  intros Hanswer.
  destruct (list_snapshots_value p snaps Hanswer)
    as (p' & Hrun & Hrequests & Hcalls & _ & Hheap).
  exists (fresh (dom (heap (engine p)))), (reverse (sort_by_date snaps)), p'.
  split_and!; [done | | | | | | done | done].
  - apply not_elem_of_dom, is_fresh.
  - rewrite Hheap. apply lookup_insert_eq.
  - apply sorted_perm.
  - apply newest_first_sorted.
  - intros l' Hl'. rewrite Hheap. by apply lookup_insert_ne.
Qed.

Lemma run_outcome {A} (m : M A) p r st' :
  m (engine p) = (r, st') →
  run m p = (r, {| engine := st'; requests := requests p |}).
Proof. intros H. unfold run. by rewrite H. Qed.

Lemma for_each_delete_comes_back dbx dir xs st :
  (for_each xs (delete_expired path_join hassio dbx dir) st).1 ≠ Diverges.
Proof.
  revert st. induction xs as [| x xs IH]; intros st; cbn [for_each]; [done |].
  unfold bind.
  destruct (delete_expired_any path_join hassio dbx dir x st)
    as (cs & _ & _ & [[Hret _] | [[e Hraise] _]]);
    destruct (delete_expired path_join hassio dbx dir x st) as [[[] | e' |] st1];
    cbn [fst snd] in *; first [done | apply IH].
Qed.

Lemma limit_snapshots_comes_back dbx cfg l snaps st :
  heap st !! l = Some snaps →
  (limit_snapshots path_join hassio dbx cfg l st).1 ≠ Diverges ∧
  (∀ l', l' ≠ l →
         heap (limit_snapshots path_join hassio dbx cfg l st).2 !! l' = heap st !! l') ∧
  ∃ cs, calls (limit_snapshots path_join hassio dbx cfg l st).2 = calls st ++ cs.
Proof.
  intros Hheap.
  assert (match keep cfg with
          | None => True
          | Some n => n = 0%Z ∨ (Z.of_nat (length snaps) ≤ n)%Z
          end
          ∨ ∃ n, keep cfg = Some n ∧ n ≠ 0%Z ∧ (n < Z.of_nat (length snaps))%Z)
    as [Hnone | (n & Hkeep & Hn & Hlen)].
  { destruct (keep cfg) as [n |]; [| by left].
    destruct (decide (n = 0 ∨ Z.of_nat (length snaps) ≤ n)%Z); [by left |].
    right. exists n. split_and!; [done | lia | lia]. }
  - destruct (limit_snapshots_noop path_join hassio dbx cfg l snaps st Hheap Hnone)
      as (lvl & msg & ->).
    split_and!; [done | done |]. exists []. by rewrite app_nil_r.
  - destruct (limit_snapshots_sorts path_join hassio dbx cfg l snaps n st)
      as (st1 & Hcalls1 & Hheap1 & ->); [done .. |].
    destruct (for_each_delete_any path_join hassio dbx (dropbox_dir cfg)
                (slice_from n (reverse (sort_by_date snaps))) st1)
      as (cs & Hcalls & _ & Hheap').
    split_and!.
    + apply for_each_delete_comes_back.
    + intros l' Hl'. rewrite Hheap', Hheap1. by apply lookup_insert_ne.
    + exists cs. by rewrite Hcalls, Hcalls1.
Qed.

Lemma cycle_comes_back dbx cfg p :
  0 < chunk_size →
  ∃ p',
    cycle sha256 path_join chunk_size fs hassio hassio_snapshots dbx cfg p
    = (Returns tt, p') ∧
    requests p' = requests p ++ [HassioGet "http://hassio/snapshots"] ∧
    (∀ l, is_Some (heap (engine p) !! l) →
          heap (engine p') !! l = heap (engine p) !! l) ∧
    ∃ cs,
      calls (engine p') = calls (engine p) ++ cs ∧
      (∀ e, hassio_snapshots (requests p) "http://hassio/snapshots" = Error e →
            cs = []).
Proof.
  intros Hchunk. unfold cycle, attempt.
  rewrite (and_then_returns _ _ _ _ _ (run_log _ _ _)).
  set (p0 := {| engine := add_log INFO "Starting Snapshot backup" (engine p);
                requests := requests p |}).
  destruct (hassio_snapshots (requests p) "http://hassio/snapshots")
    as [snaps | e] eqn:Hanswer.
  - destruct (list_snapshots_value p0 snaps Hanswer)
      as (p1 & Hlist & Hrequests1 & Hcalls1 & _ & Hheap1).
    rewrite (and_then_returns _ _ _ _ _ Hlist).
    cbn [p0 engine requests add_log heap calls] in Hlist, Hrequests1, Hcalls1, Hheap1.
    set (l := fresh (dom (heap (engine p)))) in *.
    assert (heap (engine p) !! l = None) as Hfresh
      by apply not_elem_of_dom, is_fresh.
    assert (heap (engine p1) !! l = Some (reverse (sort_by_date snaps))) as Hl
      by (rewrite Hheap1; apply lookup_insert_eq).
    destruct (backup_comes_back sha256 path_join chunk_size fs dbx cfg l _
                (engine p1) Hchunk Hl) as (Hback & Hheap2 & cs2 & Hcalls2 & _).
    destruct (backup sha256 path_join chunk_size fs dbx cfg l (engine p1))
      as [[[] | e |] st2] eqn:Hbackup; cbn [fst snd] in *; [| | done].
    + rewrite (and_then_returns _ _ _ _ _ (run_outcome _ _ _ _ Hbackup)).
      rewrite (and_then_returns _ _ _ _ _ (run_log _ _ _)).
      cbn [engine requests].
      assert (heap (add_log INFO "Uploads complete" st2) !! l
              = Some (reverse (sort_by_date snaps))) as Hl2
        by (cbn [add_log heap]; by rewrite Hheap2).
      destruct (limit_snapshots_comes_back dbx cfg l _ _ Hl2)
        as (Hlimit & Hheap3 & cs3 & Hcalls3).
      cbn [add_log heap calls] in Hheap3, Hcalls3.
      destruct (limit_snapshots path_join hassio dbx cfg l
                  (add_log INFO "Uploads complete" st2))
        as [[[] | e |] st3] eqn:Hrun3; cbn [fst snd] in *; [| | done].
      * erewrite and_then_returns
          by (apply run_outcome; cbn [engine]; exact Hrun3).
        rewrite run_log. eexists. split; [done |].
        cbn [engine requests add_log calls heap].
        split_and!; [done | |].
        -- intros l' [xs Hl']. rewrite Hheap3 by congruence.
           rewrite Hheap2, Hheap1. apply lookup_insert_ne. congruence.
        -- exists (cs2 ++ cs3). split; [| done].
           by rewrite Hcalls3, Hcalls2, Hcalls1, <- app_assoc.
      * erewrite and_then_raises
          by (apply run_outcome; cbn [engine]; exact Hrun3).
        rewrite run_log. eexists. split; [done |].
        cbn [engine requests add_log calls heap].
        split_and!; [done | |].
        -- intros l' [xs Hl']. rewrite Hheap3 by congruence.
           rewrite Hheap2, Hheap1. apply lookup_insert_ne. congruence.
        -- exists (cs2 ++ cs3). split; [| done].
           by rewrite Hcalls3, Hcalls2, Hcalls1, <- app_assoc.
    + rewrite (and_then_raises _ _ _ _ _ (run_outcome _ _ _ _ Hbackup)).
      rewrite run_log. eexists. split; [done |].
      cbn [engine requests add_log calls heap].
      split_and!; [done | |].
      * intros l' [xs Hl']. rewrite Hheap2, Hheap1. apply lookup_insert_ne. congruence.
      * exists cs2. split; [| done]. by rewrite Hcalls2, Hcalls1.
  - rewrite (and_then_raises _ _ _ _ _ (list_snapshots_error p0 e Hanswer)).
    rewrite run_log. eexists. split; [done |].
    cbn [engine requests add_log calls heap p0].
    split_and!; [done | done |]. exists []. by rewrite app_nil_r.
Qed.

(** X15. Whatever the collaborators answer and whatever is on the disk,
    one turn of the loop of [main] up to the sleep returns: an error of
    the listing, of [backup] or of [limit_snapshots] goes no further.  The
    turn asks the supervisor for the list of snapshots once, leaves every
    list object that existed before it as it was, and when the listing
    fails it issues no call of the engine. *)
Theorem cycle_swallows_errors dbx cfg p :
  0 < chunk_size →
  ∃ p',
    cycle sha256 path_join chunk_size fs hassio hassio_snapshots dbx cfg p
    = (Returns tt, p') ∧
    requests p' = requests p ++ [HassioGet "http://hassio/snapshots"] ∧
    (∀ l, is_Some (heap (engine p) !! l) →
          heap (engine p') !! l = heap (engine p) !! l) ∧
    ∃ cs,
      calls (engine p') = calls (engine p) ++ cs ∧
      (∀ e, hassio_snapshots (requests p) "http://hassio/snapshots" = Error e →
            cs = []).
Proof. apply cycle_comes_back. Qed.

Lemma main_loop_turns dbx cfg mins k fuel p :
  0 < chunk_size →
  (∀ h, naps h < naps (requests p) + k →
        sleeper h (default 10 mins * 60)%Z = Value false) →
  (∀ h, naps h = naps (requests p) + k →
        sleeper h (default 10 mins * 60)%Z = Value true) →
  k < fuel →
  ∃ p',
    main_loop sha256 path_join chunk_size fs hassio hassio_snapshots sleeper
      fuel dbx cfg mins p = (Returns tt, p') ∧
    requests p' = requests p ++ turns (S k) (default 10 mins * 60)%Z.
Proof.
  intros Hchunk. revert fuel p.
  induction k as [| k IH]; intros fuel p Hfalse Htrue Hfuel;
    (destruct fuel as [| fuel]; [lia |]); cbn [main_loop];
    destruct (cycle_comes_back dbx cfg p Hchunk) as (p1 & Hcycle & Hrequests & _);
    rewrite (and_then_returns _ _ _ _ _ Hcycle);
    rewrite (and_then_returns _ _ _ _ _ (run_log _ _ _));
    unfold and_then at 1, ask; cbn [requests engine];
    assert (naps (requests p1) = naps (requests p)) as Hnaps
      by (by rewrite Hrequests, naps_snoc_get).
  - rewrite Htrue by lia. cbn [outcome_of]. eexists. split; [done |].
    cbn [requests]. by rewrite Hrequests, <- app_assoc.
  - rewrite Hfalse by lia. cbn [outcome_of].
    match goal with |- context [main_loop _ _ _ _ _ _ _ _ _ _ _ ?q] =>
      destruct (IH fuel q) as (p' & Hrun & Hrequests') end.
    + intros h Hh. apply Hfalse. cbn [requests] in Hh.
      rewrite naps_snoc_sleeper, Hnaps in Hh. lia.
    + intros h Hh. apply Htrue. cbn [requests] in Hh.
      rewrite naps_snoc_sleeper, Hnaps in Hh. lia.
    + lia.
    + exists p'. split; [done |]. rewrite Hrequests'. cbn [requests].
      rewrite Hrequests, <- !app_assoc. unfold turns. by cbn.
Qed.

(** X16. [main] stops at the first true answer of its sleeper and not
    before: when the account check passes and the sleeper answers false
    to its first [k] calls and true to the next one, [main] returns after
    [k + 1] turns, each of which asks for the list of snapshots once and
    then sleeps for sixty times the configured minutes (ten when none are
    configured), whatever the other collaborators answer. *)
Theorem main_stops_when_sleeper_says_so dbx cfg mins k fuel p :
  0 < chunk_size →
  requests p = [] →
  (∀ h, naps h < k → sleeper h (default 10 mins * 60)%Z = Value false) →
  (∀ h, naps h = k → sleeper h (default 10 mins * 60)%Z = Value true) →
  k < fuel →
  ∃ p',
    main sha256 path_join chunk_size fs hassio hassio_snapshots sleeper
      fuel dbx Account cfg mins p = (Returns tt, p') ∧
    requests p' = turns (S k) (default 10 mins * 60)%Z.
Proof.
  intros Hchunk Hstart Hfalse Htrue Hfuel. cbn [main].
  destruct (main_loop_turns dbx cfg mins k fuel p) as (p' & Hrun & Hrequests);
    [done | | | done |].
  - intros h Hh. apply Hfalse. rewrite Hstart in Hh. cbn in Hh. lia.
  - intros h Hh. apply Htrue. rewrite Hstart in Hh. cbn in Hh. lia.
  - exists p'. split; [done |]. by rewrite Hrequests, Hstart.
Qed.

(** X17. With a sleeper that never answers true (as [time.sleep], the
    default, which returns [None]), [main] does not return once the
    account check has passed: whatever the bound on the number of turns,
    it has run that many turns, each with its listing and its sleep, and
    is still running. *)
Theorem main_runs_forever_with_plain_sleep dbx cfg mins fuel p :
  0 < chunk_size →
  (∀ h seconds, sleeper h seconds = Value false) →
  ∃ p',
    main sha256 path_join chunk_size fs hassio hassio_snapshots sleeper
      fuel dbx Account cfg mins p = (Diverges, p') ∧
    requests p' = requests p ++ turns fuel (default 10 mins * 60)%Z.
Proof.
  intros Hchunk Hsleeper. cbn [main]. revert p.
  induction fuel as [| fuel IH]; intros p; cbn [main_loop].
  - exists p. split; [done |]. unfold turns. cbn. by rewrite app_nil_r.
  - destruct (cycle_comes_back dbx cfg p Hchunk) as (p1 & Hcycle & Hrequests & _).
    rewrite (and_then_returns _ _ _ _ _ Hcycle).
    rewrite (and_then_returns _ _ _ _ _ (run_log _ _ _)).
    unfold and_then at 1, ask. rewrite Hsleeper. cbn [outcome_of requests engine].
    match goal with |- context [main_loop _ _ _ _ _ _ _ _ _ _ _ ?q] =>
      destruct (IH q) as (p' & Hrun & Hrequests') end.
    exists p'. split; [done |]. rewrite Hrequests'. cbn [requests].
    rewrite Hrequests, <- !app_assoc. unfold turns. by cbn.
Qed.

(** X18. When the account check fails, [main] does not enter its loop:
    it asks for no list, makes no call, never sleeps and touches no list
    object.  On [AuthError] it logs [Invalid access token] and returns;
    any other error of the check is raised by [main], which has done
    nothing. *)
Theorem main_stops_at_failed_account_check dbx acct cfg mins fuel p :
  acct ≠ Account →
  requests (main sha256 path_join chunk_size fs hassio hassio_snapshots sleeper
              fuel dbx acct cfg mins p).2 = requests p ∧
  calls (engine (main sha256 path_join chunk_size fs hassio hassio_snapshots sleeper
                   fuel dbx acct cfg mins p).2) = calls (engine p) ∧
  heap (engine (main sha256 path_join chunk_size fs hassio hassio_snapshots sleeper
                  fuel dbx acct cfg mins p).2) = heap (engine p) ∧
  match acct with
  | Account => False
  | AuthError =>
      (main sha256 path_join chunk_size fs hassio hassio_snapshots sleeper
         fuel dbx acct cfg mins p).1 = Returns tt ∧
      logs (engine (main sha256 path_join chunk_size fs hassio hassio_snapshots
                      sleeper fuel dbx acct cfg mins p).2)
      = logs (engine p) ++ [(ERROR, "Invalid access token")]
  | OtherError e =>
      main sha256 path_join chunk_size fs hassio hassio_snapshots sleeper
        fuel dbx acct cfg mins p = (Raises e, p)
  end.
Proof. intros Hacct. by destruct acct. Qed.

(** X19. A whole turn, when the supervisor lists snapshots of distinct
    dates, more of them than [keep = N > 0], their local files exist and
    the deletions do not fail: the turn checks against Dropbox the [N]
    newest snapshots, in order from the newest, then deletes on both sides
    all the others and no other, and ends on [Snapshot cleanup
    complete]. *)
Theorem cycle_backs_up_newest_deletes_rest dbx cfg p snaps n :
  0 < chunk_size →
  hassio_snapshots (requests p) "http://hassio/snapshots" = Value snaps →
  NoDup (date <$> snaps) →
  keep cfg = Some n → (0 < n < Z.of_nat (length snaps))%Z →
  (∀ s, s ∈ snaps → is_Some (fs !! local_path path_join s)) →
  removals_succeed hassio → deletes_succeed dbx →
  ∃ sorted cs p',
    sorted ≡ₚ snaps ∧ strictly_newest_first sorted ∧
    cycle sha256 path_join chunk_size fs hassio hassio_snapshots dbx cfg p
    = (Returns tt, p') ∧
    calls (engine p')
    = calls (engine p) ++ cs
      ++ (drop (Z.to_nat n) sorted ≫= deletion_calls path_join (dropbox_dir cfg)) ∧
    metadata_fetches cs
    = dropbox_path path_join (dropbox_dir cfg) <$> take (Z.to_nat n) sorted ∧
    last (logs (engine p')) = Some (INFO, "Snapshot cleanup complete").
Proof.
  intros Hchunk Hanswer Hdates Hkeep Hn Hfiles Hremove Hdelete.
  set (sorted := reverse (sort_by_date snaps)).
  assert (sorted ≡ₚ snaps) as Hperm by apply sorted_perm.
  assert (strictly_newest_first sorted) as Hsorted.
  { apply strictly_sorted; [by rewrite Hperm | apply newest_first_sorted]. }
  unfold cycle, attempt.
  rewrite (and_then_returns _ _ _ _ _ (run_log _ _ _)).
  set (p0 := {| engine := add_log INFO "Starting Snapshot backup" (engine p);
                requests := requests p |}).
  destruct (list_snapshots_value p0 snaps Hanswer)
    as (p1 & Hlist & _ & Hcalls1 & _ & Hheap1).
  rewrite (and_then_returns _ _ _ _ _ Hlist).
  cbn [p0 engine requests add_log heap calls] in Hlist, Hcalls1, Hheap1.
  set (l := fresh (dom (heap (engine p)))) in *.
  assert (heap (engine p1) !! l = Some sorted) as Hl
    by (rewrite Hheap1; apply lookup_insert_eq).
  destruct (backup_returns sha256 path_join chunk_size fs dbx cfg l sorted (engine p1))
    as (cs & st2 & Hbackup & Hcalls2 & Hcs); [done | done | |].
  { intros s Hs. apply Hfiles. by rewrite <- Hperm. }
  destruct (backup_comes_back sha256 path_join chunk_size fs dbx cfg l sorted
              (engine p1) Hchunk Hl) as (_ & Hheap2 & _).
  rewrite Hbackup in Hheap2. cbn [snd] in Hheap2.
  rewrite (and_then_returns _ _ _ _ _ (run_outcome _ _ _ _ Hbackup)).
  rewrite (and_then_returns _ _ _ _ _ (run_log _ _ _)).
  cbn [engine requests].
  assert (length sorted = length snaps) as Hlen by (by rewrite Hperm).
  destruct (limit_snapshots_sorts path_join hassio dbx cfg l sorted n
              (add_log INFO "Uploads complete" st2))
    as (st3 & Hcalls3 & _ & Hlimit);
    [cbn [add_log heap]; by rewrite Hheap2 | done | lia | lia |].
  rewrite (sorted_strict sorted Hsorted) in Hlimit.
  assert (slice_from n sorted = drop (Z.to_nat n) sorted) as Hslice.
  { unfold slice_from. by assert ((n <? 0)%Z = false) as -> by lia. }
  rewrite Hslice in Hlimit.
  destruct (for_each_delete_ok path_join hassio dbx (dropbox_dir cfg)
              (drop (Z.to_nat n) sorted) st3 Hremove Hdelete)
    as (st4 & Hrun4 & Hcalls4 & _).
  rewrite Hrun4 in Hlimit.
  erewrite and_then_returns by (apply run_outcome; cbn [engine]; exact Hlimit).
  rewrite run_log.
  exists sorted, cs, {| engine := add_log INFO "Snapshot cleanup complete" st4;
                        requests := requests p1 |}.
  split_and!; [done | done | done | | | ].
  - cbn [engine add_log calls]. rewrite Hcalls4, Hcalls3. cbn [add_log calls].
    by rewrite Hcalls2, Hcalls1, <- app_assoc.
  - by rewrite Hcs, (backup_batch_take cfg sorted n) by (done || lia).
  - cbn [engine add_log logs]. apply last_snoc.
Qed.

End Loop.

(** * The further facts at concrete inputs *)

(** The ten bytes of [day1] in chunks of four, with any client. *)
Lemma upload_attempt_stops_at_first_failure_witness :
  ∃ sid chunks last cs,
    calls (upload_file_attempt 4 Sample.disk (Sample.undeletable "0a")
             "/backup/aa11.tar" "/snapshots/aa11.tar" Sample.start).2
    = calls Sample.start ++ cs ∧
    cs `prefix_of` session_calls sid 4 Sample.ten_bytes chunks last
                     "/snapshots/aa11.tar" ∧
    cs ≠ [] ∧
    Forall (λ d, length d = 4) chunks ∧
    0 < length last ≤ 4 ∧
    take 4 Sample.ten_bytes ++ concat chunks ++ last = Sample.ten_bytes ∧
    (1 < length cs →
     files_upload_session_start_reply (Sample.undeletable "0a") (calls Sample.start)
       (take 4 Sample.ten_bytes) = Value sid) ∧
    match (upload_file_attempt 4 Sample.disk (Sample.undeletable "0a")
             "/backup/aa11.tar" "/snapshots/aa11.tar" Sample.start).1 with
    | Returns _ =>
        cs = session_calls sid 4 Sample.ten_bytes chunks last "/snapshots/aa11.tar" ∧
        all_succeed (Sample.undeletable "0a") (calls Sample.start) cs
    | Raises e =>
        ∃ cs' c, cs = cs' ++ [c]
                 ∧ all_succeed (Sample.undeletable "0a") (calls Sample.start) cs'
                 ∧ failure (Sample.undeletable "0a") (calls Sample.start ++ cs') c
                   = Some e
    | Diverges => False
    end.
Proof.
  apply (upload_attempt_stops_at_first_failure 4 Sample.disk
           (Sample.undeletable "0a") "/backup/aa11.tar" "/snapshots/aa11.tar"
           Sample.ten_bytes Sample.start).
  - lia.
  - vm_compute. reflexivity.
  - simpl. lia.
Defined.

Lemma upload_attempt_commits_whole_file_witness :
  ∃ cs,
    calls (upload_file_attempt 4 Sample.disk (Sample.flaky 3)
             "/backup/aa11.tar" "/snapshots/aa11.tar" Sample.start).2
    = calls Sample.start ++ cs ∧
    uploaded cs `prefix_of` Sample.ten_bytes ∧
    (commits cs = []
     ∨ (commits cs = ["/snapshots/aa11.tar"] ∧ uploaded cs = Sample.ten_bytes)) ∧
    ((upload_file_attempt 4 Sample.disk (Sample.flaky 3)
        "/backup/aa11.tar" "/snapshots/aa11.tar" Sample.start).1 = Returns tt →
     commits cs = ["/snapshots/aa11.tar"]).
Proof.
  apply (upload_attempt_commits_whole_file 4 Sample.disk (Sample.flaky 3)
           "/backup/aa11.tar" "/snapshots/aa11.tar" Sample.ten_bytes Sample.start).
  - lia.
  - vm_compute. reflexivity.
Defined.

(** [day2], whose file cannot be opened, at the deployed chunk size. *)
Lemma upload_file_unreadable_witness :
  upload_file CHUNK_SIZE Sample.disk (Sample.client None) "/backup/bb22.tar"
    "/snapshots/bb22.tar" Sample.start
  = (Raises (read_error Sample.disk "/backup/bb22.tar"), Sample.start).
Proof.
  apply (upload_file_unreadable CHUNK_SIZE Sample.disk (Sample.client None)
           "/backup/bb22.tar" "/snapshots/bb22.tar" Sample.start).
  intros content. vm_compute. discriminate.
Defined.

(** [day1] at the deployed chunk size, with a client that cannot
    delete. *)
Lemma process_snapshot_touches_only_its_path_witness :
  (process_snapshot Sample.digest Sample.join CHUNK_SIZE Sample.disk "/snapshots"
     (Sample.undeletable "0a") Sample.day1 Sample.start).1 ≠ Diverges ∧
  heap (process_snapshot Sample.digest Sample.join CHUNK_SIZE Sample.disk
          "/snapshots" (Sample.undeletable "0a") Sample.day1 Sample.start).2
  = heap Sample.start ∧
  ∃ cs,
    calls (process_snapshot Sample.digest Sample.join CHUNK_SIZE Sample.disk
             "/snapshots" (Sample.undeletable "0a") Sample.day1 Sample.start).2
    = calls Sample.start ++ cs ∧
    Forall (touches_only (dropbox_path Sample.join "/snapshots" Sample.day1)) cs.
Proof.
  apply (process_snapshot_touches_only_its_path Sample.digest Sample.join
           CHUNK_SIZE Sample.disk "/snapshots" (Sample.undeletable "0a")
           Sample.day1 Sample.start).
  unfold CHUNK_SIZE. lia.
Defined.

Lemma failed_delete_means_no_upload_witness :
  ∃ st',
    process_snapshot Sample.digest Sample.join 4 Sample.disk "/snapshots"
      (Sample.undeletable "0a") Sample.day1 Sample.start = (Returns tt, st') ∧
    calls st' = calls Sample.start
      ++ [FilesGetMetadata (dropbox_path Sample.join "/snapshots" Sample.day1);
          FilesDelete (dropbox_path Sample.join "/snapshots" Sample.day1)] ∧
    last (logs st') = Some (ERROR, "Upload failed").
Proof.
  apply (failed_delete_means_no_upload Sample.digest Sample.join 4 Sample.disk
           "/snapshots" (Sample.undeletable "0a") Sample.day1 Sample.ten_bytes
           "0a" (ApiError "path_lookup/locked") Sample.start).
  - vm_compute. reflexivity.
  - reflexivity.
  - vm_compute. discriminate.
  - reflexivity.
Defined.

(** The ten bytes of [day1] in blocks of four. *)
Lemma compute_dropbox_hash_blocks_witness :
  ∃ bs,
    compute_dropbox_hash Sample.digest 4 Sample.disk "/backup/aa11.tar" Sample.start
    = (Returns (hex (Sample.digest (bs ≫= Sample.digest))), Sample.start) ∧
    concat bs = Sample.ten_bytes ∧
    Forall (λ b, 0 < length b ≤ 4) bs ∧
    (∀ i b, bs !! i = Some b → S i < length bs → length b = 4).
Proof.
  apply (compute_dropbox_hash_blocks Sample.digest 4 Sample.disk "/backup/aa11.tar"
           Sample.ten_bytes Sample.start).
  - lia.
  - vm_compute. reflexivity.
Defined.

(** Two files under a digest that collides on every input. *)
Lemma compute_dropbox_hash_collision_witness :
  ∃ x y, x ≠ y ∧ Demo.zeros x = Demo.zeros y.
Proof.
  apply (compute_dropbox_hash_collision Demo.zeros 4 Demo.two_files
           "/backup/aa11.tar" "/backup/dd44.tar" Sample.ten_bytes
           (take 4 Sample.ten_bytes) Sample.start Sample.start).
  - lia.
  - intros x. reflexivity.
  - vm_compute. reflexivity.
  - vm_compute. reflexivity.
  - vm_compute. discriminate.
  - vm_compute. reflexivity.
Defined.

(** Three snapshots and room for three. *)
Lemma limit_snapshots_nothing_to_do_witness :
  ∃ lvl msg,
    limit_snapshots Sample.join Sample.supervisor (Sample.client None)
      (Demo.keeping 3) 0 (Sample.listing [Sample.day2; Sample.day1; Sample.day3])
    = (Returns tt,
       add_log lvl msg (Sample.listing [Sample.day2; Sample.day1; Sample.day3])).
Proof.
  apply (limit_snapshots_nothing_to_do Sample.join Sample.supervisor
           (Sample.client None) (Demo.keeping 3) 0
           [Sample.day2; Sample.day1; Sample.day3]
           (Sample.listing [Sample.day2; Sample.day1; Sample.day3])).
  - vm_compute. reflexivity.
  - simpl. right. lia.
Defined.

(** Three snapshots and [keep = -1]: the oldest one goes. *)
Lemma limit_snapshots_negative_keep_witness :
  ∃ kept expired st',
    kept = take (length [Sample.day2; Sample.day1; Sample.day3] - Z.to_nat (- -1))
             (reverse (sort_by_date [Sample.day2; Sample.day1; Sample.day3])) ∧
    expired = drop (length [Sample.day2; Sample.day1; Sample.day3] - Z.to_nat (- -1))
                (reverse (sort_by_date [Sample.day2; Sample.day1; Sample.day3])) ∧
    limit_snapshots Sample.join Sample.supervisor (Sample.client None)
      (Demo.keeping (-1)) 0 (Sample.listing [Sample.day2; Sample.day1; Sample.day3])
    = (Returns tt, st') ∧
    calls st' = calls (Sample.listing [Sample.day2; Sample.day1; Sample.day3])
      ++ (expired ≫= deletion_calls Sample.join "/snapshots") ∧
    length expired
    = Z.to_nat (- -1) `min` length [Sample.day2; Sample.day1; Sample.day3] ∧
    kept ++ expired ≡ₚ [Sample.day2; Sample.day1; Sample.day3] ∧
    (∀ k e, k ∈ kept → e ∈ expired → (date e ≤ date k)%Z).
Proof.
  apply (limit_snapshots_negative_keep Sample.join Sample.supervisor
           (Sample.client None) (Demo.keeping (-1)) 0
           [Sample.day2; Sample.day1; Sample.day3] (-1)%Z
           (Sample.listing [Sample.day2; Sample.day1; Sample.day3])).
  - vm_compute. reflexivity.
  - reflexivity.
  - lia.
  - apply supervisor_removals_succeed.
  - apply client_deletes_succeed.
Defined.

(** The three days, newest first, with a client that cannot delete. *)
Lemma limit_snapshots_keeps_sorted_list_witness :
  heap (limit_snapshots Sample.join Sample.supervisor (Sample.undeletable "0a")
          (Demo.keeping 2) 0
          (Sample.listing [Sample.day3; Sample.day2; Sample.day1])).2
  = heap (Sample.listing [Sample.day3; Sample.day2; Sample.day1]).
Proof.
  apply (limit_snapshots_keeps_sorted_list Sample.join Sample.supervisor
           (Sample.undeletable "0a") (Demo.keeping 2) 0
           [Sample.day3; Sample.day2; Sample.day1]
           (Sample.listing [Sample.day3; Sample.day2; Sample.day1])).
  - vm_compute. reflexivity.
  - repeat constructor; simpl; lia.
Defined.

(** The three days at the deployed chunk size: the file of [day3] is
    missing, that of [day2] cannot be opened. *)
Lemma backup_touches_only_listed_witness :
  (backup Sample.digest Sample.join CHUNK_SIZE Sample.disk (Sample.undeletable "0a")
     (Demo.keeping 2) 0
     (Sample.listing [Sample.day3; Sample.day2; Sample.day1])).1 ≠ Diverges ∧
  heap (backup Sample.digest Sample.join CHUNK_SIZE Sample.disk
          (Sample.undeletable "0a") (Demo.keeping 2) 0
          (Sample.listing [Sample.day3; Sample.day2; Sample.day1])).2
  = heap (Sample.listing [Sample.day3; Sample.day2; Sample.day1]) ∧
  ∃ cs,
    calls (backup Sample.digest Sample.join CHUNK_SIZE Sample.disk
             (Sample.undeletable "0a") (Demo.keeping 2) 0
             (Sample.listing [Sample.day3; Sample.day2; Sample.day1])).2
    = calls (Sample.listing [Sample.day3; Sample.day2; Sample.day1]) ++ cs ∧
    Forall (λ c, ∃ s, s ∈ backup_batch (Demo.keeping 2)
                            [Sample.day3; Sample.day2; Sample.day1] ∧
                      touches_only (dropbox_path Sample.join "/snapshots" s) c)
      cs.
Proof.
  apply (backup_touches_only_listed Sample.digest Sample.join CHUNK_SIZE
           Sample.disk (Sample.undeletable "0a") (Demo.keeping 2) 0
           [Sample.day3; Sample.day2; Sample.day1]
           (Sample.listing [Sample.day3; Sample.day2; Sample.day1])).
  - unfold CHUNK_SIZE. lia.
  - vm_compute. reflexivity.
Defined.

(** [day2] and [day1], newest first, one of which is kept. *)
Lemma backup_then_limit_split_witness :
  ∃ cs st1 st2,
    backup Sample.digest Sample.join CHUNK_SIZE Sample.disk (Sample.client None)
      (Demo.keeping 1) 0 (Sample.listing [Sample.day2; Sample.day1])
    = (Returns tt, st1) ∧
    calls st1 = calls (Sample.listing [Sample.day2; Sample.day1]) ++ cs ∧
    metadata_fetches cs
    = dropbox_path Sample.join "/snapshots"
      <$> take (Z.to_nat 1) [Sample.day2; Sample.day1] ∧
    limit_snapshots Sample.join Sample.supervisor (Sample.client None)
      (Demo.keeping 1) 0 st1 = (Returns tt, st2) ∧
    calls st2
    = calls st1 ++ (drop (Z.to_nat 1) [Sample.day2; Sample.day1]
                    ≫= deletion_calls Sample.join "/snapshots") ∧
    heap st2 = heap (Sample.listing [Sample.day2; Sample.day1]).
Proof.
  apply (backup_then_limit_split Sample.digest Sample.join CHUNK_SIZE Sample.disk
           Sample.supervisor (Sample.client None) (Demo.keeping 1) 0
           [Sample.day2; Sample.day1] 1%Z
           (Sample.listing [Sample.day2; Sample.day1])).
  - unfold CHUNK_SIZE. lia.
  - vm_compute. reflexivity.
  - repeat constructor; simpl; lia.
  - reflexivity.
  - simpl. lia.
  - intros s Hs. apply elem_of_cons in Hs as [Hs | Hs];
      [| apply list_elem_of_singleton in Hs]; rewrite Hs; vm_compute; eauto.
  - apply supervisor_removals_succeed.
  - apply client_deletes_succeed.
Defined.

(** [day1] and its twin of the same date. *)
Lemma equal_dates_delete_the_backed_up_one_witness :
  ∃ cs st1 st2,
    backup Sample.digest Sample.join CHUNK_SIZE Sample.disk (Sample.client None)
      (Demo.keeping 1) 0 (Sample.listing [Sample.day1; Demo.twin])
    = (Returns tt, st1) ∧
    calls st1 = calls (Sample.listing [Sample.day1; Demo.twin]) ++ cs ∧
    metadata_fetches cs = [dropbox_path Sample.join "/snapshots" Sample.day1] ∧
    Forall (touches_only (dropbox_path Sample.join "/snapshots" Sample.day1)) cs ∧
    limit_snapshots Sample.join Sample.supervisor (Sample.client None)
      (Demo.keeping 1) 0 st1 = (Returns tt, st2) ∧
    calls st2 = calls st1 ++ deletion_calls Sample.join "/snapshots" Sample.day1 ∧
    heap st2 !! 0 = Some [Demo.twin; Sample.day1].
Proof.
  apply (equal_dates_delete_the_backed_up_one Sample.digest Sample.join CHUNK_SIZE
           Sample.disk Sample.supervisor (Sample.client None) (Demo.keeping 1) 0
           Sample.day1 Demo.twin (Sample.listing [Sample.day1; Demo.twin])).
  - unfold CHUNK_SIZE. lia.
  - vm_compute. reflexivity.
  - reflexivity.
  - reflexivity.
  - vm_compute. eauto.
  - vm_compute. eauto.
  - apply supervisor_removals_succeed.
  - apply client_deletes_succeed.
Defined.

(** The supervisor lists the three days out of order. *)
Lemma list_snapshots_new_list_newest_first_witness :
  ∃ l sorted p',
    list_snapshots (Demo.lists [Sample.day1; Sample.day3; Sample.day2]) Demo.boot
    = (Returns l, p') ∧
    heap (engine Demo.boot) !! l = None ∧
    heap (engine p') !! l = Some sorted ∧
    sorted ≡ₚ [Sample.day1; Sample.day3; Sample.day2] ∧ newest_first sorted ∧
    (∀ l', l' ≠ l → heap (engine p') !! l' = heap (engine Demo.boot) !! l') ∧
    requests p' = requests Demo.boot ++ [HassioGet "http://hassio/snapshots"] ∧
    calls (engine p') = calls (engine Demo.boot).
Proof.
  apply (list_snapshots_new_list_newest_first
           (Demo.lists [Sample.day1; Sample.day3; Sample.day2]) Demo.boot
           [Sample.day1; Sample.day3; Sample.day2]).
  reflexivity.
Defined.

(** A turn at the deployed chunk size while the supervisor is down. *)
Lemma cycle_swallows_errors_witness :
  ∃ p',
    cycle Sample.digest Sample.join CHUNK_SIZE Sample.disk Sample.supervisor
      Demo.down (Sample.client None) (Demo.keeping 2) Demo.boot
    = (Returns tt, p') ∧
    requests p' = requests Demo.boot ++ [HassioGet "http://hassio/snapshots"] ∧
    (∀ l, is_Some (heap (engine Demo.boot) !! l) →
          heap (engine p') !! l = heap (engine Demo.boot) !! l) ∧
    ∃ cs,
      calls (engine p') = calls (engine Demo.boot) ++ cs ∧
      (∀ e, Demo.down (requests Demo.boot) "http://hassio/snapshots" = Error e →
            cs = []).
Proof.
  apply (cycle_swallows_errors Sample.digest Sample.join CHUNK_SIZE Sample.disk
           Sample.supervisor Demo.down (Sample.client None) (Demo.keeping 2)
           Demo.boot).
  unfold CHUNK_SIZE. lia.
Defined.

(** A sleeper that says stop at its second call, and no configured
    delay: two turns, each sleeping for six hundred seconds. *)
Lemma main_stops_when_sleeper_says_so_witness :
  ∃ p',
    main Sample.digest Sample.join CHUNK_SIZE Sample.disk Sample.supervisor
      (Demo.lists [Sample.day1]) Demo.second_nap 2 (Sample.client None) Account
      (Demo.keeping 2) None Demo.boot = (Returns tt, p') ∧
    requests p' = turns 2 600.
Proof.
  apply (main_stops_when_sleeper_says_so Sample.digest Sample.join CHUNK_SIZE
           Sample.disk Sample.supervisor (Demo.lists [Sample.day1]) Demo.second_nap
           (Sample.client None) (Demo.keeping 2) None 1 2 Demo.boot).
  - unfold CHUNK_SIZE. lia.
  - reflexivity.
  - intros h Hh. unfold Demo.second_nap. replace (naps h) with 0 by lia.
    reflexivity.
  - intros h Hh. unfold Demo.second_nap. rewrite Hh. reflexivity.
  - lia.
Defined.

(** [time.sleep] and a delay of five minutes, stopped after three
    turns. *)
Lemma main_runs_forever_with_plain_sleep_witness :
  ∃ p',
    main Sample.digest Sample.join CHUNK_SIZE Sample.disk Sample.supervisor
      (Demo.lists [Sample.day1]) Demo.plain_sleep 3 (Sample.client None) Account
      (Demo.keeping 2) (Some 5%Z) Demo.boot = (Diverges, p') ∧
    requests p' = requests Demo.boot ++ turns 3 300.
Proof.
  apply (main_runs_forever_with_plain_sleep Sample.digest Sample.join CHUNK_SIZE
           Sample.disk Sample.supervisor (Demo.lists [Sample.day1]) Demo.plain_sleep
           (Sample.client None) (Demo.keeping 2) (Some 5%Z) 3 Demo.boot).
  - unfold CHUNK_SIZE. lia.
  - intros h seconds. reflexivity.
Defined.

(** An access token that Dropbox refuses. *)
Lemma main_stops_at_failed_account_check_witness :
  requests (main Sample.digest Sample.join CHUNK_SIZE Sample.disk Sample.supervisor
              (Demo.lists [Sample.day1]) Demo.plain_sleep 3 (Sample.client None)
              AuthError (Demo.keeping 2) None Demo.boot).2 = requests Demo.boot ∧
  calls (engine (main Sample.digest Sample.join CHUNK_SIZE Sample.disk
                   Sample.supervisor (Demo.lists [Sample.day1]) Demo.plain_sleep 3
                   (Sample.client None) AuthError (Demo.keeping 2) None
                   Demo.boot).2) = calls (engine Demo.boot) ∧
  heap (engine (main Sample.digest Sample.join CHUNK_SIZE Sample.disk
                  Sample.supervisor (Demo.lists [Sample.day1]) Demo.plain_sleep 3
                  (Sample.client None) AuthError (Demo.keeping 2) None
                  Demo.boot).2) = heap (engine Demo.boot) ∧
  (main Sample.digest Sample.join CHUNK_SIZE Sample.disk Sample.supervisor
     (Demo.lists [Sample.day1]) Demo.plain_sleep 3 (Sample.client None)
     AuthError (Demo.keeping 2) None Demo.boot).1 = Returns tt ∧
  logs (engine (main Sample.digest Sample.join CHUNK_SIZE Sample.disk
                  Sample.supervisor (Demo.lists [Sample.day1]) Demo.plain_sleep 3
                  (Sample.client None) AuthError (Demo.keeping 2) None
                  Demo.boot).2)
  = logs (engine Demo.boot) ++ [(ERROR, "Invalid access token")].
Proof.
  apply (main_stops_at_failed_account_check Sample.digest Sample.join CHUNK_SIZE
           Sample.disk Sample.supervisor (Demo.lists [Sample.day1]) Demo.plain_sleep
           (Sample.client None) AuthError (Demo.keeping 2) None 3 Demo.boot).
  discriminate.
Defined.

(** The supervisor lists [day1] and [day2], one of which is kept. *)
Lemma cycle_backs_up_newest_deletes_rest_witness :
  ∃ sorted cs p',
    sorted ≡ₚ [Sample.day1; Sample.day2] ∧ strictly_newest_first sorted ∧
    cycle Sample.digest Sample.join CHUNK_SIZE Sample.disk Sample.supervisor
      (Demo.lists [Sample.day1; Sample.day2]) (Sample.client None) (Demo.keeping 1)
      Demo.boot = (Returns tt, p') ∧
    calls (engine p')
    = calls (engine Demo.boot) ++ cs
      ++ (drop (Z.to_nat 1) sorted ≫= deletion_calls Sample.join "/snapshots") ∧
    metadata_fetches cs
    = dropbox_path Sample.join "/snapshots" <$> take (Z.to_nat 1) sorted ∧
    last (logs (engine p')) = Some (INFO, "Snapshot cleanup complete").
Proof.
  apply (cycle_backs_up_newest_deletes_rest Sample.digest Sample.join CHUNK_SIZE
           Sample.disk Sample.supervisor (Demo.lists [Sample.day1; Sample.day2])
           (Sample.client None) (Demo.keeping 1) Demo.boot
           [Sample.day1; Sample.day2] 1%Z).
  - unfold CHUNK_SIZE. lia.
  - reflexivity.
  - apply (bool_decide_unpack _). vm_compute. exact I.
  - reflexivity.
  - simpl. lia.
  - intros s Hs. apply elem_of_cons in Hs as [Hs | Hs];
      [| apply list_elem_of_singleton in Hs]; rewrite Hs; vm_compute; eauto.
  - apply supervisor_removals_succeed.
  - apply client_deletes_succeed.
Defined.
